(** * pgi::DatabaseWorker (src/classes/DatabaseWorker.hpp)

    A shallow embedding of the worker class: the statements it builds with
    [std::stringstream], the bookkeeping it does in its YAML configuration
    tree, the way it drives the database connection, and the text it prints.

    The PostgreSQL server, the file system, the yaml-cpp scalar decoder and
    the helpers of namespace [utl] live outside of DatabaseWorker.hpp; they
    are parameters of the development (the fields of [environment]).  The
    embedding comes first; the facts about it follow, from [StrFacts] on. *)

From Stdlib Require Import List String Ascii ZArith Lia Bool DecimalString.
Import ListNotations.

Open Scope list_scope.
Open Scope string_scope.

Set Implicit Arguments.
Set Warnings "-register-all".

(* ===================================================================== *)
(** * Character strings *)
(* ===================================================================== *)

Module Str.

(** The first [n] characters of [s] (all of [s] when it is shorter). *)
Fixpoint take (n : nat) (s : string) : string :=
  match n, s with
  | O, _ => ""
  | S _, EmptyString => ""
  | S n', String c s' => String c (take n' s')
  end.

(** [s] without its first [n] characters. *)
Fixpoint drop (n : nat) (s : string) : string :=
  match n, s with
  | O, _ => s
  | S _, EmptyString => ""
  | S n', String _ s' => drop n' s'
  end.

(** [n] copies of the character [c]. *)
Fixpoint fill (n : nat) (c : ascii) : string :=
  match n with
  | O => ""
  | S n' => String c (fill n' c)
  end.

(** [std::string::find(needle) != std::string::npos]. *)
Definition contains (needle s : string) : bool :=
  match index 0 needle s with
  | Some _ => true
  | None => false
  end.

(** The texts [f a], for the elements [a] of [l], one after the other. *)
Fixpoint concat_map (A : Type) (f : A -> string) (l : list A) : string :=
  match l with
  | [] => ""
  | a :: l' => f a ++ concat_map f l'
  end.

(** The line feed character, as a string. *)
Definition nl : string := String (ascii_of_nat 10) "".

(** Decimal rendering of an [int], as [operator<<] prints it. *)
Definition of_Z (z : Z) : string := NilZero.string_of_int (Z.to_int z).

(** Decimal rendering of an index. *)
Definition of_nat (n : nat) : string := NilZero.string_of_uint (Nat.to_uint n).

End Str.

(* ===================================================================== *)
(** * [std::stringstream] *)
(* ===================================================================== *)

(** The output side: the characters written so far, the put position and
    the failure flag.  A write overwrites from the put position on and
    extends the buffer when it runs past its end; once the stream has
    failed every operation on it is a no-op. *)
Module OStream.

Record t : Type := mk { buf : string; pos : nat; failed : bool }.

(** [std::stringstream ss;] *)
Definition empty : t := mk "" 0 false.

(** [ss << s] for a string (or already rendered value) [s]. *)
Definition write (s : string) (ss : t) : t :=
  if failed ss then ss
  else mk (Str.take (pos ss) (buf ss) ++ s ++ Str.drop (pos ss + length s) (buf ss))
          (pos ss + length s) false.

(** [ss.seekp(off, ss.cur)]: the target must lie inside the buffer,
    otherwise the stream fails. *)
Definition seekp_cur (off : Z) (ss : t) : t :=
  if failed ss then ss
  else
    let target := (Z.of_nat (pos ss) + off)%Z in
    if ((0 <=? target) && (target <=? Z.of_nat (length (buf ss))))%Z
    then mk (buf ss) (Z.to_nat target) false
    else mk (buf ss) (pos ss) true.

(** [ss.str()]: the whole buffer, whatever the put position. *)
Definition str (ss : t) : string := buf ss.

(** [ss << std::left << std::setw(w) << std::setfill(fill) << s]:
    [s] followed by as many fill characters as it is short of [w]. *)
Definition padded (w : Z) (fill : ascii) (s : string) : string :=
  s ++ Str.fill (Z.to_nat (w - Z.of_nat (length s))) fill.

Definition write_left (w : Z) (fill : ascii) (s : string) (ss : t) : t :=
  write (padded w fill s) ss.

Module Notations.
Notation "ss << s" := (write s ss) (at level 50, left associativity).
End Notations.

(** The stream after [s] has been written to an empty one: the put
    position is at the end. *)
Definition holding (s : string) : t := mk s (length s) false.

End OStream.

(** The input side, as [std::getline] uses it: the characters not yet
    read and the two state bits. *)
Module IStream.

Record t : Type := mk { rest : string; eof : bool; failed : bool }.

(** [std::stringstream ss(s);] *)
Definition of_string (s : string) : t := mk s false false.

(** The characters of [s] before the first [delim], and what follows
    that delimiter when there is one. *)
Fixpoint split (delim : ascii) (s : string) : string * option string :=
  match s with
  | EmptyString => ("", None)
  | String c s' =>
    if Ascii.eqb c delim then ("", Some s')
    else let '(p, r) := split delim s' in (String c p, r)
  end.

(** [std::getline(ss, segment, delim)].  On a stream that is no longer
    good nothing is read and [segment] keeps its value; otherwise
    [segment] is erased and refilled up to the delimiter (which is
    consumed) or to the end of the input (which sets eof, and fail when
    nothing at all was extracted). *)
Definition getline (ss : t) (segment : string) (delim : ascii) : string * t :=
  if eof ss || failed ss then (segment, mk (rest ss) (eof ss) true)
  else
    match split delim (rest ss) with
    | (p, Some r) => (p, mk r false false)
    | (p, None) => (p, mk "" true (match p with EmptyString => true | _ => false end))
    end.

End IStream.

(* ===================================================================== *)
(** * [YAML::Node] *)
(* ===================================================================== *)

(** The configuration tree.  A map keeps its pairs in insertion order,
    which is the order yaml-cpp iterates them in; keys are scalars.  Only
    defined nodes are part of a tree: the placeholder children that the
    non-const [operator[]] creates for a missing key stay invisible to
    [size()], to iteration, to the [bool] conversion and to the emitter
    until something is assigned to them, so a missing key is [None].
    Reading through [operator[]] also turns a null node or a sequence into
    a map where it stands; the reads of the worker give the same either
    way, and a read leaves the tree as it is here. *)
Module Yaml.

Inductive node : Type :=
| Null
| Scalar (s : string)
| Sequence (l : list node)
| Map (m : list (string * node)).

Inductive error : Type := BadSubscript | BadConversion | InvalidNode | BadPushback.

Definition pairs : Type := list (string * node).

Fixpoint assoc (k : string) (m : pairs) : option node :=
  match m with
  | [] => None
  | (k', v) :: m' => if String.eqb k k' then Some v else assoc k m'
  end.

(** Replace the value of [k] where it stands, or add the pair at the end. *)
Fixpoint assoc_set (k : string) (v : node) (m : pairs) : pairs :=
  match m with
  | [] => [(k, v)]
  | (k', v') :: m' =>
    if String.eqb k k' then (k, v) :: m' else (k', v') :: assoc_set k v m'
  end.

(** A sequence subscripted by a string is turned into a map whose keys
    are the decimal indices. *)
Definition seq_as_map (l : list node) : pairs :=
  combine (map Str.of_nat (seq 0 (List.length l))) l.

(** The pairs a node offers to a string subscript; a scalar has none and
    refuses the subscript. *)
Definition children (n : option node) : option pairs :=
  match n with
  | None | Some Null => Some []
  | Some (Map m) => Some m
  | Some (Sequence l) => Some (seq_as_map l)
  | Some (Scalar _) => None
  end.

(** [n[k]], read. *)
Definition subscript (n : option node) (k : string) : error + option node :=
  match children n with
  | None => inl BadSubscript
  | Some m => inr (assoc k m)
  end.

(** [n[k1][k2]...], read. *)
Fixpoint get (path : list string) (n : option node) : error + option node :=
  match path with
  | [] => inr n
  | k :: ks =>
    match subscript n k with
    | inl e => inl e
    | inr c => get ks c
    end
  end.

(** [n[k1][k2]... = v]: every node on the way becomes a map if it was
    undefined, null or a sequence; the last one takes the value [v]. *)
Fixpoint assign (path : list string) (v : node) (n : option node) : error + node :=
  match path with
  | [] => inr v
  | k :: ks =>
    match children n with
    | None => inl BadSubscript
    | Some m =>
      match assign ks v (assoc k m) with
      | inl e => inl e
      | inr c => inr (Map (assoc_set k c m))
      end
    end
  end.

(** [n.push_back(v)]. *)
Definition push_back (v : node) (n : option node) : error + node :=
  match n with
  | None | Some Null => inr (Sequence [v])
  | Some (Sequence l) => inr (Sequence (l ++ [v])%list)
  | Some (Map _) | Some (Scalar _) => inl BadPushback
  end.

(** [n.size()]. *)
Definition size (n : option node) : nat :=
  match n with
  | Some (Sequence l) => List.length l
  | Some (Map m) => List.length m
  | _ => 0
  end.

(** What [begin()..end()] visits: the pairs of a map; for a sequence one
    item per element, whose [first] and [second] are invalid nodes. *)
Definition items (n : option node) : list (option (string * node)) :=
  match n with
  | Some (Map m) => map Some m
  | Some (Sequence l) => map (fun _ => None) l
  | _ => []
  end.

End Yaml.

(* ===================================================================== *)
(** * [pqxx::result], [pqxx::row], [pqxx::field] *)
(* ===================================================================== *)

Module Pq.

(** A column of a result: its name and the OID of its type. *)
Record column : Type := mk_column { column_name : string; column_type : Z }.

(** A result: its columns and, per row, the values ([None] is SQL NULL). *)
Record result : Type := mk_result { columns : list column; rows : list (list (option string)) }.

Record field : Type := mk_field { name : string; type : Z; value : option string }.

Definition row : Type := list field.

(** [pqxx::result r;] and [pqxx::row r;] *)
Definition default_result : result := mk_result [] [].
Definition default_row : row := [].

Definition empty (r : result) : bool :=
  match rows r with [] => true | _ => false end.

Definition size (r : result) : nat := List.length (rows r).

(** The row holding [vals] in the result [r]. *)
Definition row_of (r : result) (vals : list (option string)) : row :=
  map (fun cv => mk_field (column_name (fst cv)) (column_type (fst cv)) (snd cv))
      (combine (columns r) vals).

(** [field.c_str()]: a NULL reads as the empty string. *)
Definition c_str (f : field) : string :=
  match value f with Some s => s | None => "" end.

(** Events on the connection, in the order they were issued. *)
Inductive event : Type :=
| Begin
| Exec (statement : string)
| Commit
| Abort.

(** The statements among the events. *)
Fixpoint statements (l : list event) : list string :=
  match l with
  | [] => []
  | Exec s :: l' => s :: statements l'
  | _ :: l' => statements l'
  end.

End Pq.

(** Conversion of a 32-bit unsigned value or of a [size_t] to [int]. *)
Definition to_int (z : Z) : Z := ((z + 2 ^ 31) mod 2 ^ 32 - 2 ^ 31)%Z.

(** What can be thrown, as far as the worker can tell the cases apart. *)
Inductive exn : Type :=
| yaml_error (e : Yaml.error)     (* a yaml-cpp exception *)
| load_error (msg : string)       (* YAML::LoadFile could not read or parse *)
| sql_error (msg : string)        (* pqxx: broken connection, failed statement, ... *)
| unexpected_rows (n : nat)       (* pqxx: exec1 on a result of [n <> 1] rows *)
| conversion_error.               (* pqxx: a NULL field read as std::string *)

(** The arguments of [utl::string_format]. *)
Inductive fmt_arg : Type :=
| arg_str (s : string)
| arg_int (z : Z).

(** Values that have an [operator<<]. *)
Class Streamable (T : Type) : Type := stream_out : T -> string.

#[export] Instance Streamable_string : Streamable string := fun s => s.
#[export] Instance Streamable_int : Streamable Z := Str.of_Z.

(** One element of a template parameter pack [Args... values]. *)
Record streamed : Type :=
  pack { carrier : Type; carrier_streamable : Streamable carrier; payload : carrier }.

Definition render (v : streamed) : string :=
  @stream_out (carrier v) (carrier_streamable v) (payload v).

(** Everything the worker takes from outside of DatabaseWorker.hpp. *)
Record environment : Type := mk_environment {
  (** the state of the server and of the session with it *)
  DB : Type;
  (** [pqxx::connection(connection_string)] *)
  pq_connect : string -> exn + DB;
  (** the constructor of [pqxx::work] on the connection *)
  pq_begin : DB -> DB * option exn;
  (** [w.exec(statement)] *)
  pq_exec : DB -> string -> DB * (exn + Pq.result);
  (** [w.commit()] *)
  pq_commit : DB -> DB * option exn;
  (** the destructor of a [pqxx::work] that was not committed *)
  pq_abort : DB -> DB;
  (** [e.what()] *)
  what : exn -> string;
  (** [YAML::LoadFile] *)
  LoadFile : string -> exn + Yaml.node;
  (** whether [std::ofstream::open] on this path succeeds *)
  can_open : string -> bool;
  (** yaml-cpp's decoding of a scalar as an integer *)
  decode_int : string -> option Z;
  (** what [as<std::string>()] gives for a null node, if anything
      (yaml-cpp releases differ) *)
  null_as_string : option string;
  (** [utl::string_format], string_utls.hpp *)
  string_format : string -> list fmt_arg -> string;
  (** [utl::truncate], string_utls.hpp *)
  truncate : string -> Z -> string;
  (** [time_point_t] and [utl::ISO_8601], datetime.hpp *)
  time_point_t : Type;
  ISO_8601 : time_point_t -> string
}.

(* ===================================================================== *)
(** * The worker *)
(* ===================================================================== *)

(** What the C++ standard leaves undefined and the worker can run into. *)
Inductive undefined_behaviour : Type :=
| NullConnection     (* [*c_] while [c_] holds no connection *)
| RowSubscript.      (* [row[0]] on a row without columns *)

Section Outcome.

Variable E : environment.

(** The worker object together with the streams and files it writes and
    a record of what it asked of the connection. *)
Record world : Type := mk_world {
  db_config_ : Yaml.node;
  c_ : option (DB E);
  log : list Pq.event;
  cout : string;
  cerr : string;
  files : list (string * Yaml.node)
}.

(** A call returns, throws, or has undefined behaviour. *)
Inductive outcome (A : Type) : Type :=
| Ret (a : A) (w : world)
| Throw (e : exn) (w : world)
| Undefined (u : undefined_behaviour).

Arguments Ret {A} a w.
Arguments Throw {A} e w.
Arguments Undefined {A} u.

Definition M (A : Type) : Type := world -> outcome A.

Definition ret {A : Type} (a : A) : M A := fun w => Ret a w.

Definition throw {A : Type} (e : exn) : M A := fun w => Throw e w.

Definition undefined {A : Type} (u : undefined_behaviour) : M A := fun _ => Undefined u.

Definition bind {A B : Type} (m : M A) (k : A -> M B) : M B :=
  fun w =>
    match m w with
    | Ret a w' => k a w'
    | Throw e w' => Throw e w'
    | Undefined u => Undefined u
    end.

(** [try { m } catch (const std::exception& e) { h e }] *)
Definition try_catch {A : Type} (m : M A) (h : exn -> M A) : M A :=
  fun w =>
    match m w with
    | Throw e w' => h e w'
    | o => o
    end.

Definition lift_yaml {A : Type} (r : Yaml.error + A) : M A :=
  match r with
  | inl e => throw (yaml_error e)
  | inr a => ret a
  end.

Fixpoint for_each {A : Type} (l : list A) (body : A -> M unit) : M unit :=
  match l with
  | [] => ret tt
  | a :: l' => bind (body a) (fun _ => for_each l' body)
  end.

Fixpoint fold_m {A S : Type} (l : list A) (body : S -> A -> M S) (s : S) : M S :=
  match l with
  | [] => ret s
  | a :: l' => bind (body s a) (fun s' => fold_m l' body s')
  end.

End Outcome.

Arguments mk_world {E} db_config_ c_ log cout cerr files.
Arguments Ret {E A} a w.
Arguments Throw {E A} e w.
Arguments Undefined {E A} u.
Arguments ret {E A} a _.
Arguments throw {E A} e _.
Arguments undefined {E A} u _.

Notation "x <- m ;; k" := (bind m (fun x => k))
  (at level 61, m at next level, right associativity).
Notation "' pat <- m ;; k" := (bind m (fun x => let 'pat := x in k))
  (at level 61, pat pattern, m at next level, right associativity).
Notation "m ;;; k" := (bind m (fun _ => k))
  (at level 61, right associativity).

Section Worker.

Variable E : environment.

Local Abbreviation M := (M E).
Local Abbreviation world := (world E).
Local Abbreviation outcome := (outcome E).

(** ** Streams and files *)

(** The world after [std::cerr << s << '\n']. *)
Definition logged (s : string) (w : world) : world :=
  mk_world (db_config_ w) (c_ w) (log w) (cout w) (cerr w ++ s ++ Str.nl) (files w).

Definition cerr_line (s : string) : M unit := fun w => Ret tt (logged s w).

(** [std::cout << s] *)
Definition cout_write (s : string) : M unit :=
  fun w => Ret tt (mk_world (db_config_ w) (c_ w) (log w) (cout w ++ s)
                            (cerr w) (files w)).

(** The handler every [catch] block of the class has. *)
Definition report (e : exn) : M unit := cerr_line (what E e).

(** ** The configuration tree *)

(** [db_config_[k1][k2]...], read. *)
Definition config_get (path : list string) : M (option Yaml.node) :=
  fun w => lift_yaml (Yaml.get path (Some (db_config_ w))) w.

(** [db_config_[k1][k2]... = v] *)
Definition config_assign (path : list string) (v : Yaml.node) : M unit :=
  fun w =>
    match Yaml.assign path v (Some (db_config_ w)) with
    | inl e => Throw (yaml_error e) w
    | inr n => Ret tt (mk_world n (c_ w) (log w) (cout w) (cerr w) (files w))
    end.

(** [n.as<std::string>()] *)
Definition as_string (n : option Yaml.node) : M string :=
  match n with
  | Some (Yaml.Scalar s) => ret s
  | Some Yaml.Null =>
    match null_as_string E with
    | Some s => ret s
    | None => throw (yaml_error Yaml.BadConversion)
    end
  | _ => throw (yaml_error Yaml.BadConversion)
  end.

(** [n.as<int>()] *)
Definition as_int (n : option Yaml.node) : M Z :=
  match n with
  | Some (Yaml.Scalar s) =>
    match decode_int E s with
    | Some z => ret z
    | None => throw (yaml_error Yaml.BadConversion)
    end
  | _ => throw (yaml_error Yaml.BadConversion)
  end.

(** [it->first.as<std::string>()] and [it->second.as<std::string>()];
    both nodes are invalid when the iterator runs over a sequence. *)
Definition first_as_string (it : option (string * Yaml.node)) : M string :=
  match it with
  | Some (k, _) => ret k
  | None => throw (yaml_error Yaml.InvalidNode)
  end.

Definition second_as_string (it : option (string * Yaml.node)) : M string :=
  match it with
  | Some (_, v) => as_string (Some v)
  | None => throw (yaml_error Yaml.InvalidNode)
  end.

(** [n[i]] for an index [i < n.size()]; in a map the key that decodes
    to [i] is looked for. *)
Definition at_index (n : option Yaml.node) (i : nat) : option Yaml.node :=
  match n with
  | Some (Yaml.Sequence l) => nth_error l i
  | Some (Yaml.Map m) =>
    option_map snd
      (find (fun kv => match decode_int E (fst kv) with
                       | Some z => Z.eqb z (Z.of_nat i)
                       | None => false
                       end) m)
  | _ => None
  end.

(** ** Execution (lines 270-298) *)

Definition with_connection (d : DB E) (events : list Pq.event) (w : world) : world :=
  mk_world (db_config_ w) (Some d) (log w ++ events)%list (cout w) (cerr w) (files w).

(** The [catch] block of [execute] and [execute1]: the message goes to
    standard error and the function goes on to [return r]. *)
Definition caught {A : Type} (e : exn) (r : A) : M A :=
  report e ;;; ret r.

(** [w.exec1(statement)]: the statement is executed and must give
    exactly one row. *)
Definition exec1 (d : DB E) (statement : string) : DB E * (exn + Pq.row) :=
  let '(d', res) := pq_exec E d statement in
  match res with
  | inl e => (d', inl e)
  | inr r =>
    match Pq.rows r with
    | [vals] => (d', inr (Pq.row_of r vals))
    | rs => (d', inl (unexpected_rows (List.length rs)))
    end
  end.

(** The body [execute] and [execute1] share: [r] is default-constructed,
    assigned by the call on the transaction ([run]), and returned after
    the [try] block whatever happened inside it. *)
Definition in_work {A : Type} (run : DB E -> string -> DB E * (exn + A)) (r0 : A)
           (statement : string) : M A :=
  fun w =>
    match c_ w with
    | None => Undefined NullConnection
    | Some d =>
      let '(d1, began) := pq_begin E d in
      match began with
      | Some e => caught e r0 (with_connection d1 [Pq.Begin] w)
      | None =>
        let '(d2, res) := run d1 statement in
        match res with
        | inl e =>
          caught e r0
                 (with_connection (pq_abort E d2) [Pq.Begin; Pq.Exec statement; Pq.Abort] w)
        | inr r =>
          let '(d3, committed) := pq_commit E d2 in
          match committed with
          | Some e =>
            caught e r (with_connection d3 [Pq.Begin; Pq.Exec statement; Pq.Commit] w)
          | None =>
            Ret r (with_connection d3 [Pq.Begin; Pq.Exec statement; Pq.Commit] w)
          end
        end
      end
    end.

(** [execute]: [r = w.exec(statement)] *)
Definition execute (statement : string) : M Pq.result :=
  in_work (pq_exec E) Pq.default_result statement.

(** [execute1]: [r = w.exec1(statement)] *)
Definition execute1 (statement : string) : M Pq.row :=
  in_work exec1 Pq.default_row statement.

(** [f.as<std::string>()] on a field of a result. *)
Definition field_as_string (f : Pq.field) : M string :=
  match Pq.value f with
  | Some s => ret s
  | None => throw conversion_error
  end.

(** [row[0]] *)
Definition row_front (r : Pq.row) : M Pq.field :=
  match r with
  | f :: _ => ret f
  | [] => undefined RowSubscript
  end.

(** The text [get_typname_from_oid] formats (line 265); the OID arrives
    as an [int]. *)
Definition typname_statement (oid : Z) : string :=
  string_format E "SELECT t.typname FROM pg_type t WHERE t.oid = %d" [arg_int (to_int oid)].

(** [get_typname_from_oid] (lines 262-267) *)
Definition get_typname_from_oid (oid : Z) : M string :=
  row <- execute1 (typname_statement oid) ;;
  f <- row_front row ;;
  field_as_string f.

Import OStream.Notations.

(** ** Connection and schema discovery (lines 189-260) *)

(** [c_ = buff] *)
Definition set_connection (d : DB E) : M unit :=
  fun w => Ret tt (mk_world (db_config_ w) (Some d) (log w) (cout w) (cerr w) (files w)).

(** [new pqxx::connection(connection_string)] *)
Definition new_connection (connection_string : string) : M (DB E) :=
  match pq_connect E connection_string with
  | inl e => throw e
  | inr d => ret d
  end.

(** [connect] *)
Definition connect (connection_config : option Yaml.node) : M unit :=
  try_catch
    (ss <- fold_m (Yaml.items connection_config)
                  (fun ss it =>
                     k <- first_as_string it ;;
                     v <- second_as_string it ;;
                     ret (ss << k << "=" << v << " "))
                  OStream.empty ;;
     let connection_string := OStream.str ss in
     buff <- new_connection connection_string ;;
     set_connection buff)
    report.

(** The format of the primary-key query (lines 243-248). *)
Definition primary_key_format : string :=
  "SELECT c.column_name, c.data_type "
  ++ "FROM information_schema.table_constraints tc "
  ++ "JOIN information_schema.constraint_column_usage AS ccu USING (constraint_schema, constraint_name) "
  ++ "JOIN information_schema.columns AS c ON c.table_schema = '%s' "
  ++ "  AND tc.table_name = '%s' AND ccu.column_name = c.column_name "
  ++ "WHERE constraint_type = 'PRIMARY KEY';".

(** [r[0][0].as<std::string>()] for a result that is not empty. *)
Definition first_of_first (r : Pq.result) : M string :=
  match Pq.rows r with
  | vals :: _ => f <- row_front (Pq.row_of r vals) ;; field_as_string f
  | [] => undefined RowSubscript
  end.

(** Lines 242-254 of [get_column_details]: the primary-key lookup. *)
Definition lookup_primary_key (table_name : string) : M unit :=
  schema_node <- config_get ["tables_details"; table_name; "schema"] ;;
  schema <- as_string schema_node ;;
  table_node <- config_get ["tables_details"; table_name; "table"] ;;
  table <- as_string table_node ;;
  r <- execute (string_format E primary_key_format [arg_str schema; arg_str table]) ;;
  if negb (Pq.empty r)
  then
    key <- first_of_first r ;;
    config_assign ["tables_details"; table_name; "primary_key"] (Yaml.Scalar key)
  else
    config_assign ["tables_details"; table_name; "primary_key"] (Yaml.Scalar "_none_").

(** Lines 234-240 of [get_column_details]: the columns and their types.
    The right-hand side of each assignment is evaluated first. *)
Definition discover_columns (table_name : string) : M unit :=
  r <- execute (string_format E "SELECT * FROM %s LIMIT 0" [arg_str table_name]) ;;
  for_each (Pq.columns r)
           (fun c =>
              typname <- get_typname_from_oid (Pq.column_type c) ;;
              config_assign ["tables_details"; table_name; "columns"; Pq.column_name c]
                            (Yaml.Scalar typname)).

(** [get_column_details] *)
Definition get_column_details (table_name : string) : M unit :=
  try_catch
    (let ss := IStream.of_string table_name in
     let '(segment, ss) := IStream.getline ss "" "." in
     config_assign ["tables_details"; table_name; "schema"] (Yaml.Scalar segment) ;;;
     let '(segment, ss) := IStream.getline ss segment "." in
     config_assign ["tables_details"; table_name; "table"] (Yaml.Scalar segment) ;;;
     discover_columns table_name ;;;
     lookup_primary_key table_name)
    report.

(** [explore_tables].  [tables] is a handle on the node under
    [db_config_["tables"]]; nothing in the loop writes to that node, so
    the value it had on entry is the value the loop sees. *)
Definition explore_tables (tables : option Yaml.node) : M unit :=
  try_catch
    (for_each (seq 0 (Yaml.size tables))
              (fun i =>
                 table_name <- as_string (at_index tables i) ;;
                 get_column_details table_name))
    report.

(** [explore_if_unknown] (lines 335-341) *)
Definition explore_if_unknown (table_name : string) : M unit :=
  entry <- config_get ["tables_details"; table_name] ;;
  match entry with
  | Some _ => ret tt
  | None =>
    tables <- config_get ["tables"] ;;
    pushed <- lift_yaml (Yaml.push_back (Yaml.Scalar table_name) tables) ;;
    config_assign ["tables"] pushed ;;;
    tables <- config_get ["tables"] ;;
    explore_tables tables
  end.

(** [drop_yaml]: the tree as it stands is written to [output_file].
    [fout.open] is not checked: on a path that cannot be opened the
    stream has its fail bit set, the insertions and [close] do nothing,
    and nothing is thrown since the stream's exception mask is empty. *)
Definition drop_yaml (output_file : string) : M unit :=
  try_catch
    (fun w =>
       if can_open E output_file
       then Ret tt (mk_world (db_config_ w) (c_ w) (log w) (cout w) (cerr w)
                             (files w ++ [(output_file, db_config_ w)])%list)
       else Ret tt w)
    report.

(** [db_config_ = YAML::LoadFile(configuration_file)] *)
Definition load_config (configuration_file : string) : M unit :=
  fun w =>
    match LoadFile E configuration_file with
    | inl e => Throw e w
    | inr n => Ret tt (mk_world n (c_ w) (log w) (cout w) (cerr w) (files w))
    end.

(** [db_config_[key]] in the constructor, where the tree is subscripted
    as a whole.  The non-const [operator[]] of yaml-cpp makes a map of a
    null node and of a sequence before it looks the key up (a sequence
    keeps its elements, under their indices).  To the worker's own reads
    such a node and the map of its children are the same, see
    [Yaml.children]; the difference shows when the tree is written, which
    only the constructor does. *)
Definition root_get (key : string) : M (option Yaml.node) :=
  fun w =>
    match Yaml.children (Some (db_config_ w)) with
    | None => Throw (yaml_error Yaml.BadSubscript) w
    | Some m => Ret (Yaml.assoc key m)
                    (mk_world (Yaml.Map m) (c_ w) (log w) (cout w) (cerr w) (files w))
    end.

(** The constructor (lines 15-26). *)
Definition DatabaseWorker (configuration_file output_file : string) : M unit :=
  load_config configuration_file ;;;
  connection_config <- root_get "connection" ;;
  connect connection_config ;;;
  tables <- root_get "tables" ;;
  explore_tables tables ;;;
  if negb (String.eqb output_file "") then drop_yaml output_file else ret tt.

(** The members before the constructor body runs, and empty streams. *)
Definition initial : world := mk_world Yaml.Null None [] "" "" [].

(** ** Statements (lines 28-55, 112-186, 314-333) *)

(** The text [select] puts together (lines 34-47). *)
Definition select_statement (table_name : string) (fields : list string)
           (condition : string) (limit : Z) : string :=
  let ss := OStream.empty in
  let ss :=
    match fields with
    | [] => ss << "SELECT *"
    | field0 :: others =>
      fold_left (fun ss field => ss << ", " << field) others (ss << "SELECT " << field0)
    end in
  let ss := ss << " FROM " << table_name in
  let ss := if String.eqb condition "" then ss else ss << " WHERE " << condition in
  let ss := ss << " LIMIT " << stream_out limit in
  OStream.str ss.

(** [select] *)
Definition select (table_name : string) (fields : list string)
           (condition : string) (limit : Z) : M Pq.result :=
  explore_if_unknown table_name ;;;
  r <- execute (select_statement table_name fields condition limit) ;;
  ret r.

(** [select_all_columns]: no fields, the default limit of [select]. *)
Definition select_all_columns (table_name condition : string) : M Pq.result :=
  select table_name [] condition 100.

(** The body of the loop of [insert_statement_first_part] (lines
    321-327), for the item [it].  The key is compared first; the type is
    only looked at for the primary-key column itself. *)
Definition first_part_column (table_name : string) (ss : OStream.t)
           (it : option (string * Yaml.node)) : M OStream.t :=
  column <- first_as_string it ;;
  key_node <- config_get ["tables_details"; table_name; "primary_key"] ;;
  primary_key <- as_string key_node ;;
  include <- (if negb (String.eqb column primary_key) then ret true
              else typname <- second_as_string it ;;
                   ret (Str.contains "timestamp" typname)) ;;
  if include : bool
  then column <- first_as_string it ;; ret (ss << column << ", ")
  else ret ss.

(** [insert_statement_first_part] *)
Definition insert_statement_first_part (table_name : string) : M string :=
  let ss := OStream.empty << "INSERT INTO " << table_name << "(" in
  columns <- config_get ["tables_details"; table_name; "columns"] ;;
  ss <- fold_m (Yaml.items columns) (first_part_column table_name) ss ;;
  let ss := OStream.seekp_cur (-2) ss in
  let ss := ss << ") VALUES(" in
  ret (OStream.str ss).

(** The tail every positional [insert] appends to the first part. *)
Definition close_values (ss : OStream.t) : string :=
  let ss := OStream.seekp_cur (-2) ss in
  let ss := ss << ")" in
  OStream.str ss.

(** [insert(table_name, values...)] *)
Definition insert (table_name : string) (values : list streamed) : M unit :=
  explore_if_unknown table_name ;;;
  first_part <- insert_statement_first_part table_name ;;
  let ss := OStream.empty << first_part in
  let ss := fold_left (fun ss value => ss << render value << ", ") values ss in
  _ <- execute (close_values ss) ;;
  ret tt.

(** [insert(table_name, vector)] *)
Definition insert_vector {T : Type} `{Streamable T}
           (table_name : string) (vector : list T) : M unit :=
  explore_if_unknown table_name ;;;
  first_part <- insert_statement_first_part table_name ;;
  let ss := OStream.empty << first_part in
  let ss := fold_left (fun ss element => ss << stream_out element << ", ") vector ss in
  _ <- execute (close_values ss) ;;
  ret tt.

(** [insert(table_name, tp, vector)] *)
Definition insert_timed {T : Type} `{Streamable T}
           (table_name : string) (tp : time_point_t E) (vector : list T) : M unit :=
  explore_if_unknown table_name ;;;
  first_part <- insert_statement_first_part table_name ;;
  let ss := OStream.empty << first_part in
  let ss := ss << "'" << ISO_8601 E tp << "', " in
  let ss := fold_left (fun ss element => ss << stream_out element << ", ") vector ss in
  _ <- execute (close_values ss) ;;
  ret tt.

(** The text [insert_from_maps] puts together (lines 132-145), from the
    pairs of [utl::merge_maps(maps...)] in the order of the [std::map]. *)
Definition insert_from_maps_statement (table_name : string)
           (merged_maps : list (string * string)) : string :=
  let columns := OStream.empty << "(" in
  let values := OStream.empty << "(" in
  let '(columns, values) :=
    fold_left (fun '(columns, values) '(key, val) =>
                 (columns << key << ", ", values << val << ", "))
              merged_maps (columns, values) in
  let columns := OStream.seekp_cur (-2) columns in
  let columns := columns << ")" in
  let values := OStream.seekp_cur (-2) values in
  let values := values << ")" in
  let ss := OStream.empty << "INSERT INTO " << table_name << " " << OStream.str columns
                          << "VALUES " << OStream.str values in
  OStream.str ss.

(** [insert_from_maps] *)
Definition insert_from_maps (table_name : string)
           (merged_maps : list (string * string)) : M unit :=
  let statement := insert_from_maps_statement table_name merged_maps in
  explore_if_unknown table_name ;;;
  _ <- execute statement ;;
  ret tt.

(** [clear] *)
Definition clear (table_name : string) : M unit :=
  let ss := OStream.empty << "TRUNCATE " << table_name << " CASCADE" in
  _ <- execute (OStream.str ss) ;;
  ret tt.

(** ** Printing (lines 57-109) *)

(** The width of a field of type [column_type] under the header
    [column_name] (lines 85-91). *)
Definition field_width_of (column_name column_type : string) : M Z :=
  field_length_mapping <- config_get ["field_length_mapping"] ;;
  configured <- lift_yaml (Yaml.subscript field_length_mapping column_type) ;;
  field_width <- match configured with
                 | Some _ => as_int configured
                 | None => ret 10%Z
                 end ;;
  ret (Z.max (to_int (Z.of_nat (length column_name))) field_width).

(** The body of the loop of [print_row] (lines 82-96), for one field. *)
Definition print_field (header : bool) (streams : OStream.t * OStream.t)
           (field : Pq.field) : M (OStream.t * OStream.t) :=
  let '(ss, headerss) := streams in
  let fill := " "%char in
  let separator := " |" in
  let column_name := Pq.name field in
  column_type <- get_typname_from_oid (Pq.type field) ;;
  field_width <- field_width_of column_name column_type ;;
  let ss := OStream.write_left field_width fill
              (truncate E (Pq.c_str field) field_width) ss << separator in
  let headerss :=
    if header
    then OStream.write_left field_width fill
           (truncate E column_name field_width) headerss << separator
    else headerss in
  ret (ss, headerss).

(** [print_row] *)
Definition print_row (row : Pq.row) (header : bool) : M string :=
  ' (ss, headerss) <- fold_m row (print_field header) (OStream.empty, OStream.empty) ;;
  if header
  then ret (OStream.str (headerss << Str.nl << OStream.str ss))
  else ret (OStream.str ss).

(** The body of the loop of [print] (lines 64-68), for one row. *)
Definition print_line (r : Pq.result) (state : OStream.t * bool)
           (vals : list (option string)) : M (OStream.t * bool) :=
  let '(ss, header_added) := state in
  let row := Pq.row_of r vals in
  line <- print_row row (negb header_added) ;;
  ret (ss << line << Str.nl, true).

(** [print(pqxx::result)] *)
Definition print (r : Pq.result) : M unit :=
  ' (ss, header_added) <- fold_m (Pq.rows r) (print_line r) (OStream.empty, false) ;;
  cout_write (OStream.str ss).

(** [print(table_name)] *)
Definition print_table (table_name : string) : M unit :=
  r <- select_all_columns table_name "" ;;
  print r.

End Worker.

Arguments exec1 [E] d statement.

(* ===================================================================== *)
(** * A small server to run the worker against *)
(* ===================================================================== *)

Module Toy.

(** printf-style substitution of [%s] and [%d]. *)
Fixpoint format (fmt : string) (args : list fmt_arg) : string :=
  match fmt with
  | String "%" (String "s" rest) =>
    match args with
    | arg_str s :: args' => s ++ format rest args'
    | _ => format rest args
    end
  | String "%" (String "d" rest) =>
    match args with
    | arg_int z :: args' => Str.of_Z z ++ format rest args'
    | _ => format rest args
    end
  | String c rest => String c (format rest args)
  | EmptyString => ""
  end.

Definition typname_query (oid : Z) : string :=
  format "SELECT t.typname FROM pg_type t WHERE t.oid = %d" [arg_int oid].

Definition one_value (column : string) (oid : Z) (v : string) : Pq.result :=
  Pq.mk_result [Pq.mk_column column oid] [[Some v]].

(** A server with one table, [public.t(id integer primary key, name text,
    created_at timestamp)], holding two rows. *)
Definition t_columns : list Pq.column :=
  [Pq.mk_column "id" 23; Pq.mk_column "name" 25; Pq.mk_column "created_at" 1114].

Definition server (statement : string) : exn + Pq.result :=
  if String.eqb statement "SELECT * FROM public.t LIMIT 0"
  then inr (Pq.mk_result t_columns [])
  else if String.eqb statement "SELECT * FROM public.t LIMIT 100"
  then inr (Pq.mk_result t_columns
              [[Some "1"; Some "ann"; Some "2024-01-01 00:00:00"];
               [Some "2"; None; Some "2024-01-02 00:00:00"]])
  else if String.eqb statement (typname_query 23) then inr (one_value "typname" 19 "int4")
  else if String.eqb statement (typname_query 25) then inr (one_value "typname" 19 "text")
  else if String.eqb statement (typname_query 1114) then inr (one_value "typname" 19 "timestamp")
  else if String.eqb statement (format (primary_key_format) [arg_str "public"; arg_str "t"])
  then inr (Pq.mk_result [Pq.mk_column "column_name" 19; Pq.mk_column "data_type" 19]
                         [[Some "id"; Some "integer"]])
  else if String.prefix "SELECT t.typname FROM pg_type t " statement
  then inr (Pq.mk_result [Pq.mk_column "typname" 19] [])
  else if String.prefix "TRUNCATE " statement then inr Pq.default_result
  else if String.prefix "INSERT " statement then inr Pq.default_result
  else inl (sql_error "relation does not exist").

Definition message (e : exn) : string :=
  match e with
  | yaml_error Yaml.BadSubscript => "operator[] call on a scalar"
  | yaml_error Yaml.BadConversion => "bad conversion"
  | yaml_error Yaml.InvalidNode => "invalid node"
  | yaml_error Yaml.BadPushback => "appending to a non-sequence"
  | load_error m => m
  | sql_error m => m
  | unexpected_rows n => "Expected 1 row(s) of data, got " ++ Str.of_nat n
  | conversion_error => "Attempt to convert null to string"
  end.

(** The configuration file [pgi.yaml]. *)
Definition config : Yaml.node :=
  Yaml.Map [("connection",
             Yaml.Map [("dbname", Yaml.Scalar "pgi"); ("user", Yaml.Scalar "me")]);
            ("tables", Yaml.Sequence [Yaml.Scalar "public.t"]);
            ("field_length_mapping",
             Yaml.Map [("int4", Yaml.Scalar "4"); ("timestamp", Yaml.Scalar "19")])].

Definition decode (s : string) : option Z :=
  if String.eqb s "4" then Some 4%Z
  else if String.eqb s "19" then Some 19%Z
  else None.

(** The state of the session is the number of transactions begun. *)
Definition env : environment :=
  {| DB := nat;
     pq_connect := fun _ => inr 0;
     pq_begin := fun d => (S d, None);
     pq_exec := fun d statement => (d, server statement);
     pq_commit := fun d => (d, None);
     pq_abort := fun d => d;
     what := message;
     LoadFile := fun file => if String.eqb file "pgi.yaml" then inr config
                             else inl (load_error "bad file");
     can_open := fun file => negb (String.prefix "/nonexistent_dir/" file);
     decode_int := decode;
     null_as_string := None;
     string_format := format;
     truncate := fun s w => Str.take (Z.to_nat w) s;
     time_point_t := string;
     ISO_8601 := fun tp => tp |}.

End Toy.

(* ===================================================================== *)
(** * Facts about strings, streams and trees *)
(* ===================================================================== *)

Module StrFacts.
Import Str.

Lemma append_nil_r (s : string) : s ++ "" = s.
Proof. induction s as [|c s IH]; simpl; [reflexivity | now rewrite IH]. Qed.

Lemma append_assoc (a b c : string) : (a ++ b) ++ c = a ++ (b ++ c).
Proof. induction a as [|x a IH]; simpl; [reflexivity | now rewrite IH]. Qed.

Lemma length_append (a b : string) : length (a ++ b) = length a + length b.
Proof. induction a as [|x a IH]; simpl; [reflexivity | now rewrite IH]. Qed.

Lemma take_all (s : string) : take (length s) s = s.
Proof. induction s as [|c s IH]; simpl; [reflexivity | now rewrite IH]. Qed.

Lemma take_app (a b : string) : take (length a) (a ++ b) = a.
Proof. induction a as [|x a IH]; simpl; [now destruct b | now rewrite IH]. Qed.

Lemma take_app_le (n : nat) (a b : string) :
  n <= length a -> take n (a ++ b) = take n a.
Proof.
  revert a; induction n as [|n IH]; intros a Hn; [reflexivity|].
  destruct a as [|x a]; simpl in *; [lia|].
  rewrite IH by lia. reflexivity.
Qed.

Lemma drop_all (s : string) : drop (length s) s = "".
Proof. induction s as [|c s IH]; simpl; [reflexivity | exact IH]. Qed.

Lemma drop_ge (n : nat) (s : string) : length s <= n -> drop n s = "".
Proof.
  revert s; induction n as [|n IH]; intros s Hn.
  - destruct s; simpl in *; [reflexivity | lia].
  - destruct s as [|c s]; simpl in *; [reflexivity | apply IH; lia].
Qed.

Lemma drop_app (a b : string) : drop (length a) (a ++ b) = b.
Proof. induction a as [|x a IH]; simpl; [reflexivity | exact IH]. Qed.

Lemma length_take (n : nat) (s : string) : length (take n s) = Nat.min n (length s).
Proof.
  revert s; induction n as [|n IH]; intros s; [reflexivity|].
  destruct s as [|c s]; simpl; [reflexivity | now rewrite IH].
Qed.

Lemma length_fill (n : nat) (c : ascii) : length (fill n c) = n.
Proof. induction n as [|n IH]; simpl; [reflexivity | now rewrite IH]. Qed.

End StrFacts.

Module OStreamFacts.
Import OStream.

Lemma empty_holding : empty = holding "".
Proof. reflexivity. Qed.

Lemma write_holding (s x : string) : write x (holding s) = holding (s ++ x).
Proof.
  unfold write, holding; simpl.
  rewrite StrFacts.take_all, StrFacts.drop_ge by lia.
  now rewrite StrFacts.append_nil_r, StrFacts.length_append.
Qed.

Lemma seekp_back_holding (s tail : string) :
  seekp_cur (- Z.of_nat (length tail)) (holding (s ++ tail))
  = mk (s ++ tail) (length s) false.
Proof.
  unfold seekp_cur, holding; simpl.
  rewrite StrFacts.length_append.
  replace (Z.of_nat (length s + length tail) + - Z.of_nat (length tail))%Z
    with (Z.of_nat (length s)) by lia.
  replace ((0 <=? Z.of_nat (length s))%Z
           && (Z.of_nat (length s) <=? Z.of_nat (length s + length tail))%Z)
    with true by (symmetry; apply andb_true_iff; split; apply Z.leb_le; lia).
  now rewrite Nat2Z.id.
Qed.

(** Stepping back over [tail] and writing [x] replaces [tail] by [x]
    when [x] is at least as long. *)
Lemma overwrite_tail (s tail x : string) :
  length tail <= length x ->
  write x (seekp_cur (- Z.of_nat (length tail)) (holding (s ++ tail))) = holding (s ++ x).
Proof.
  intros Hlen. rewrite seekp_back_holding.
  unfold write, holding; simpl.
  rewrite StrFacts.take_app, StrFacts.drop_ge by (rewrite StrFacts.length_append; lia).
  now rewrite StrFacts.append_nil_r, StrFacts.length_append.
Qed.

(** When [x] is shorter, the rest of [tail] stays in the buffer behind
    the put position. *)
Lemma overwrite_tail_short (s tail x : string) :
  str (write x (seekp_cur (- Z.of_nat (length tail)) (holding (s ++ tail))))
  = s ++ x ++ Str.drop (length x) tail.
Proof.
  rewrite seekp_back_holding.
  unfold write, str; simpl. rewrite StrFacts.take_app.
  f_equal. f_equal.
  induction s as [|c s IH]; simpl; [reflexivity | exact IH].
Qed.

(** A run of writes, one per element of a list. *)
Lemma fold_write_holding (A : Type) (f : A -> string) (l : list A) (s : string) :
  fold_left (fun ss a => write (f a) ss) l (holding s)
  = holding (s ++ Str.concat_map f l).
Proof.
  revert s; induction l as [|a l IH]; intros s; simpl.
  - now rewrite StrFacts.append_nil_r.
  - now rewrite write_holding, IH, StrFacts.append_assoc.
Qed.

Lemma fold_write2_holding (A : Type) (f g : A -> string) (l : list A) (s : string) :
  fold_left (fun ss a => write (g a) (write (f a) ss)) l (holding s)
  = holding (s ++ Str.concat_map (fun a => f a ++ g a) l).
Proof.
  rewrite <- fold_write_holding.
  revert s; induction l as [|a l IH]; intros s; simpl; [reflexivity|].
  now rewrite !write_holding, StrFacts.append_assoc, IH.
Qed.

End OStreamFacts.

Module YamlFacts.
Import Yaml.

Lemma assoc_assoc_set_eq (k : string) (v : node) (m : pairs) :
  assoc k (assoc_set k v m) = Some v.
Proof.
  induction m as [|[k' v'] m IH]; simpl.
  - now rewrite String.eqb_refl.
  - destruct (String.eqb k k') eqn:E; simpl; rewrite ?String.eqb_refl, ?E; auto.
Qed.

Lemma assoc_assoc_set_ne (k k' : string) (v : node) (m : pairs) :
  k <> k' -> assoc k' (assoc_set k v m) = assoc k' m.
Proof.
  intros Hne. induction m as [|[k0 v0] m IH]; simpl.
  - destruct (String.eqb k' k) eqn:E; [apply String.eqb_eq in E; congruence | reflexivity].
  - destruct (String.eqb k k0) eqn:E; simpl.
    + apply String.eqb_eq in E; subst k0.
      destruct (String.eqb k' k) eqn:E'; [apply String.eqb_eq in E'; congruence | reflexivity].
    + now rewrite IH.
Qed.

End YamlFacts.

Module PqFacts.
Import Pq.

Lemma statements_app (l1 l2 : list event) :
  statements (l1 ++ l2)%list = (statements l1 ++ statements l2)%list.
Proof.
  induction l1 as [|e l1 IH]; simpl; [reflexivity|].
  destruct e; simpl; now rewrite ?IH.
Qed.

End PqFacts.

Lemma to_int_small (z : Z) : (0 <= z < 2 ^ 31)%Z -> to_int z = z.
Proof.
  intros H. unfold to_int. rewrite Z.mod_small; lia.
Qed.


(* ===================================================================== *)
(** * Laws of the outcome monad *)
(* ===================================================================== *)

Section Laws.

Variable E : environment.

Lemma bind_ret_r (A : Type) (m : M E A) (w : world E) : bind m (fun a => ret a) w = m w.
Proof. unfold bind, ret. now destruct (m w). Qed.

Lemma bind_ret_l (A B : Type) (a : A) (k : A -> M E B) (w : world E) :
  bind (ret a) k w = k a w.
Proof. reflexivity. Qed.

Lemma bind_assoc (A B C : Type) (m : M E A) (k : A -> M E B) (h : B -> M E C) (w : world E) :
  bind (bind m k) h w = bind m (fun a => bind (k a) h) w.
Proof. unfold bind. now destruct (m w). Qed.

Lemma bind_ext (A B : Type) (m : M E A) (k k' : A -> M E B) (w : world E) :
  (forall a w', k a w' = k' a w') -> bind m k w = bind m k' w.
Proof. intros H. unfold bind. destruct (m w); auto. Qed.

End Laws.

(* ===================================================================== *)
(** * SELECT and TRUNCATE *)
(* ===================================================================== *)

Lemma concat_comma (field0 : string) (others : list string) :
  field0 ++ Str.concat_map (fun f => ", " ++ f) others
  = String.concat ", " (field0 :: others).
Proof.
  revert field0; induction others as [|f others IH]; intros field0.
  - apply StrFacts.append_nil_r.
  - change (String.concat ", " (field0 :: f :: others))
      with (field0 ++ ", " ++ String.concat ", " (f :: others)).
    rewrite <- IH. reflexivity.
Qed.

Lemma select_statement_text (t : string) (fields : list string) (condition : string) (limit : Z) :
  select_statement t fields condition limit
  = "SELECT " ++ (match fields with [] => "*" | _ => String.concat ", " fields end)
    ++ " FROM " ++ t
    ++ (if String.eqb condition "" then "" else " WHERE " ++ condition)
    ++ " LIMIT " ++ Str.of_Z limit.
Proof.
  unfold select_statement. rewrite OStreamFacts.empty_holding.
  assert (Hhead : forall ss body,
             ss = OStream.holding ("SELECT " ++ body) ->
             OStream.str
               (OStream.write (stream_out limit)
                  (OStream.write " LIMIT "
                     (if String.eqb condition "" then OStream.write t (OStream.write " FROM " ss)
                      else OStream.write condition
                             (OStream.write " WHERE " (OStream.write t (OStream.write " FROM " ss))))))
             = "SELECT " ++ body ++ " FROM " ++ t
               ++ (if String.eqb condition "" then "" else " WHERE " ++ condition)
               ++ " LIMIT " ++ Str.of_Z limit).
  { intros ss body ->. destruct (String.eqb condition "");
      rewrite !OStreamFacts.write_holding; unfold OStream.str, OStream.holding; simpl;
      rewrite ?StrFacts.append_assoc; simpl; rewrite ?StrFacts.append_assoc; reflexivity. }
  destruct fields as [|field0 others].
  - apply Hhead. now rewrite OStreamFacts.write_holding.
  - apply Hhead. rewrite !OStreamFacts.write_holding.
    rewrite (OStreamFacts.fold_write2_holding (fun _ => ", ") (fun f => f)).
    rewrite <- concat_comma. reflexivity.
Qed.

(* ===================================================================== *)
(** * Execution *)
(* ===================================================================== *)

(** The exception the transaction around [statement] raises from the
    state [d], if any of its three calls raises one. *)
Definition raised (E : environment) (A : Type) (run : DB E -> string -> DB E * (exn + A))
           (d : DB E) (statement : string) : option exn :=
  let '(d1, began) := pq_begin E d in
  match began with
  | Some e => Some e
  | None =>
    let '(d2, res) := run d1 statement in
    match res with
    | inl e => Some e
    | inr _ => snd (pq_commit E d2)
    end
  end.

(** The same, leaving the commit out. *)
Definition raised_before_commit (E : environment) (A : Type)
           (run : DB E -> string -> DB E * (exn + A))
           (d : DB E) (statement : string) : option exn :=
  let '(d1, began) := pq_begin E d in
  match began with
  | Some e => Some e
  | None =>
    match snd (run d1 statement) with
    | inl e => Some e
    | inr _ => None
    end
  end.

Arguments raised [E A] run d statement.
Arguments raised_before_commit [E A] run d statement.

(** The sentence "whatever is raised, a default-constructed result is
    returned", for [execute]. *)
Definition failure_returns_default (E : environment) : Prop :=
  forall (statement : string) (w : world E) (d : DB E) (e : exn),
    c_ w = Some d ->
    raised (pq_exec E) d statement = Some e ->
    exists w', execute statement w = Ret Pq.default_result w'
               /\ cerr w' = cerr w ++ what E e ++ Str.nl.

(** A server whose commits fail. *)
Module Flaky.

Definition env : environment :=
  {| DB := nat;
     pq_connect := fun _ => inr 0;
     pq_begin := fun d => (S d, None);
     pq_exec := fun d statement => (d, Toy.server statement);
     pq_commit := fun d => (d, Some (sql_error "could not commit"));
     pq_abort := fun d => d;
     what := Toy.message;
     LoadFile := fun _ => inr Toy.config;
     can_open := fun _ => true;
     decode_int := Toy.decode;
     null_as_string := None;
     string_format := Toy.format;
     truncate := fun s w => Str.take (Z.to_nat w) s;
     time_point_t := string;
     ISO_8601 := fun tp => tp |}.

(** A worker that holds a connection to it. *)
Definition connected : world env :=
  @mk_world env Toy.config (Some 0) [] "" "" [].

End Flaky.

Section Execution.

Variable E : environment.

Lemma caught_logged (A : Type) (e : exn) (r : A) (w : world E) :
  caught e r w = Ret r (logged (what E e) w).
Proof. reflexivity. Qed.

(** What [in_work] does, call by call. *)
Lemma in_work_cases (A : Type) (run : DB E -> string -> DB E * (exn + A)) (r0 : A)
      (statement : string) (w : world E) (d : DB E) :
  c_ w = Some d ->
  (forall d1 e,
      pq_begin E d = (d1, Some e) ->
      in_work run r0 statement w
      = Ret r0 (logged (what E e) (with_connection d1 [Pq.Begin] w)))
  /\ (forall d1 d2 e,
         pq_begin E d = (d1, None) -> run d1 statement = (d2, inl e) ->
         in_work run r0 statement w
         = Ret r0 (logged (what E e)
                          (with_connection (pq_abort E d2)
                                           [Pq.Begin; Pq.Exec statement; Pq.Abort] w)))
  /\ (forall d1 d2 d3 r e,
         pq_begin E d = (d1, None) -> run d1 statement = (d2, inr r) ->
         pq_commit E d2 = (d3, Some e) ->
         in_work run r0 statement w
         = Ret r (logged (what E e)
                         (with_connection d3 [Pq.Begin; Pq.Exec statement; Pq.Commit] w)))
  /\ (forall d1 d2 d3 r,
         pq_begin E d = (d1, None) -> run d1 statement = (d2, inr r) ->
         pq_commit E d2 = (d3, None) ->
         in_work run r0 statement w
         = Ret r (with_connection d3 [Pq.Begin; Pq.Exec statement; Pq.Commit] w)).
Proof.
  intros Hc. unfold in_work. rewrite Hc.
  repeat split; intros.
  - rewrite H. apply caught_logged.
  - rewrite H, H0. apply caught_logged.
  - rewrite H, H0, H1. apply caught_logged.
  - now rewrite H, H0, H1.
Qed.

(** [in_work] never throws: with a connection it returns. *)
Lemma in_work_returns (A : Type) (run : DB E -> string -> DB E * (exn + A)) (r0 : A)
      (statement : string) (w : world E) (d : DB E) :
  c_ w = Some d ->
  exists r w', in_work run r0 statement w = Ret r w'
               /\ db_config_ w' = db_config_ w /\ cout w' = cout w /\ files w' = files w
               /\ (exists d', c_ w' = Some d')
               /\ (r = r0 \/ exists d1 d2, pq_begin E d = (d1, None)
                                           /\ fst (run d1 statement) = d2
                                           /\ snd (run d1 statement) = inr r).
Proof.
  intros Hc. unfold in_work. rewrite Hc.
  destruct (pq_begin E d) as [d1 [e|]] eqn:Hb.
  - rewrite caught_logged. do 2 eexists. repeat split; simpl; eauto.
  - destruct (run d1 statement) as [d2 [e|r]] eqn:Hr.
    + rewrite caught_logged. do 2 eexists. repeat split; simpl; eauto.
    + destruct (pq_commit E d2) as [d3 [e|]] eqn:Hk.
      * rewrite caught_logged. do 2 eexists. repeat split; simpl; eauto.
        right. exists d1, d2. rewrite Hr. auto.
      * do 2 eexists. repeat split; simpl; eauto.
        right. exists d1, d2. rewrite Hr. auto.
Qed.

End Execution.

(** What [execute] ([run] is [w.exec], [r0] a default-constructed result)
    and [execute1] owe their caller, on a worker whose connection is in
    the state [d]; [o] is the outcome of the call. *)
Definition work_contract (E : environment) (A : Type)
           (run : DB E -> string -> DB E * (exn + A)) (r0 : A)
           (statement : string) (w : world E) (d : DB E) (o : outcome E A) : Prop :=
  (* the transaction could not be opened *)
  (forall d1 e,
      pq_begin E d = (d1, Some e) ->
      o = Ret r0 (logged (what E e) (with_connection d1 [Pq.Begin] w)))
  (* the statement failed *)
  /\ (forall d1 d2 e,
         pq_begin E d = (d1, None) -> run d1 statement = (d2, inl e) ->
         o = Ret r0 (logged (what E e)
                            (with_connection (pq_abort E d2)
                                             [Pq.Begin; Pq.Exec statement; Pq.Abort] w)))
  (* the commit failed: the result of the statement is kept *)
  /\ (forall d1 d2 d3 r e,
         pq_begin E d = (d1, None) -> run d1 statement = (d2, inr r) ->
         pq_commit E d2 = (d3, Some e) ->
         o = Ret r (logged (what E e)
                           (with_connection d3 [Pq.Begin; Pq.Exec statement; Pq.Commit] w)))
  (* success *)
  /\ (forall d1 d2 d3 r,
         pq_begin E d = (d1, None) -> run d1 statement = (d2, inr r) ->
         pq_commit E d2 = (d3, None) ->
         o = Ret r (with_connection d3 [Pq.Begin; Pq.Exec statement; Pq.Commit] w)).

Arguments work_contract [E A] run r0 statement w d o.

(** C4, as the code has it.  On a worker that holds a connection,
    [execute] and [execute1] open a transaction, run the one statement in
    it and commit.  Whatever one of the three calls raises is caught and
    its message written to standard error; nothing is thrown on.  When the
    transaction could not be opened or the statement failed, the
    default-constructed result is returned, which has no rows, like the
    result of a query that found none.  When only the commit failed, the
    result the statement produced is returned. *)
Theorem execute_contract (E : environment) (statement : string) (w : world E) (d : DB E) :
  c_ w = Some d ->
  work_contract (pq_exec E) Pq.default_result statement w d (execute statement w)
  /\ work_contract (@exec1 E) Pq.default_row statement w d (execute1 statement w)
  /\ Pq.size Pq.default_result = 0
  /\ (forall e w', execute statement w <> Throw e w')
  /\ (forall e w', execute1 statement w <> Throw e w').
Proof.
  intros Hc.
  split; [exact (in_work_cases (pq_exec E) Pq.default_result statement w Hc)|].
  split; [exact (in_work_cases (@exec1 E) Pq.default_row statement w Hc)|].
  split; [reflexivity|].
  split; intros e w' Habs.
  - destruct (in_work_returns (pq_exec E) Pq.default_result statement w Hc)
      as (r & w1 & Heq & _).
    unfold execute in Habs. congruence.
  - destruct (in_work_returns (@exec1 E) Pq.default_row statement w Hc)
      as (r & w1 & Heq & _).
    unfold execute1 in Habs. congruence.
Qed.

Lemma execute_contract_witness :
  c_ Flaky.connected = Some (0 : DB Flaky.env)
  /\ execute "SELECT * FROM public.t LIMIT 100" Flaky.connected
     = Ret (Pq.mk_result Toy.t_columns
              [[Some "1"; Some "ann"; Some "2024-01-01 00:00:00"];
               [Some "2"; None; Some "2024-01-02 00:00:00"]])
           (logged "could not commit"
                   (@with_connection Flaky.env 1
                      [Pq.Begin; Pq.Exec "SELECT * FROM public.t LIMIT 100"; Pq.Commit]
                      Flaky.connected)).
Proof.
  split; [reflexivity|].
  destruct (@execute_contract Flaky.env "SELECT * FROM public.t LIMIT 100"
                              Flaky.connected (0 : DB Flaky.env) eq_refl)
    as [(_ & _ & Hcommit & _) _].
  exact (Hcommit (1 : DB Flaky.env) (1 : DB Flaky.env) (1 : DB Flaky.env) _ _ eq_refl eq_refl eq_refl).
Defined.

(** C4, as stated, fails when the commit raises: the rows the statement
    produced are returned, not a default-constructed result. *)
Lemma execute_commit_failure_keeps_result : ~ failure_returns_default Flaky.env.
Proof.
  intros H.
  destruct (H "SELECT * FROM public.t LIMIT 100" Flaky.connected (0 : DB Flaky.env)
              (sql_error "could not commit") eq_refl eq_refl) as (w' & Heq & _).
  vm_compute in Heq. discriminate Heq.
Qed.

(** A worker that holds a connection to the small server, with the
    configuration as loaded. *)
Definition toy_connected : world Toy.env :=
  @mk_world Toy.env Toy.config (Some 0) [] "" "" [].

(** C10. [get_typname_from_oid] reads element 0 of whatever [execute1]
    returns.  When the transaction cannot be opened or [exec1] raises (the
    statement fails, or it does not give exactly one row, as for an OID
    the catalog does not have), [execute1] returns the default-constructed
    row, which has no element 0: the access is out of bounds. *)
Theorem get_typname_reads_empty_row (E : environment) (oid : Z) (w : world E)
        (d : DB E) (e : exn) :
  c_ w = Some d ->
  raised_before_commit (@exec1 E) d (typname_statement E oid) = Some e ->
  (exists w', execute1 (typname_statement E oid) w = Ret Pq.default_row w'
              /\ cerr w' = cerr w ++ what E e ++ Str.nl)
  /\ row_front (E := E) Pq.default_row w = Undefined RowSubscript
  /\ get_typname_from_oid oid w = Undefined RowSubscript.
Proof.
  intros Hc Hr.
  destruct (in_work_cases (@exec1 E) Pq.default_row (typname_statement E oid) w Hc)
    as (Hbegin & Hexec & _).
  unfold raised_before_commit in Hr.
  destruct (pq_begin E d) as [d1 [e1|]] eqn:Hb.
  - injection Hr as <-.
    split; [eexists; split; [exact (Hbegin _ _ eq_refl) | reflexivity]|].
    split; [reflexivity|].
    unfold get_typname_from_oid, bind, execute1. now rewrite (Hbegin _ _ eq_refl).
  - destruct (exec1 d1 (typname_statement E oid)) as [d2 [e2|r]] eqn:Hx;
      simpl in Hr; [|discriminate].
    injection Hr as <-.
    split; [eexists; split; [exact (Hexec _ _ _ eq_refl Hx) | reflexivity]|].
    split; [reflexivity|].
    unfold get_typname_from_oid, bind, execute1. now rewrite (Hexec _ _ _ eq_refl Hx).
Qed.

Lemma get_typname_reads_empty_row_witness :
  get_typname_from_oid 9999 toy_connected = Undefined RowSubscript.
Proof.
  apply (@get_typname_reads_empty_row Toy.env 9999 toy_connected (0 : DB Toy.env)
                                      (unexpected_rows 0));
    reflexivity.
Defined.

(** What [clear] does on a worker whose connection opens a transaction. *)
Lemma clear_executes (E : environment) (t : string) (w : world E) (d d1 : DB E) :
  c_ w = Some d ->
  pq_begin E d = (d1, None) ->
  clear t w = (execute ("TRUNCATE " ++ t ++ " CASCADE") ;;; ret tt) w
  /\ exists w', clear t w = Ret tt w'
                /\ Pq.statements (log w')
                   = (Pq.statements (log w) ++ [("TRUNCATE " ++ t ++ " CASCADE")%string])%list
                /\ db_config_ w' = db_config_ w.
Proof.
  intros Hc Hb.
  assert (Hs : OStream.str (OStream.write " CASCADE"
                 (OStream.write t (OStream.write "TRUNCATE " OStream.empty)))
               = "TRUNCATE " ++ t ++ " CASCADE").
  { rewrite OStreamFacts.empty_holding, !OStreamFacts.write_holding.
    reflexivity. }
  unfold clear. rewrite Hs. split; [reflexivity|].
  unfold bind, execute, in_work. rewrite Hc, Hb.
  destruct (pq_exec E d1 ("TRUNCATE " ++ t ++ " CASCADE")) as [d2 [e|r]].
  - rewrite caught_logged. eexists. split; [reflexivity|].
    simpl. now rewrite PqFacts.statements_app.
  - destruct (pq_commit E d2) as [d3 [e|]].
    + rewrite caught_logged. eexists. split; [reflexivity|].
      simpl. now rewrite PqFacts.statements_app.
    + eexists. split; [reflexivity|].
      simpl. now rewrite PqFacts.statements_app.
Qed.

(** C8. [clear(t)] executes the statement "TRUNCATE t CASCADE" and no
    other, and leaves the configuration as it was. *)
Theorem clear_truncates (E : environment) (t : string) (w : world E) (d d1 : DB E) :
  c_ w = Some d ->
  pq_begin E d = (d1, None) ->
  clear t w = (execute ("TRUNCATE " ++ t ++ " CASCADE") ;;; ret tt) w
  /\ exists w', clear t w = Ret tt w'
                /\ Pq.statements (log w')
                   = (Pq.statements (log w) ++ [("TRUNCATE " ++ t ++ " CASCADE")%string])%list
                /\ db_config_ w' = db_config_ w.
Proof. exact (@clear_executes E t w d d1). Qed.

Lemma clear_truncates_witness :
  exists w', clear "public.t" toy_connected = Ret tt w'
             /\ Pq.statements (log w') = ["TRUNCATE public.t CASCADE"]
             /\ db_config_ w' = Toy.config.
Proof.
  exact (proj2 (@clear_truncates Toy.env "public.t" toy_connected
                                 (0 : DB Toy.env) (1 : DB Toy.env) eq_refl eq_refl)).
Defined.

(** The text of a SELECT statement as the documentation words it:
    SELECT, the fields separated by ", " or * when there are none, FROM
    and the table, WHERE and the condition when there is one, LIMIT and
    the limit in decimal. *)
Definition select_text (t : string) (fields : list string) (condition : string)
           (limit : Z) : string :=
  "SELECT " ++ (match fields with [] => "*" | _ => String.concat ", " fields end)
            ++ " FROM " ++ t
            ++ (if String.eqb condition "" then "" else " WHERE " ++ condition)
            ++ " LIMIT " ++ Str.of_Z limit.

(** [execute] on a connection that opens a transaction: the statement is
    sent, the tree is left alone, and what the server answers is what
    is returned. *)
Lemma execute_logs (E : environment) (statement : string) (w : world E) (d d1 : DB E) :
  c_ w = Some d ->
  pq_begin E d = (d1, None) ->
  exists r w',
    execute statement w = Ret r w'
    /\ Pq.statements (log w') = (Pq.statements (log w) ++ [statement])%list
    /\ db_config_ w' = db_config_ w
    /\ (forall d2 r0, pq_exec E d1 statement = (d2, inr r0) -> r = r0).
Proof.
  intros Hc Hb. unfold execute, in_work. rewrite Hc, Hb.
  destruct (pq_exec E d1 statement) as [d2 [e|r]].
  - rewrite caught_logged. do 2 eexists. split; [reflexivity|].
    cbn. rewrite PqFacts.statements_app. repeat split. intros d2' r0 [=].
  - destruct (pq_commit E d2) as [d3 [e|]].
    + rewrite caught_logged. do 2 eexists. split; [reflexivity|].
      cbn. rewrite PqFacts.statements_app. repeat split. now intros d2' r0 [= _ ->].
    + do 2 eexists. split; [reflexivity|].
      cbn. rewrite PqFacts.statements_app. repeat split. now intros d2' r0 [= _ ->].
Qed.

(** C3. [select] executes the statement SELECT <fields separated by ", ",
    or *> FROM <table> [WHERE <condition>] LIMIT <limit>.  Let [w1] be
    the worker as [explore_if_unknown] leaves it (the worker itself when
    the table has an entry), holding a connection on which a transaction
    opens.  Then [select] returns; the statements sent to the server are
    those sent up to [w1] followed by that one statement and no other;
    the tree is as in [w1]; and what [select] returns is what the server
    answered to the statement.  In particular [select_all_columns(t)]
    without a condition sends "SELECT * FROM t LIMIT 100", and
    [select("t", {"a","b"}, "a > 1", 5)] sends
    "SELECT a, b FROM t WHERE a > 1 LIMIT 5". *)
Theorem select_builds_statement (E : environment) (t : string) (w w1 : world E)
        (d d1 : DB E) :
  explore_if_unknown t w = Ret tt w1 ->
  c_ w1 = Some d ->
  pq_begin E d = (d1, None) ->
  (forall fields condition limit,
      exists r w',
        select t fields condition limit w = Ret r w'
        /\ Pq.statements (log w')
           = (Pq.statements (log w1) ++ [select_text t fields condition limit])%list
        /\ db_config_ w' = db_config_ w1
        /\ (forall d2 r0,
               pq_exec E d1 (select_text t fields condition limit) = (d2, inr r0) ->
               r = r0))
  /\ (exists r w',
         select_all_columns t "" w = Ret r w'
         /\ Pq.statements (log w')
            = (Pq.statements (log w1) ++ [("SELECT * FROM " ++ t ++ " LIMIT 100")%string])%list)
  /\ (t = "t" ->
      exists r w',
        select "t" ["a"; "b"] "a > 1" 5 w = Ret r w'
        /\ Pq.statements (log w')
           = (Pq.statements (log w1) ++ ["SELECT a, b FROM t WHERE a > 1 LIMIT 5"])%list).
Proof.
  intros Hexplore Hc Hb.
  assert (Hsel : forall fields condition limit,
             exists r w',
               select t fields condition limit w = Ret r w'
               /\ Pq.statements (log w')
                  = (Pq.statements (log w1) ++ [select_text t fields condition limit])%list
               /\ db_config_ w' = db_config_ w1
               /\ (forall d2 r0,
                      pq_exec E d1 (select_text t fields condition limit) = (d2, inr r0) ->
                      r = r0)).
  { intros fields condition limit.
    destruct (@execute_logs E (select_text t fields condition limit) w1 d d1 Hc Hb)
      as (r & w' & Hrun & Hlog & Hcfg & Hanswer).
    exists r, w'. split; [|split; [exact Hlog | split; [exact Hcfg | exact Hanswer]]].
    unfold select. unfold bind at 1. rewrite Hexplore.
    rewrite select_statement_text. fold (select_text t fields condition limit).
    unfold bind. now rewrite Hrun. }
  split; [exact Hsel|]. split.
  - destruct (Hsel [] "" 100%Z) as (r & w' & Hrun & Hlog & _).
    exists r, w'. split; [exact Hrun | exact Hlog].
  - intros ->. destruct (Hsel ["a"; "b"] "a > 1" 5%Z) as (r & w' & Hrun & Hlog & _).
    exists r, w'. split; [exact Hrun | exact Hlog].
Qed.

Lemma select_builds_statement_witness :
  (exists r w',
      select "t" ["a"; "b"] "a > 1" 5
             (@mk_world Toy.env
                        (Yaml.Map [("tables_details", Yaml.Map [("t", Yaml.Map [])])])
                        (Some 0) [] "" "" [])
      = Ret r w'
      /\ Pq.statements (log w') = ["SELECT a, b FROM t WHERE a > 1 LIMIT 5"])
  /\ (exists r w',
         select_all_columns "t" ""
                            (@mk_world Toy.env
                                       (Yaml.Map [("tables_details",
                                                   Yaml.Map [("t", Yaml.Map [])])])
                                       (Some 0) [] "" "" [])
         = Ret r w'
         /\ Pq.statements (log w') = ["SELECT * FROM t LIMIT 100"]).
Proof.
  assert (Hexplore :
            explore_if_unknown
              "t" (@mk_world Toy.env
                             (Yaml.Map [("tables_details", Yaml.Map [("t", Yaml.Map [])])])
                             (Some 0) [] "" "" [])
            = Ret tt (@mk_world Toy.env
                                (Yaml.Map [("tables_details", Yaml.Map [("t", Yaml.Map [])])])
                                (Some 0) [] "" "" [])) by reflexivity.
  destruct (@select_builds_statement Toy.env "t" _ _ (0 : DB Toy.env) (1 : DB Toy.env)
                                     Hexplore eq_refl eq_refl) as (_ & Hall & Hone).
  split; [exact (Hone eq_refl) | exact Hall].
Defined.

(** C9. Printing a result without rows writes nothing, no header either:
    the call returns and leaves standard output, and everything else, as
    it was. *)
Theorem print_empty_result (E : environment) (r : Pq.result) (w : world E) :
  Pq.rows r = [] -> print r w = Ret tt w.
Proof.
  intros Hr. unfold print. rewrite Hr. simpl.
  unfold bind, ret, cout_write. simpl.
  destruct w; simpl. now rewrite StrFacts.append_nil_r.
Qed.

Lemma print_empty_result_witness :
  print (Pq.mk_result Toy.t_columns []) toy_connected = Ret tt toy_connected.
Proof.
  apply (@print_empty_result Toy.env (Pq.mk_result Toy.t_columns []) toy_connected).
  reflexivity.
Defined.

(* ===================================================================== *)
(** * INSERT *)
(* ===================================================================== *)

(** A column-to-type mapping as it stands in the tree. *)
Definition typed (cols : list (string * string)) : Yaml.pairs :=
  map (fun c => (fst c, Yaml.Scalar (snd c))) cols.

(** The columns an INSERT names: every column but the primary key, and
    the primary key too when its type name contains "timestamp". *)
Definition kept_columns (primary_key : string) (cols : list (string * string)) : list string :=
  map fst (filter (fun c => negb (String.eqb (fst c) primary_key)
                            || Str.contains "timestamp" (snd c)) cols).

(** The names between the first opening parenthesis of a statement and
    the closing one that follows it, split at the commas. *)
Fixpoint split_names (s : string) (current : string) : list string :=
  match s with
  | EmptyString => [current]
  | String "," rest => current :: split_names rest ""
  | String " " rest =>
    match current with
    | EmptyString => split_names rest ""
    | _ => split_names rest (current ++ " ")
    end
  | String c rest => split_names rest (current ++ String c "")
  end.

Definition column_list (statement : string) : list string :=
  match snd (IStream.split "(" statement) with
  | None => []
  | Some after => split_names (fst (IStream.split ")" after)) ""
  end.

(** The sentence "the column list leaves the primary key out unless its
    type is a timestamp", for [insert_from_maps]. *)
Definition insert_from_maps_excludes_key (E : environment) : Prop :=
  forall (t : string) (merged_maps : list (string * string)) (w w' : world E)
         (primary_key typname : string),
    Yaml.get ["tables_details"; t; "primary_key"] (Some (db_config_ w))
    = inr (Some (Yaml.Scalar primary_key)) ->
    Yaml.get ["tables_details"; t; "columns"; primary_key] (Some (db_config_ w))
    = inr (Some (Yaml.Scalar typname)) ->
    Str.contains "timestamp" typname = false ->
    insert_from_maps t merged_maps w = Ret tt w' ->
    forall statement,
      Pq.statements (log w') = (Pq.statements (log w) ++ [statement])%list ->
      ~ In primary_key (column_list statement).

(** The worker the constructor leaves behind on the small server. *)
Definition toy_discovered : world Toy.env :=
  Eval vm_compute in
    match DatabaseWorker "pgi.yaml" "" (initial Toy.env) with
    | Ret _ w => w
    | _ => initial Toy.env
    end.

(** A worker that knows a table [t(id int4 primary key, name text,
    created_at timestamp)]. *)
Definition t_details : Yaml.node :=
  Yaml.Map [("schema", Yaml.Scalar "t"); ("table", Yaml.Scalar "t");
            ("columns", Yaml.Map (typed [("id", "int4"); ("name", "text");
                                         ("created_at", "timestamp")]));
            ("primary_key", Yaml.Scalar "id")].

Definition t_known : world Toy.env :=
  @mk_world Toy.env
            (Yaml.Map [("tables", Yaml.Sequence [Yaml.Scalar "t"]);
                       ("tables_details", Yaml.Map [("t", t_details)])])
            (Some 0) [] "" "" [].

Section Insert.

Variable E : environment.

Lemma config_get_eq (path : list string) (w : world E) (v : option Yaml.node) :
  Yaml.get path (Some (db_config_ w)) = inr v -> config_get path w = Ret v w.
Proof. intros H. unfold config_get. now rewrite H. Qed.

Variable w : world E.
Variable t primary_key : string.

Hypothesis key_known :
  Yaml.get ["tables_details"; t; "primary_key"] (Some (db_config_ w))
  = inr (Some (Yaml.Scalar primary_key)).

(** One turn of the loop of [insert_statement_first_part]. *)
Lemma first_part_column_step (k ty s : string) :
  first_part_column t (OStream.holding s) (Some (k, Yaml.Scalar ty)) w
  = Ret (OStream.holding (s ++ Str.concat_map (fun c => c ++ ", ")
                                              (kept_columns primary_key [(k, ty)]))) w.
Proof.
  unfold first_part_column, bind. simpl.
  rewrite (config_get_eq _ _ key_known). simpl.
  unfold kept_columns. simpl.
  destruct (String.eqb k primary_key); simpl.
  - destruct (Str.contains "timestamp" ty); simpl; unfold ret.
    + now rewrite !OStreamFacts.write_holding, !StrFacts.append_assoc, StrFacts.append_nil_r.
    + now rewrite StrFacts.append_nil_r.
  - unfold ret. now rewrite !OStreamFacts.write_holding, !StrFacts.append_assoc, StrFacts.append_nil_r.
Qed.

Lemma kept_columns_cons (c : string * string) (cols : list (string * string)) :
  kept_columns primary_key (c :: cols)
  = (kept_columns primary_key [c] ++ kept_columns primary_key cols)%list.
Proof.
  unfold kept_columns. simpl.
  destruct (negb (String.eqb (fst c) primary_key) || Str.contains "timestamp" (snd c));
    reflexivity.
Qed.

Lemma concat_map_app (A : Type) (f : A -> string) (l1 l2 : list A) :
  Str.concat_map f (l1 ++ l2)%list = Str.concat_map f l1 ++ Str.concat_map f l2.
Proof.
  induction l1 as [|a l1 IH]; simpl; [reflexivity|].
  now rewrite IH, StrFacts.append_assoc.
Qed.

(** The whole loop, over a map of columns. *)
Lemma first_part_loop (cols : list (string * string)) (s : string) :
  fold_m (Yaml.items (Some (Yaml.Map (typed cols)))) (first_part_column t)
         (OStream.holding s) w
  = Ret (OStream.holding
           (s ++ Str.concat_map (fun c => c ++ ", ") (kept_columns primary_key cols))) w.
Proof.
  revert s; induction cols as [|[k ty] cols IH]; intros s.
  - simpl. unfold ret. now rewrite StrFacts.append_nil_r.
  - simpl. unfold bind. simpl in IH.
    rewrite first_part_column_step, IH.
    rewrite (kept_columns_cons (k, ty) cols), concat_map_app.
    now rewrite StrFacts.append_assoc.
Qed.

Lemma concat_map_sep (A : Type) (f : A -> string) (sep : string) (l : list A) :
  l <> [] ->
  Str.concat_map (fun a => f a ++ sep) l = String.concat sep (map f l) ++ sep.
Proof.
  induction l as [|a l IH]; intros Hl; [congruence|].
  destruct l as [|b l].
  - simpl. now rewrite StrFacts.append_nil_r.
  - change (Str.concat_map (fun a => f a ++ sep) (a :: b :: l))
      with ((f a ++ sep) ++ Str.concat_map (fun a => f a ++ sep) (b :: l)).
    rewrite IH by discriminate.
    change (String.concat sep (map f (a :: b :: l)))
      with (f a ++ sep ++ String.concat sep (map f (b :: l))).
    now rewrite !StrFacts.append_assoc.
Qed.

Lemma map_id_strings (l : list string) : map (fun c => c) l = l.
Proof. induction l as [|a l IH]; simpl; [reflexivity | now rewrite IH]. Qed.

(** A defined node below a path is below a defined node. *)
Lemma get_defined_prefix (a b c : string) (n : option Yaml.node) (v : Yaml.node) :
  Yaml.get [a; b; c] n = inr (Some v) ->
  exists entry, Yaml.get [a; b] n = inr (Some entry).
Proof.
  simpl. destruct (Yaml.subscript n a) as [e|n1]; [discriminate|].
  destruct (Yaml.subscript n1 b) as [e|[entry|]]; [discriminate| |].
  - intros _. now exists entry.
  - simpl. discriminate.
Qed.

(** [explore_if_unknown] leaves a table alone that has an entry. *)
Lemma explore_known (entry : Yaml.node) :
  Yaml.get ["tables_details"; t] (Some (db_config_ w)) = inr (Some entry) ->
  explore_if_unknown t w = Ret tt w.
Proof.
  intros H. unfold explore_if_unknown, bind. now rewrite (config_get_eq _ _ H).
Qed.

Variable cols : list (string * string).

Hypothesis columns_known :
  Yaml.get ["tables_details"; t; "columns"] (Some (db_config_ w))
  = inr (Some (Yaml.Map (typed cols))).

Hypothesis some_column_kept : kept_columns primary_key cols <> [].

(** The text before the values. *)
Definition insert_prefix : string :=
  "INSERT INTO " ++ t ++ "(" ++ String.concat ", " (kept_columns primary_key cols)
                 ++ ") VALUES(".

Lemma first_part_text : insert_statement_first_part t w = Ret insert_prefix w.
Proof.
  unfold insert_statement_first_part, bind.
  rewrite (config_get_eq _ _ columns_known).
  rewrite OStreamFacts.empty_holding, !OStreamFacts.write_holding.
  rewrite first_part_loop.
  rewrite (concat_map_sep (fun c => c) ", " some_column_kept), map_id_strings.
  rewrite <- StrFacts.append_assoc.
  change (-2)%Z with (- Z.of_nat (length ", "))%Z.
  rewrite OStreamFacts.overwrite_tail by (simpl; lia).
  unfold ret, insert_prefix, OStream.str, OStream.holding; simpl.
  now rewrite !StrFacts.append_assoc.
Qed.

(** What [close_values] makes of a stream that ends in ", ". *)
Lemma close_values_text (s : string) :
  close_values (OStream.holding (s ++ ", ")) = s ++ ") ".
Proof.
  unfold close_values.
  change (-2)%Z with (- Z.of_nat (length ", "))%Z.
  now rewrite OStreamFacts.overwrite_tail_short.
Qed.

Lemma positional_insert (values : string) :
  (explore_if_unknown t ;;;
   first_part <- insert_statement_first_part t ;;
   _ <- execute (close_values (OStream.holding (first_part ++ values ++ ", "))) ;;
   ret tt) w
  = (execute (insert_prefix ++ values ++ ") ") ;;; ret tt) w.
Proof.
  destruct (get_defined_prefix _ _ _ _ key_known) as [entry Hentry].
  unfold bind at 1. rewrite (explore_known Hentry).
  unfold bind at 1. rewrite first_part_text.
  now rewrite <- StrFacts.append_assoc, close_values_text, StrFacts.append_assoc.
Qed.

End Insert.

Lemma kept_columns_spec (primary_key : string) (cols : list (string * string)) (c : string) :
  In c (kept_columns primary_key cols)
  <-> exists ty, In (c, ty) cols
                 /\ (c <> primary_key \/ Str.contains "timestamp" ty = true).
Proof.
  unfold kept_columns. rewrite in_map_iff. split.
  - intros [[k ty] [Hk Hin]]. simpl in Hk. subst k.
    apply filter_In in Hin. destruct Hin as [Hin Hkeep]. simpl in Hkeep.
    exists ty. split; [exact Hin|].
    apply orb_true_iff in Hkeep. destruct Hkeep as [Hne|Hts]; [left | now right].
    apply negb_true_iff, String.eqb_neq in Hne. exact Hne.
  - intros [ty [Hin Hkeep]]. exists (c, ty). split; [reflexivity|].
    apply filter_In. split; [exact Hin|]. simpl.
    apply orb_true_iff. destruct Hkeep as [Hne|Hts]; [left | now right].
    now apply negb_true_iff, String.eqb_neq.
Qed.

Lemma insert_from_maps_loop (merged_maps : list (string * string)) (a b : string) :
  fold_left (fun '(columns, values) '(key, val) =>
               (OStream.write ", " (OStream.write key columns),
                OStream.write ", " (OStream.write val values)))
            merged_maps (OStream.holding a, OStream.holding b)
  = (OStream.holding (a ++ Str.concat_map (fun kv => fst kv ++ ", ") merged_maps),
     OStream.holding (b ++ Str.concat_map (fun kv => snd kv ++ ", ") merged_maps)).
Proof.
  revert a b; induction merged_maps as [|[k v] l IH]; intros a b; simpl.
  - now rewrite !StrFacts.append_nil_r.
  - rewrite !OStreamFacts.write_holding, IH. now rewrite !StrFacts.append_assoc.
Qed.

Lemma insert_from_maps_text (t : string) (merged_maps : list (string * string)) :
  merged_maps <> [] ->
  insert_from_maps_statement t merged_maps
  = "INSERT INTO " ++ t ++ " (" ++ String.concat ", " (map fst merged_maps)
                   ++ ") VALUES (" ++ String.concat ", " (map snd merged_maps) ++ ") ".
Proof.
  intros Hne. unfold insert_from_maps_statement.
  rewrite OStreamFacts.empty_holding, !OStreamFacts.write_holding.
  rewrite insert_from_maps_loop.
  rewrite !(concat_map_sep _ ", " Hne).
  rewrite <- !StrFacts.append_assoc.
  pose proof (close_values_text (("" ++ "(") ++ String.concat ", " (map fst merged_maps))) as Hc.
  pose proof (close_values_text (("" ++ "(") ++ String.concat ", " (map snd merged_maps))) as Hv.
  unfold close_values in Hc, Hv. rewrite Hc, Hv.
  rewrite !OStreamFacts.write_holding. unfold OStream.str, OStream.holding; simpl.
  rewrite !StrFacts.append_assoc. simpl. rewrite !StrFacts.append_assoc. reflexivity.
Qed.

Lemma timed_values_text (A : Type) (f : A -> string) (q : string) (l : list A) :
  (q ++ ", ") ++ Str.concat_map (fun a => f a ++ ", ") l
  = String.concat ", " (q :: map f l) ++ ", ".
Proof.
  revert q; induction l as [|x l IH]; intros q.
  - simpl. now rewrite StrFacts.append_nil_r.
  - change (Str.concat_map (fun a => f a ++ ", ") (x :: l))
      with ((f x ++ ", ") ++ Str.concat_map (fun a => f a ++ ", ") l).
    rewrite IH.
    change (String.concat ", " (q :: map f (x :: l)))
      with (q ++ ", " ++ String.concat ", " (f x :: map f l)).
    now rewrite !StrFacts.append_assoc.
Qed.

(** C1, as the code has it.  On a table whose entry holds its columns and
    its primary key, the three positional [insert] variants name in their
    column list every column but the primary key, and the primary key too
    when its type name contains "timestamp" (at least one column is
    named): the statement starts with INSERT INTO <table>(<those columns,
    joined by ", ">) VALUES(.  [insert_from_maps] does not look at the
    entry: its column list is the keys of the merged maps. *)
Theorem insert_column_list (E : environment) (w : world E) (t primary_key : string)
        (cols : list (string * string)) :
  Yaml.get ["tables_details"; t; "primary_key"] (Some (db_config_ w))
  = inr (Some (Yaml.Scalar primary_key)) ->
  Yaml.get ["tables_details"; t; "columns"] (Some (db_config_ w))
  = inr (Some (Yaml.Map (typed cols))) ->
  kept_columns primary_key cols <> [] ->
  insert_statement_first_part t w
  = Ret ("INSERT INTO " ++ t ++ "(" ++ String.concat ", " (kept_columns primary_key cols)
                        ++ ") VALUES(") w
  /\ (forall c, In c (kept_columns primary_key cols)
                <-> exists ty, In (c, ty) cols
                               /\ (c <> primary_key \/ Str.contains "timestamp" ty = true))
  /\ (forall values, values <> [] ->
        insert t values w
        = (execute (insert_prefix t primary_key cols
                      ++ String.concat ", " (map render values) ++ ") ") ;;; ret tt) w)
  /\ (forall (T : Type) (S : Streamable T) (vector : list T), vector <> [] ->
        insert_vector t vector w
        = (execute (insert_prefix t primary_key cols
                      ++ String.concat ", " (map stream_out vector) ++ ") ") ;;; ret tt) w)
  /\ (forall (T : Type) (S : Streamable T) (tp : time_point_t E) (vector : list T),
        insert_timed t tp vector w
        = (execute (insert_prefix t primary_key cols
                      ++ String.concat ", " (("'" ++ ISO_8601 E tp ++ "'")
                                               :: map stream_out vector) ++ ") ") ;;; ret tt) w)
  /\ (forall merged_maps, merged_maps <> [] ->
        insert_from_maps t merged_maps w
        = (explore_if_unknown t ;;;
           execute ("INSERT INTO " ++ t ++ " (" ++ String.concat ", " (map fst merged_maps)
                      ++ ") VALUES (" ++ String.concat ", " (map snd merged_maps) ++ ") ") ;;;
           ret tt) w).
Proof.
  intros Hkey Hcols Hkept.
  split; [exact (@first_part_text E w t primary_key Hkey cols Hcols Hkept)|].
  split; [exact (kept_columns_spec primary_key cols)|].
  split; [|split; [|split]].
  - intros values Hne.
    rewrite <- (@positional_insert E w t primary_key Hkey cols Hcols Hkept).
    unfold insert. apply bind_ext. intros _ w1. apply bind_ext. intros first_part w2.
    rewrite OStreamFacts.empty_holding, OStreamFacts.write_holding.
    rewrite (OStreamFacts.fold_write2_holding render (fun _ => ", ")).
    now rewrite (concat_map_sep render ", " Hne).
  - intros T S vector Hne.
    rewrite <- (@positional_insert E w t primary_key Hkey cols Hcols Hkept).
    unfold insert_vector. apply bind_ext. intros _ w1. apply bind_ext. intros first_part w2.
    rewrite OStreamFacts.empty_holding, OStreamFacts.write_holding.
    rewrite (OStreamFacts.fold_write2_holding stream_out (fun _ => ", ")).
    now rewrite (concat_map_sep stream_out ", " Hne).
  - intros T S tp vector.
    rewrite <- (@positional_insert E w t primary_key Hkey cols Hcols Hkept).
    unfold insert_timed. apply bind_ext. intros _ w1. apply bind_ext. intros first_part w2.
    rewrite OStreamFacts.empty_holding, !OStreamFacts.write_holding.
    rewrite (OStreamFacts.fold_write2_holding stream_out (fun _ => ", ")).
    do 2 f_equal.
    rewrite <- (timed_values_text stream_out).
    rewrite !StrFacts.append_assoc. simpl. rewrite ?StrFacts.append_assoc. reflexivity.
  - intros merged_maps Hne. unfold insert_from_maps.
    now rewrite (insert_from_maps_text t Hne).
Qed.

Lemma insert_column_list_witness :
  insert_statement_first_part "t" t_known
  = Ret "INSERT INTO t(name, created_at) VALUES(" t_known.
Proof.
  refine (proj1 (@insert_column_list Toy.env t_known "t" "id"
                   [("id", "int4"); ("name", "text"); ("created_at", "timestamp")]
                   eq_refl eq_refl _)).
  vm_compute. discriminate.
Defined.

(** C1, as stated, fails for [insert_from_maps]: on the table [public.t],
    whose primary key [id] is of type [int4], the statement it executes
    for the pairs id = 7, name = 'x' names [id] in its column list. *)
Lemma insert_from_maps_names_primary_key : ~ insert_from_maps_excludes_key Toy.env.
Proof.
  intros H.
  set (merged := [("id", "7"); ("name", "'x'")]).
  set (w' := match insert_from_maps "public.t" merged toy_discovered with
             | Ret _ w1 => w1
             | _ => toy_discovered
             end).
  apply (H "public.t" merged toy_discovered w' "id" "int4" eq_refl eq_refl eq_refl)
    with (statement := "INSERT INTO public.t (id, name) VALUES (7, 'x') ").
  - vm_compute. reflexivity.
  - vm_compute. reflexivity.
  - vm_compute. left. reflexivity.
Qed.

(* ===================================================================== *)
(** * Schema discovery *)
(* ===================================================================== *)

Section Tree.

(** What was assigned is what is read back. *)
Lemma get_assign_same (path : list string) (v : Yaml.node) :
  forall (n : option Yaml.node) (n' : Yaml.node),
    Yaml.assign path v n = inr n' -> Yaml.get path (Some n') = inr (Some v).
Proof.
  induction path as [|k ks IH]; intros n n' H; simpl in *.
  - now injection H as ->.
  - destruct (Yaml.children n) as [m|]; [|discriminate].
    destruct (Yaml.assign ks v (Yaml.assoc k m)) as [e|c] eqn:Hc; [discriminate|].
    injection H as <-.
    unfold Yaml.subscript. simpl. rewrite YamlFacts.assoc_assoc_set_eq.
    exact (IH _ _ Hc).
Qed.

(** Where a key of an entry can be read, its siblings can be assigned. *)
Lemma assign_beside (a b c c' : string) (v x : Yaml.node) (n : option Yaml.node) :
  Yaml.get [a; b; c] n = inr (Some x) ->
  exists n', Yaml.assign [a; b; c'] v n = inr n'.
Proof.
  simpl. unfold Yaml.subscript.
  destruct (Yaml.children n) as [m|]; [|discriminate].
  destruct (Yaml.children (Yaml.assoc a m)) as [m1|]; [|discriminate].
  destruct (Yaml.children (Yaml.assoc b m1)) as [m2|]; [|discriminate].
  intros _. eexists. reflexivity.
Qed.

End Tree.

Section PrimaryKey.

Variable E : environment.

Lemma execute_keeps_config (statement : string) (w w1 : world E) (r : Pq.result) :
  execute statement w = Ret r w1 -> db_config_ w1 = db_config_ w.
Proof.
  unfold execute. intros H.
  destruct (c_ w) as [d|] eqn:Hc; [|unfold in_work in H; rewrite Hc in H; discriminate].
  destruct (in_work_returns (pq_exec E) Pq.default_result statement w Hc)
    as (r' & w' & Heq & Hcfg & _).
  rewrite Heq in H. now injection H as _ <-.
Qed.

Lemma config_assign_eq (path : list string) (v n' : Yaml.node) (w : world E) :
  Yaml.assign path v (Some (db_config_ w)) = inr n' ->
  config_assign path v w
  = Ret tt (mk_world n' (c_ w) (log w) (cout w) (cerr w) (files w)).
Proof. intros H. unfold config_assign. now rewrite H. Qed.

End PrimaryKey.

(** C6. The primary-key lookup of [get_column_details] (lines 242-254)
    executes the information-schema query for the schema and the table
    recorded in the entry; when the result has a row it records the first
    column of the first row as the table's [primary_key], and when the
    result is empty it records "_none_". *)
Theorem primary_key_recorded (E : environment) (t schema table : string)
        (w w1 : world E) (r : Pq.result) :
  Yaml.get ["tables_details"; t; "schema"] (Some (db_config_ w))
  = inr (Some (Yaml.Scalar schema)) ->
  Yaml.get ["tables_details"; t; "table"] (Some (db_config_ w))
  = inr (Some (Yaml.Scalar table)) ->
  execute (string_format E primary_key_format [arg_str schema; arg_str table]) w
  = Ret r w1 ->
  (forall c cs v vs rest,
      Pq.columns r = c :: cs -> Pq.rows r = (Some v :: vs) :: rest ->
      exists w2, lookup_primary_key t w = Ret tt w2
                 /\ Yaml.get ["tables_details"; t; "primary_key"] (Some (db_config_ w2))
                    = inr (Some (Yaml.Scalar v)))
  /\ (Pq.rows r = [] ->
      exists w2, lookup_primary_key t w = Ret tt w2
                 /\ Yaml.get ["tables_details"; t; "primary_key"] (Some (db_config_ w2))
                    = inr (Some (Yaml.Scalar "_none_"))).
Proof.
  intros Hschema Htable Hexec.
  pose proof (execute_keeps_config _ _ Hexec) as Hcfg.
  assert (Hassign : forall v, exists n',
             Yaml.assign ["tables_details"; t; "primary_key"] (Yaml.Scalar v)
                         (Some (db_config_ w1)) = inr n').
  { intros v. rewrite Hcfg. exact (assign_beside _ _ _ "primary_key" _ _ Hschema). }
  assert (Hrun : forall k : Pq.result -> M E unit,
             (schema_node <- config_get ["tables_details"; t; "schema"] ;;
              schema' <- as_string schema_node ;;
              table_node <- config_get ["tables_details"; t; "table"] ;;
              table' <- as_string table_node ;;
              r' <- execute (string_format E primary_key_format
                                           [arg_str schema'; arg_str table']) ;;
              k r') w = k r w1).
  { intros k. unfold bind at 1. rewrite (config_get_eq _ _ Hschema).
    unfold bind at 1. simpl. unfold bind at 1. rewrite (config_get_eq _ _ Htable).
    unfold bind at 1. simpl. unfold bind at 1. now rewrite Hexec. }
  unfold lookup_primary_key. rewrite Hrun. split.
  - intros c cs v vs rest Hcols Hrows.
    destruct (Hassign v) as [n' Hn'].
    exists (mk_world n' (c_ w1) (log w1) (cout w1) (cerr w1) (files w1)).
    unfold Pq.empty, first_of_first, Pq.row_of. rewrite Hrows, Hcols. simpl.
    unfold bind. simpl. rewrite (config_assign_eq _ _ _ Hn'). split; [reflexivity|].
    simpl. exact (get_assign_same _ _ _ Hn').
  - intros Hrows.
    destruct (Hassign "_none_") as [n' Hn'].
    exists (mk_world n' (c_ w1) (log w1) (cout w1) (cerr w1) (files w1)).
    unfold Pq.empty. rewrite Hrows. simpl.
    rewrite (config_assign_eq _ _ _ Hn'). split; [reflexivity|].
    simpl. exact (get_assign_same _ _ _ Hn').
Qed.

Lemma primary_key_recorded_witness :
  exists w2, lookup_primary_key "public.t" toy_discovered = Ret tt w2
             /\ Yaml.get ["tables_details"; "public.t"; "primary_key"] (Some (db_config_ w2))
                = inr (Some (Yaml.Scalar "id")).
Proof.
  refine (proj1 (@primary_key_recorded Toy.env "public.t" "public" "t" toy_discovered
                   _ _ eq_refl eq_refl eq_refl)
                (Pq.mk_column "column_name" 19) [Pq.mk_column "data_type" 19]
                "id" [Some "integer"] [] eq_refl eq_refl).
Defined.

(* ===================================================================== *)
(** * A server that answers *)
(* ===================================================================== *)

(** Whatever its state, the server opens a transaction, answers
    [statement] with [r] and commits. *)
Definition answers (E : environment) (statement : string) (r : Pq.result) : Prop :=
  forall d : DB E,
  exists d1 d2 d3,
    pq_begin E d = (d1, None)
    /\ pq_exec E d1 statement = (d2, inr r)
    /\ pq_commit E d2 = (d3, None).

(** The catalog knows the type [oid] under the name [typname]. *)
Definition resolves (E : environment) (oid : Z) (typname : string) : Prop :=
  exists c vs, answers E (typname_statement E oid) (Pq.mk_result c [Some typname :: vs])
               /\ c <> [].

(** [w'] is [w] after the statements [stmts] went through the connection:
    the connection is still there and nothing else has changed. *)
Definition continues (E : environment) (w w' : world E) (stmts : list string) : Prop :=
  db_config_ w' = db_config_ w /\ cout w' = cout w /\ cerr w' = cerr w
  /\ files w' = files w
  /\ (exists d, c_ w' = Some d)
  /\ Pq.statements (log w') = (Pq.statements (log w) ++ stmts)%list.

Section Answers.

Variable E : environment.

Lemma continues_refl (w : world E) (d : DB E) : c_ w = Some d -> continues w w [].
Proof.
  intros Hc. unfold continues. repeat split; eauto. now rewrite app_nil_r.
Qed.

Lemma continues_trans (w1 w2 w3 : world E) (l1 l2 : list string) :
  continues w1 w2 l1 -> continues w2 w3 l2 -> continues w1 w3 (l1 ++ l2)%list.
Proof.
  unfold continues.
  intros (Hc1 & Ho1 & He1 & Hf1 & _ & Hl1) (Hc2 & Ho2 & He2 & Hf2 & Hd2 & Hl2).
  repeat split; try congruence.
  now rewrite Hl2, Hl1, app_assoc.
Qed.

Lemma continues_with_connection (w : world E) (d : DB E) (statement : string) :
  continues w (with_connection d [Pq.Begin; Pq.Exec statement; Pq.Commit] w) [statement].
Proof.
  unfold continues, with_connection; simpl. repeat split; eauto.
  now rewrite PqFacts.statements_app.
Qed.

Lemma execute_answers (statement : string) (r : Pq.result) (w : world E) (d : DB E) :
  answers E statement r -> c_ w = Some d ->
  exists w', execute statement w = Ret r w' /\ continues w w' [statement].
Proof.
  intros Ha Hc. destruct (Ha d) as (d1 & d2 & d3 & Hb & Hx & Hk).
  exists (with_connection d3 [Pq.Begin; Pq.Exec statement; Pq.Commit] w).
  split; [|apply continues_with_connection].
  unfold execute, in_work. now rewrite Hc, Hb, Hx, Hk.
Qed.

Lemma typname_resolves (oid : Z) (typname : string) (w : world E) (d : DB E) :
  resolves E oid typname -> c_ w = Some d ->
  exists w', get_typname_from_oid oid w = Ret typname w'
             /\ continues w w' [typname_statement E oid].
Proof.
  intros (c & vs & Ha & Hne) Hc. destruct (Ha d) as (d1 & d2 & d3 & Hb & Hx & Hk).
  exists (with_connection d3 [Pq.Begin; Pq.Exec (typname_statement E oid); Pq.Commit] w).
  split; [|apply continues_with_connection].
  unfold get_typname_from_oid, bind, execute1, in_work, exec1.
  rewrite Hc, Hb, Hx. simpl. rewrite Hk.
  destruct c as [|c0 c]; [congruence|]. reflexivity.
Qed.

End Answers.

(* ===================================================================== *)
(** * Printing *)
(* ===================================================================== *)

(** The width configured for the type name [typname], 10 when the
    mapping has none; nothing when the entry is no integer. *)
Definition configured_width (E : environment) (cfg : Yaml.node) (typname : string) : option Z :=
  match Yaml.get ["field_length_mapping"; typname] (Some cfg) with
  | inr None => Some 10%Z
  | inr (Some (Yaml.Scalar s)) => decode_int E s
  | _ => None
  end.

(** The width of a field: the configured width, or the length of the
    header when that is larger. *)
Definition field_width (column_name : string) (configured : Z) : Z :=
  Z.max (to_int (Z.of_nat (length column_name))) configured.

(** A rendered field: the text cut to the width, blanks up to the width,
    the separator. *)
Definition cell (E : environment) (width : Z) (text : string) : string :=
  truncate E text width
  ++ Str.fill (Z.to_nat (width - Z.of_nat (length (truncate E text width)))) " "
  ++ " |".

Section Rendering.

Variable E : environment.

(** The type name of an OID and the width configured for a type name. *)
Variable typname : Z -> string.
Variable width : string -> Z.

Definition width_for (f : Pq.field) : Z :=
  field_width (Pq.name f) (width (typname (Pq.type f))).

Definition row_text (row : Pq.row) : string :=
  Str.concat_map (fun f => cell E (width_for f) (Pq.c_str f)) row.

Definition header_text (row : Pq.row) : string :=
  Str.concat_map (fun f => cell E (width_for f) (Pq.name f)) row.

(** What [print] writes: nothing for a result without rows; otherwise
    the header line, then one line per row. *)
Definition table_text (r : Pq.result) : string :=
  match Pq.rows r with
  | [] => ""
  | vals :: others =>
    header_text (Pq.row_of r vals) ++ Str.nl
    ++ row_text (Pq.row_of r vals) ++ Str.nl
    ++ Str.concat_map (fun vals' => row_text (Pq.row_of r vals') ++ Str.nl) others
  end.

(** The catalog and the mapping have what printing [f] asks for. *)
Definition printable (cfg : Yaml.node) (f : Pq.field) : Prop :=
  resolves E (Pq.type f) (typname (Pq.type f))
  /\ configured_width E cfg (typname (Pq.type f)) = Some (width (typname (Pq.type f))).

Lemma field_width_known (column_name column_type : string) (z : Z) (w : world E) :
  configured_width E (db_config_ w) column_type = Some z ->
  field_width_of column_name column_type w = Ret (field_width column_name z) w.
Proof.
  unfold configured_width, field_width_of, config_get, bind. simpl.
  destruct (Yaml.subscript (Some (db_config_ w)) "field_length_mapping") as [e|flm];
    [discriminate|]. simpl.
  destruct (Yaml.subscript flm column_type) as [e|[[|s| |]|]]; try discriminate; simpl.
  - intros Hd. now rewrite Hd.
  - now intros [= <-].
Qed.

Lemma print_field_step (header : bool) (a b : string) (f : Pq.field)
      (w : world E) (d : DB E) :
  c_ w = Some d -> printable (db_config_ w) f ->
  exists w',
    print_field header (OStream.holding a, OStream.holding b) f w
    = Ret (OStream.holding (a ++ cell E (width_for f) (Pq.c_str f)),
           OStream.holding (b ++ if header then cell E (width_for f) (Pq.name f) else ""))
          w'
    /\ continues w w' [typname_statement E (Pq.type f)].
Proof.
  intros Hc [Hres Hwid].
  destruct (@typname_resolves E _ _ w d Hres Hc) as (w' & Hty & Hcont).
  exists w'. split; [|exact Hcont].
  unfold print_field, bind. rewrite Hty.
  destruct Hcont as (Hcfg & _).
  rewrite (@field_width_known (Pq.name f) _ (width (typname (Pq.type f))) w')
    by (now rewrite Hcfg).
  unfold ret, OStream.write_left, OStream.padded. rewrite !OStreamFacts.write_holding.
  fold (width_for f). unfold cell.
  destruct header; rewrite ?OStreamFacts.write_holding, ?StrFacts.append_assoc, ?StrFacts.append_nil_r;
    reflexivity.
Qed.

Lemma print_fields (header : bool) (row : Pq.row) :
  forall (a b : string) (w : world E) (d : DB E),
    c_ w = Some d -> Forall (printable (db_config_ w)) row ->
    exists w' stmts,
      fold_m row (print_field header) (OStream.holding a, OStream.holding b) w
      = Ret (OStream.holding (a ++ row_text row),
             OStream.holding (b ++ if header then header_text row else ""))
            w'
      /\ continues w w' stmts.
Proof.
  induction row as [|f row IH]; intros a b w d Hc Hok.
  - exists w, []. split; [|exact (@continues_refl E w d Hc)].
    simpl. unfold ret. destruct header; now rewrite ?StrFacts.append_nil_r.
  - inversion Hok as [|? ? Hf Hrow]; subst.
    destruct (@print_field_step header a b f w d Hc Hf) as (w1 & Hstep & Hcont1).
    pose proof Hcont1 as (Hcfg1 & _ & _ & _ & [d1 Hc1] & _).
    rewrite <- Hcfg1 in Hrow.
    destruct (IH (a ++ cell E (width_for f) (Pq.c_str f))
                 (b ++ if header then cell E (width_for f) (Pq.name f) else "")
                 w1 d1 Hc1 Hrow) as (w2 & stmts & Hfold & Hcont2).
    exists w2, ([typname_statement E (Pq.type f)] ++ stmts)%list.
    split; [|exact (@continues_trans E _ _ _ _ _ Hcont1 Hcont2)].
    cbn [fold_m]. unfold bind at 1. rewrite Hstep, Hfold.
    unfold row_text, header_text. cbn [Str.concat_map].
    destruct header; now rewrite ?StrFacts.append_assoc, ?StrFacts.append_nil_r.
Qed.

Lemma print_row_text (header : bool) (row : Pq.row) (w : world E) (d : DB E) :
  c_ w = Some d -> Forall (printable (db_config_ w)) row ->
  exists w' stmts,
    print_row row header w
    = Ret (if header then header_text row ++ Str.nl ++ row_text row else row_text row) w'
    /\ continues w w' stmts.
Proof.
  intros Hc Hok.
  destruct (@print_fields header row "" "" w d Hc Hok) as (w' & stmts & Hfold & Hcont).
  exists w', stmts. split; [|exact Hcont].
  unfold print_row, bind. rewrite OStreamFacts.empty_holding, Hfold.
  destruct header; unfold ret; rewrite ?OStreamFacts.write_holding;
    unfold OStream.str, OStream.holding; simpl; rewrite ?StrFacts.append_assoc; reflexivity.
Qed.

End Rendering.

(** The sentence "the header row is rendered once per print call": a
    call that returns has written a header, whenever the result has
    columns to head. *)
Definition header_once_per_call (E : environment) : Prop :=
  forall (r : Pq.result) (w w' : world E),
    Pq.columns r <> [] ->
    print r w = Ret tt w' ->
    exists header rest, header <> "" /\ cout w' = cout w ++ header ++ rest.

Section Tables.

Variable E : environment.
Variable typname : Z -> string.
Variable width : string -> Z.

(** The catalog and the mapping have what printing the result asks for. *)
Definition table_printable (cfg : Yaml.node) (r : Pq.result) : Prop :=
  forall c, In c (Pq.columns r) ->
            resolves E (Pq.column_type c) (typname (Pq.column_type c))
            /\ configured_width E cfg (typname (Pq.column_type c))
               = Some (width (typname (Pq.column_type c))).

Lemma row_printable (cfg : Yaml.node) (r : Pq.result) (vals : list (option string)) :
  table_printable cfg r -> Forall (printable E typname width cfg) (Pq.row_of r vals).
Proof.
  intros Hr. apply Forall_forall. intros f Hin.
  unfold Pq.row_of in Hin. apply in_map_iff in Hin.
  destruct Hin as [[c v] [<- Hin]]. apply in_combine_l in Hin.
  exact (Hr c Hin).
Qed.

Lemma print_lines_tail (r : Pq.result) (rows : list (list (option string))) :
  forall (s : string) (w : world E) (d : DB E),
    c_ w = Some d -> table_printable (db_config_ w) r ->
    exists w' stmts,
      fold_m rows (print_line r) (OStream.holding s, true) w
      = Ret (OStream.holding
               (s ++ Str.concat_map
                       (fun vals => row_text E typname width (Pq.row_of r vals) ++ Str.nl)
                       rows), true) w'
      /\ continues w w' stmts.
Proof.
  induction rows as [|vals rows IH]; intros s w d Hc Hok.
  - exists w, []. split; [|exact (@continues_refl E w d Hc)].
    simpl. unfold ret. now rewrite StrFacts.append_nil_r.
  - destruct (@print_row_text E typname width false (Pq.row_of r vals) w d Hc
                              (row_printable vals Hok))
      as (w1 & stmts1 & Hrow & Hcont1).
    pose proof Hcont1 as (Hcfg1 & _ & _ & _ & [d1 Hc1] & _).
    rewrite <- Hcfg1 in Hok.
    destruct (IH (s ++ row_text E typname width (Pq.row_of r vals) ++ Str.nl) w1 d1 Hc1 Hok)
      as (w2 & stmts2 & Hfold & Hcont2).
    exists w2, (stmts1 ++ stmts2)%list.
    split; [|exact (@continues_trans E _ _ _ _ _ Hcont1 Hcont2)].
    cbn [fold_m]. unfold bind at 1. unfold print_line at 1. unfold bind at 1.
    cbn [negb]. rewrite Hrow. unfold ret at 1.
    rewrite !OStreamFacts.write_holding, StrFacts.append_assoc, Hfold.
    cbn [Str.concat_map]. now rewrite !StrFacts.append_assoc.
Qed.

Lemma print_table_text (r : Pq.result) (w : world E) (d : DB E) :
  c_ w = Some d -> table_printable (db_config_ w) r ->
  exists w', print r w = Ret tt w'
             /\ cout w' = cout w ++ table_text E typname width r
             /\ cerr w' = cerr w
             /\ db_config_ w' = db_config_ w.
Proof.
  intros Hc Hok. unfold print, table_text.
  destruct (Pq.rows r) as [|vals others] eqn:Hrows.
  - exists w. simpl. unfold bind, ret, cout_write. simpl.
    destruct w; simpl. now rewrite StrFacts.append_nil_r.
  - destruct (@print_row_text E typname width true (Pq.row_of r vals) w d Hc
                              (row_printable vals Hok))
      as (w1 & stmts1 & Hrow & Hcont1).
    pose proof Hcont1 as (Hcfg1 & Hout1 & Herr1 & _ & [d1 Hc1] & _).
    rewrite <- Hcfg1 in Hok.
    destruct (@print_lines_tail r others
                (header_text E typname width (Pq.row_of r vals) ++ Str.nl
                 ++ row_text E typname width (Pq.row_of r vals) ++ Str.nl) w1 d1 Hc1 Hok)
      as (w2 & stmts2 & Hfold & Hcont2).
    destruct Hcont2 as (Hcfg2 & Hout2 & Herr2 & _).
    exists (mk_world (db_config_ w2) (c_ w2) (log w2)
                     (cout w2 ++ header_text E typname width (Pq.row_of r vals) ++ Str.nl
                      ++ row_text E typname width (Pq.row_of r vals) ++ Str.nl
                      ++ Str.concat_map
                           (fun vals' => row_text E typname width (Pq.row_of r vals') ++ Str.nl)
                           others)
                     (cerr w2) (files w2)).
    split; [|simpl; repeat split; congruence].
    unfold bind at 1. cbn [fold_m]. unfold bind at 1. unfold print_line at 1.
    unfold bind at 1. cbn [negb]. rewrite Hrow. unfold ret at 1.
    rewrite OStreamFacts.empty_holding, !OStreamFacts.write_holding.
    replace (("" ++ header_text E typname width (Pq.row_of r vals) ++ Str.nl
                 ++ row_text E typname width (Pq.row_of r vals)) ++ Str.nl)
      with (header_text E typname width (Pq.row_of r vals) ++ Str.nl
            ++ row_text E typname width (Pq.row_of r vals) ++ Str.nl)
      by (simpl; now rewrite !StrFacts.append_assoc).
    rewrite Hfold. unfold cout_write, OStream.str, OStream.holding. cbn [OStream.buf].
    now rewrite !StrFacts.append_assoc.
Qed.

End Tables.

Lemma cell_length (E : environment) (width : Z) (text : string) :
  (0 <= width)%Z ->
  length (truncate E text width) <= Z.to_nat width ->
  length (cell E width text) = Z.to_nat width + 2.
Proof.
  intros Hw Hlen. unfold cell.
  rewrite !StrFacts.length_append, StrFacts.length_fill. simpl. lia.
Qed.

(** C5, as the code has it.  With a catalog that resolves the types of
    the columns and a mapping whose widths are integers, every field is
    rendered as its text cut to the width, blanks up to the width and the
    separator " |", where the width is the larger of the header's length
    and the width configured for the type name (10 when none is).  A call
    on a result with at least one row writes the header line once, before
    the first row, and then one line per row; a call on a result without
    rows writes nothing. *)
Theorem print_renders_table (E : environment) (typname : Z -> string) (width : string -> Z)
        (r : Pq.result) (w : world E) (d : DB E) :
  c_ w = Some d ->
  table_printable E typname width (db_config_ w) r ->
  (exists w', print r w = Ret tt w'
              /\ cout w' = cout w ++ table_text E typname width r
              /\ cerr w' = cerr w
              /\ db_config_ w' = db_config_ w)
  /\ (forall f, width_for typname width f
                = Z.max (to_int (Z.of_nat (length (Pq.name f))))
                        (width (typname (Pq.type f))))
  /\ (forall (W : Z) (text : string),
         (0 <= W)%Z ->
         length (truncate E text W) <= Z.to_nat W ->
         length (cell E W text) = Z.to_nat W + 2).
Proof.
  intros Hc Hok.
  split; [exact (@print_table_text E typname width r w d Hc Hok)|].
  split; [reflexivity|].
  intros W text. apply cell_length.
Qed.

(** The catalog and the mapping of the small server. *)
Definition toy_typname (oid : Z) : string :=
  if Z.eqb oid 23 then "int4"
  else if Z.eqb oid 25 then "text"
  else if Z.eqb oid 1114 then "timestamp"
  else "".

Definition toy_width (typname : string) : Z :=
  if String.eqb typname "int4" then 4
  else if String.eqb typname "timestamp" then 19
  else 10.

Definition toy_rows : Pq.result :=
  Pq.mk_result Toy.t_columns
               [[Some "1"; Some "ann"; Some "2024-01-01 00:00:00"];
                [Some "2"; None; Some "2024-01-02 00:00:00"]].

Lemma toy_answers (statement : string) (r : Pq.result) :
  Toy.server statement = inr r -> answers Toy.env statement r.
Proof.
  intros H d. exists (S d), (S d), (S d). simpl. now rewrite H.
Qed.

Lemma toy_printable : table_printable Toy.env toy_typname toy_width Toy.config toy_rows.
Proof.
  intros c Hin. simpl in Hin.
  destruct Hin as [<-|[<-|[<-|[]]]]; (split; [|reflexivity]);
    exists [Pq.mk_column "typname" 19], []; (split; [|discriminate]);
    apply toy_answers; reflexivity.
Defined.

Lemma print_renders_table_witness :
  exists w', print toy_rows toy_connected = Ret tt w'
             /\ cout w' = "id   |name       |created_at          |" ++ Str.nl
                          ++ "1    |ann        |2024-01-01 00:00:00 |" ++ Str.nl
                          ++ "2    |           |2024-01-02 00:00:00 |" ++ Str.nl
             /\ cerr w' = ""
             /\ db_config_ w' = Toy.config.
Proof.
  exact (proj1 (@print_renders_table Toy.env toy_typname toy_width toy_rows toy_connected
                                     (0 : DB Toy.env) eq_refl toy_printable)).
Defined.

(** C5, as stated, fails on a result without rows: the call returns and
    has written no header, although the result has columns. *)
Lemma print_without_rows_writes_no_header : ~ header_once_per_call Toy.env.
Proof.
  intros H.
  destruct (H (Pq.mk_result Toy.t_columns []) toy_connected toy_connected)
    as (header & rest & Hne & Hout).
  - discriminate.
  - reflexivity.
  - simpl in Hout. destruct header; [congruence | discriminate].
Qed.

(* ===================================================================== *)
(** * Paths in the configuration tree *)
(* ===================================================================== *)

(** [path] can be followed from [n] without meeting a scalar on the way. *)
Definition reachable (path : list string) (n : option Yaml.node) : Prop :=
  exists x, Yaml.get path n = inr x.

Section Paths.

Lemma get_undefined (path : list string) : Yaml.get path None = inr None.
Proof. induction path as [|k ks IH]; simpl; [reflexivity | exact IH]. Qed.

Lemma children_of_get (k : string) (ks : list string) (n : option Yaml.node) :
  reachable (k :: ks) n ->
  exists m, Yaml.children n = Some m /\ reachable ks (Yaml.assoc k m).
Proof.
  intros [x H]. simpl in H. unfold Yaml.subscript in H.
  destruct (Yaml.children n) as [m|]; [|discriminate].
  exists m. split; [reflexivity | now exists x].
Qed.

(** A path that can be followed can be assigned to. *)
Lemma assign_reachable (path : list string) (v : Yaml.node) :
  forall n, reachable path n -> exists n', Yaml.assign path v n = inr n'.
Proof.
  induction path as [|k ks IH]; intros n Hr; simpl.
  - eexists; reflexivity.
  - destruct (children_of_get Hr) as (m & Hm & Hks). rewrite Hm.
    destruct (IH _ Hks) as [c Hc]. rewrite Hc. eexists; reflexivity.
Qed.

(** Whether a path can be followed does not depend on its last key. *)
Lemma reachable_sibling (prefix : list string) (k k' : string) :
  forall n, reachable (prefix ++ [k]) n -> reachable (prefix ++ [k']) n.
Proof.
  induction prefix as [|a p IH]; intros n Hr.
  - destruct (children_of_get Hr) as (m & Hm & _).
    exists (Yaml.assoc k' m). simpl. unfold Yaml.subscript. now rewrite Hm.
  - simpl in *. destruct (children_of_get Hr) as (m & Hm & Hks).
    destruct (IH _ Hks) as [x Hx]. exists x.
    simpl. unfold Yaml.subscript. now rewrite Hm.
Qed.

Lemma reachable_prefix (prefix rest : list string) :
  forall n, reachable (prefix ++ rest) n -> reachable prefix n.
Proof.
  induction prefix as [|a p IH]; intros n Hr.
  - now exists n.
  - simpl in *. destruct (children_of_get Hr) as (m & Hm & Hks).
    destruct (IH _ Hks) as [x Hx]. exists x.
    simpl. unfold Yaml.subscript. now rewrite Hm.
Qed.

(** An assignment leaves alone what lies beside its path. *)
Lemma get_assign_beside (common : list string) (k1 k2 : string) (r1 r2 : list string)
      (v : Yaml.node) :
  k1 <> k2 ->
  forall (n : option Yaml.node) (n' : Yaml.node),
    Yaml.assign (common ++ k1 :: r1) v n = inr n' ->
    Yaml.get (common ++ k2 :: r2) (Some n') = Yaml.get (common ++ k2 :: r2) n.
Proof.
  intros Hne. induction common as [|a p IH]; intros n n' H; simpl in *.
  - unfold Yaml.subscript.
    destruct (Yaml.children n) as [m|]; [|discriminate].
    destruct (Yaml.assign r1 v (Yaml.assoc k1 m)) as [e|c]; [discriminate|].
    injection H as <-. simpl. now rewrite YamlFacts.assoc_assoc_set_ne.
  - unfold Yaml.subscript.
    destruct (Yaml.children n) as [m|]; [|discriminate].
    destruct (Yaml.assign (p ++ k1 :: r1) v (Yaml.assoc a m)) as [e|c] eqn:Hc;
      [discriminate|].
    injection H as <-. simpl. rewrite YamlFacts.assoc_assoc_set_eq.
    exact (IH _ _ Hc).
Qed.

(** After an assignment every node on its path is defined. *)
Lemma get_assign_above (prefix rest : list string) (v : Yaml.node) :
  forall (n : option Yaml.node) (n' : Yaml.node),
    Yaml.assign (prefix ++ rest) v n = inr n' ->
    exists x, Yaml.get prefix (Some n') = inr (Some x).
Proof.
  induction prefix as [|a p IH]; intros n n' H; simpl in *.
  - now exists n'.
  - destruct (Yaml.children n) as [m|]; [|discriminate].
    destruct (Yaml.assign (p ++ rest) v (Yaml.assoc a m)) as [e|c] eqn:Hc; [discriminate|].
    injection H as <-. unfold Yaml.subscript. simpl. rewrite YamlFacts.assoc_assoc_set_eq.
    exact (IH _ _ Hc).
Qed.

End Paths.

(* ===================================================================== *)
(** * Discovery of the declared tables *)
(* ===================================================================== *)

(** The two segments [get_column_details] reads off a table identifier
    (lines 224-231). *)
Definition schema_of (t : string) : string :=
  fst (IStream.getline (IStream.of_string t) "" ".").

Definition table_of (t : string) : string :=
  let '(segment, ss) := IStream.getline (IStream.of_string t) "" "." in
  fst (IStream.getline ss segment ".").

(** What is recorded as primary key for the result [r] of the
    information-schema query, when its first field can be read. *)
Definition recorded_key (r : Pq.result) : option string :=
  match Pq.rows r with
  | [] => Some "_none_"
  | (Some v :: _) :: _ =>
    match Pq.columns r with
    | [] => None
    | _ => Some v
    end
  | _ => None
  end.

Lemma split_before_delimiter (delim : ascii) (s rest : string) :
  IStream.split delim s = (s, None) ->
  IStream.split delim (s ++ String delim rest) = (s, Some rest).
Proof.
  induction s as [|c s IH]; simpl.
  - intros _. now rewrite Ascii.eqb_refl.
  - destruct (Ascii.eqb c delim); [discriminate|].
    destruct (IStream.split delim s) as [p r] eqn:Hs.
    intros [= -> ->]. now rewrite IH.
Qed.

(** An identifier of the form schema.table splits into its two parts. *)
Lemma schema_table_split (schema table : string) :
  IStream.split "." schema = (schema, None) ->
  IStream.split "." table = (table, None) ->
  schema_of (schema ++ "." ++ table) = schema
  /\ table_of (schema ++ "." ++ table) = table.
Proof.
  intros Hs Ht. unfold schema_of, table_of, IStream.getline, IStream.of_string. simpl.
  rewrite (split_before_delimiter _ _ Hs). simpl. rewrite Ht. split; reflexivity.
Qed.

Section Discovery.

Variable E : environment.

(** The columns of each table, the type name of each OID and the primary
    key that the server reports for each table. *)
Variable cols : string -> list Pq.column.
Variable typname : Z -> string.
Variable key : string -> string.

Definition columns_statement (t : string) : string :=
  string_format E "SELECT * FROM %s LIMIT 0" [arg_str t].

Definition primary_key_statement (t : string) : string :=
  string_format E primary_key_format [arg_str (schema_of t); arg_str (table_of t)].

(** The server has what discovering [t] asks for. *)
Definition discoverable (t : string) : Prop :=
  (exists r, answers E (columns_statement t) r /\ Pq.columns r = cols t)
  /\ NoDup (map Pq.column_name (cols t))
  /\ (forall c, In c (cols t) ->
                resolves E (Pq.column_type c) (typname (Pq.column_type c)))
  /\ (exists r, answers E (primary_key_statement t) r /\ recorded_key r = Some (key t)).

(** The statements the discovery of [t] executes, in order. *)
Definition statements_for (t : string) : list string :=
  (columns_statement t
     :: map (fun c => typname_statement E (Pq.column_type c)) (cols t)
     ++ [primary_key_statement t])%list.

(** The entry of [t] holds its schema name, its bare name, the type name
    of each column and its primary key. *)
Definition populated (t : string) (cfg : Yaml.node) : Prop :=
  Yaml.get ["tables_details"; t; "schema"] (Some cfg)
  = inr (Some (Yaml.Scalar (schema_of t)))
  /\ Yaml.get ["tables_details"; t; "table"] (Some cfg)
     = inr (Some (Yaml.Scalar (table_of t)))
  /\ (forall c, In c (cols t) ->
                Yaml.get ["tables_details"; t; "columns"; Pq.column_name c] (Some cfg)
                = inr (Some (Yaml.Scalar (typname (Pq.column_type c)))))
  /\ Yaml.get ["tables_details"; t; "primary_key"] (Some cfg)
     = inr (Some (Yaml.Scalar (key t))).

(** The entries of the other tables are as they were. *)
Definition untouched_beside (t : string) (cfg cfg' : Yaml.node) : Prop :=
  forall t' rest, t' <> t ->
                  Yaml.get ("tables_details" :: t' :: rest) (Some cfg')
                  = Yaml.get ("tables_details" :: t' :: rest) (Some cfg).

(** Nothing in the way of the entry of [t] is a scalar. *)
Definition well_formed (t : string) (cfg : Yaml.node) : Prop :=
  reachable ["tables_details"; t; "columns"; ""] (Some cfg).

(** [w'] is [w] after the discovery of [t]. *)
Definition discovered (t : string) (w w' : world E) : Prop :=
  populated t (db_config_ w')
  /\ untouched_beside t (db_config_ w) (db_config_ w')
  /\ well_formed t (db_config_ w')
  /\ cout w' = cout w /\ cerr w' = cerr w /\ files w' = files w
  /\ (exists d, c_ w' = Some d)
  /\ Pq.statements (log w') = (Pq.statements (log w) ++ statements_for t)%list.

(** One assignment below the entry of [t]. *)
Definition assigned_under (t k : string) (rest : list string) (v : Yaml.node)
           (cfg cfg' : Yaml.node) : Prop :=
  Yaml.assign ("tables_details" :: t :: k :: rest) v (Some cfg) = inr cfg'.

Lemma assigned_untouched (t k : string) (rest : list string) (v cfg cfg' : Yaml.node) :
  assigned_under t k rest v cfg cfg' -> untouched_beside t cfg cfg'.
Proof.
  intros H t' r Hne.
  exact (@get_assign_beside ["tables_details"] t t' (k :: rest) r v
                            (fun e => Hne (eq_sym e)) _ _ H).
Qed.

Lemma assigned_other_key (t k k' : string) (rest rest' : list string) (v cfg cfg' : Yaml.node) :
  assigned_under t k rest v cfg cfg' -> k <> k' ->
  Yaml.get ("tables_details" :: t :: k' :: rest') (Some cfg')
  = Yaml.get ("tables_details" :: t :: k' :: rest') (Some cfg).
Proof.
  intros H Hne.
  exact (@get_assign_beside ["tables_details"; t] k k' rest rest' v Hne _ _ H).
Qed.

Lemma assigned_read (t k : string) (rest : list string) (v cfg cfg' : Yaml.node) :
  assigned_under t k rest v cfg cfg' ->
  Yaml.get ("tables_details" :: t :: k :: rest) (Some cfg') = inr (Some v).
Proof. intros H. exact (get_assign_same _ _ _ H). Qed.

Lemma assigned_well_formed_key (t k : string) (v cfg cfg' : Yaml.node) :
  k <> "columns" ->
  assigned_under t k [] v cfg cfg' -> well_formed t cfg -> well_formed t cfg'.
Proof.
  intros Hne H [x Hx]. exists x.
  rewrite <- Hx. exact (assigned_other_key ["" ] H Hne).
Qed.

Lemma assigned_well_formed_column (t c : string) (v cfg cfg' : Yaml.node) :
  assigned_under t "columns" [c] v cfg cfg' -> well_formed t cfg'.
Proof.
  intros H. unfold well_formed.
  apply (@reachable_sibling ["tables_details"; t; "columns"] c "").
  exists (Some v). exact (assigned_read H).
Qed.

(** The path of a key of the entry, and of a column, can be assigned to. *)
Lemma well_formed_key (t k : string) (cfg : Yaml.node) :
  well_formed t cfg -> reachable ["tables_details"; t; k] (Some cfg).
Proof.
  intros H.
  apply (@reachable_sibling ["tables_details"; t] "columns" k).
  exact (@reachable_prefix ["tables_details"; t; "columns"] [""] _ H).
Qed.

Lemma well_formed_column (t c : string) (cfg : Yaml.node) :
  well_formed t cfg -> reachable ["tables_details"; t; "columns"; c] (Some cfg).
Proof.
  intros H. exact (@reachable_sibling ["tables_details"; t; "columns"] "" c _ H).
Qed.

(** [config_assign] on a path that can be followed. *)
Lemma config_assign_reachable (path : list string) (v : Yaml.node) (w : world E) :
  reachable path (Some (db_config_ w)) ->
  exists cfg',
    Yaml.assign path v (Some (db_config_ w)) = inr cfg'
    /\ config_assign path v w
       = Ret tt (mk_world cfg' (c_ w) (log w) (cout w) (cerr w) (files w)).
Proof.
  intros Hr. destruct (assign_reachable v Hr) as [cfg' Hc].
  exists cfg'. split; [exact Hc | exact (config_assign_eq _ _ _ Hc)].
Qed.

(** The loop of [discover_columns], over columns of distinct names. *)
Lemma discover_columns_loop (t : string) (todo : list Pq.column) :
  forall (w : world E) (d : DB E),
    c_ w = Some d ->
    well_formed t (db_config_ w) ->
    NoDup (map Pq.column_name todo) ->
    (forall c, In c todo -> resolves E (Pq.column_type c) (typname (Pq.column_type c))) ->
    exists w',
      for_each todo
               (fun c =>
                  typname <- get_typname_from_oid (Pq.column_type c) ;;
                  config_assign ["tables_details"; t; "columns"; Pq.column_name c]
                                (Yaml.Scalar typname)) w
      = Ret tt w'
      /\ (forall c, In c todo ->
                    Yaml.get ["tables_details"; t; "columns"; Pq.column_name c]
                             (Some (db_config_ w'))
                    = inr (Some (Yaml.Scalar (typname (Pq.column_type c)))))
      /\ (forall k rest, k <> "columns" ->
                         Yaml.get ("tables_details" :: t :: k :: rest) (Some (db_config_ w'))
                         = Yaml.get ("tables_details" :: t :: k :: rest) (Some (db_config_ w)))
      /\ (forall name, ~ In name (map Pq.column_name todo) ->
                       Yaml.get ["tables_details"; t; "columns"; name] (Some (db_config_ w'))
                       = Yaml.get ["tables_details"; t; "columns"; name] (Some (db_config_ w)))
      /\ untouched_beside t (db_config_ w) (db_config_ w')
      /\ well_formed t (db_config_ w')
      /\ cout w' = cout w /\ cerr w' = cerr w /\ files w' = files w
      /\ (exists d', c_ w' = Some d')
      /\ Pq.statements (log w')
         = (Pq.statements (log w)
              ++ map (fun c => typname_statement E (Pq.column_type c)) todo)%list.
Proof.
  induction todo as [|c todo IH]; intros w d Hc Hwf Hnd Hres.
  - exists w. simpl. unfold ret. repeat split; try reflexivity; try tauto.
    + eauto.
    + now rewrite app_nil_r.
  - inversion Hnd as [|? ? Hfresh Hnd']; subst.
    destruct (@typname_resolves E _ _ w d (Hres c (or_introl eq_refl)) Hc)
      as (w1 & Hty & Hcfg1 & Hout1 & Herr1 & Hfiles1 & [d1 Hc1] & Hlog1).
    assert (Hwf1 : well_formed t (db_config_ w1)) by (now rewrite Hcfg1).
    destruct (@config_assign_reachable
                ["tables_details"; t; "columns"; Pq.column_name c]
                (Yaml.Scalar (typname (Pq.column_type c))) w1
                (well_formed_column (Pq.column_name c) Hwf1))
      as (cfg2 & Hassign & Hrun).
    rewrite Hcfg1 in Hassign.
    change (assigned_under t "columns" [Pq.column_name c]
                           (Yaml.Scalar (typname (Pq.column_type c))) (db_config_ w) cfg2)
      in Hassign.
    set (w2 := mk_world cfg2 (c_ w1) (log w1) (cout w1) (cerr w1) (files w1)) in *.
    destruct (IH w2 d1 Hc1 (assigned_well_formed_column Hassign) Hnd'
                 (fun c' Hin => Hres c' (or_intror Hin)))
      as (w3 & Hloop & Hcols & Hkeys & Hnames & Hbeside & Hwf3 & Hout3 & Herr3 & Hfiles3
          & Hc3 & Hlog3).
    exists w3. split.
    { cbn [for_each]. unfold bind at 1. unfold bind at 1. rewrite Hty, Hrun. exact Hloop. }
    split.
    { intros c' [<-|Hin]; [|exact (Hcols c' Hin)].
      rewrite (Hnames _ Hfresh). exact (assigned_read Hassign). }
    split.
    { intros k rest Hk. rewrite (Hkeys k rest Hk).
      exact (assigned_other_key rest Hassign (fun e => Hk (eq_sym e))). }
    split.
    { intros name Hname. rewrite Hnames by (intros Hin; apply Hname; now right).
      apply (@get_assign_beside ["tables_details"; t; "columns"] (Pq.column_name c) name
                                [] [] (Yaml.Scalar (typname (Pq.column_type c))));
        [|exact Hassign].
      intros e. apply Hname. left. exact e. }
    split.
    { intros t' rest Hne. rewrite (Hbeside t' rest Hne).
      exact (assigned_untouched Hassign rest Hne). }
    split; [exact Hwf3|].
    split; [rewrite Hout3; exact Hout1|].
    split; [rewrite Herr3; exact Herr1|].
    split; [rewrite Hfiles3; exact Hfiles1|].
    split; [exact Hc3|].
    rewrite Hlog3. unfold w2. cbn [log map]. rewrite Hlog1. now rewrite <- app_assoc.
Qed.

(** The primary-key lookup on a server that answers. *)
Lemma lookup_primary_key_assigns (t schema table k : string) (w : world E) (d : DB E)
      (r : Pq.result) :
  c_ w = Some d ->
  well_formed t (db_config_ w) ->
  Yaml.get ["tables_details"; t; "schema"] (Some (db_config_ w))
  = inr (Some (Yaml.Scalar schema)) ->
  Yaml.get ["tables_details"; t; "table"] (Some (db_config_ w))
  = inr (Some (Yaml.Scalar table)) ->
  answers E (string_format E primary_key_format [arg_str schema; arg_str table]) r ->
  recorded_key r = Some k ->
  exists w',
    lookup_primary_key t w = Ret tt w'
    /\ assigned_under t "primary_key" [] (Yaml.Scalar k) (db_config_ w) (db_config_ w')
    /\ cout w' = cout w /\ cerr w' = cerr w /\ files w' = files w
    /\ (exists d', c_ w' = Some d')
    /\ Pq.statements (log w')
       = (Pq.statements (log w)
            ++ [string_format E primary_key_format [arg_str schema; arg_str table]])%list.
Proof.
  intros Hc Hwf Hschema Htable Ha Hkey.
  destruct (@execute_answers E _ _ w d Ha Hc)
    as (w1 & Hexec & Hcfg1 & Hout1 & Herr1 & Hfiles1 & Hc1 & Hlog1).
  assert (Hwf1 : well_formed t (db_config_ w1)) by (now rewrite Hcfg1).
  destruct (@config_assign_reachable ["tables_details"; t; "primary_key"] (Yaml.Scalar k) w1
                                     (well_formed_key "primary_key" Hwf1))
    as (cfg2 & Hassign & Hrun).
  exists (mk_world cfg2 (c_ w1) (log w1) (cout w1) (cerr w1) (files w1)).
  split.
  - unfold lookup_primary_key.
    unfold bind at 1. rewrite (config_get_eq _ _ Hschema).
    unfold bind at 1. cbn [as_string]. unfold ret at 1.
    unfold bind at 1. rewrite (config_get_eq _ _ Htable).
    unfold bind at 1. cbn [as_string]. unfold ret at 1.
    unfold bind at 1. rewrite Hexec.
    unfold recorded_key in Hkey. unfold Pq.empty, first_of_first, Pq.row_of.
    destruct (Pq.rows r) as [|[|[v|] vs] rest]; try discriminate.
    + injection Hkey as <-. exact Hrun.
    + destruct (Pq.columns r) as [|c cs]; [discriminate|].
      injection Hkey as <-. cbn. exact Hrun.
  - cbn [db_config_ cout cerr files c_ log]. rewrite <- Hcfg1.
    repeat split; try assumption.
Qed.

Lemma try_catch_returns (A : Type) (m : M E A) (h : exn -> M E A) (w w' : world E) (a : A) :
  m w = Ret a w' -> try_catch m h w = Ret a w'.
Proof. intros H. unfold try_catch. now rewrite H. Qed.

(** [get_column_details] on a server that answers. *)
Lemma get_column_details_discovers (t : string) (w : world E) (d : DB E) :
  c_ w = Some d ->
  well_formed t (db_config_ w) ->
  discoverable t ->
  exists w', get_column_details t w = Ret tt w' /\ discovered t w w'.
Proof.
  intros Hc Hwf ([rc [Hrc Hcols]] & Hnd & Hres & [rk [Hrk Hkey]]).
  unfold primary_key_statement, schema_of, table_of in Hrk.
  unfold discovered, populated, statements_for, primary_key_statement, schema_of, table_of.
  unfold get_column_details.
  destruct (IStream.getline (IStream.of_string t) "" ".") as [schema ss1].
  destruct (IStream.getline ss1 schema ".") as [table ss2].
  cbn [fst] in *.
  (* the schema *)
  destruct (@config_assign_reachable ["tables_details"; t; "schema"] (Yaml.Scalar schema) w
                                     (well_formed_key "schema" Hwf))
    as (cfg1 & Hassign1 & Hrun1).
  change (assigned_under t "schema" [] (Yaml.Scalar schema) (db_config_ w) cfg1) in Hassign1.
  set (w1 := mk_world cfg1 (c_ w) (log w) (cout w) (cerr w) (files w)) in *.
  assert (Hwf1 : well_formed t (db_config_ w1)).
  { apply (assigned_well_formed_key (k := "schema") (v := Yaml.Scalar schema)
                                    (cfg := db_config_ w)); [discriminate | exact Hassign1 | exact Hwf]. }
  (* the table *)
  destruct (@config_assign_reachable ["tables_details"; t; "table"] (Yaml.Scalar table) w1
                                     (well_formed_key "table" Hwf1))
    as (cfg2 & Hassign2 & Hrun2).
  change (assigned_under t "table" [] (Yaml.Scalar table) cfg1 cfg2) in Hassign2.
  set (w2 := mk_world cfg2 (c_ w1) (log w1) (cout w1) (cerr w1) (files w1)) in *.
  assert (Hwf2 : well_formed t (db_config_ w2)).
  { apply (assigned_well_formed_key (k := "table") (v := Yaml.Scalar table)
                                    (cfg := cfg1)); [discriminate | exact Hassign2 | exact Hwf1]. }
  (* the columns *)
  destruct (@execute_answers E _ _ w2 d Hrc Hc)
    as (w3 & Hexec3 & Hcfg3 & Hout3 & Herr3 & Hfiles3 & [d3 Hc3] & Hlog3).
  assert (Hwf3 : well_formed t (db_config_ w3)) by (now rewrite Hcfg3).
  destruct (@discover_columns_loop t (cols t) w3 d3 Hc3 Hwf3 Hnd Hres)
    as (w4 & Hloop & Hcols4 & Hkeys4 & _ & Hbeside4 & Hwf4 & Hout4 & Herr4 & Hfiles4
        & [d4 Hc4] & Hlog4).
  (* the primary key *)
  assert (Hschema4 : Yaml.get ["tables_details"; t; "schema"] (Some (db_config_ w4))
                     = inr (Some (Yaml.Scalar schema))).
  { rewrite Hkeys4 by discriminate. rewrite Hcfg3. cbn [db_config_ w2].
    rewrite (@assigned_other_key t "table" "schema" [] [] _ _ _ Hassign2) by discriminate.
    exact (assigned_read Hassign1). }
  assert (Htable4 : Yaml.get ["tables_details"; t; "table"] (Some (db_config_ w4))
                    = inr (Some (Yaml.Scalar table))).
  { rewrite Hkeys4 by discriminate. rewrite Hcfg3. cbn [db_config_ w2].
    exact (assigned_read Hassign2). }
  destruct (@lookup_primary_key_assigns t schema table (key t) w4 d4 rk Hc4 Hwf4
                                        Hschema4 Htable4 Hrk Hkey)
    as (w5 & Hrun5 & Hassign5 & Hout5 & Herr5 & Hfiles5 & Hc5 & Hlog5).
  exists w5. split.
  { apply try_catch_returns.
    unfold bind at 1. rewrite Hrun1.
    unfold bind at 1. rewrite Hrun2.
    unfold bind at 1. unfold discover_columns. unfold bind at 1.
    fold (columns_statement t). rewrite Hexec3, Hcols, Hloop. exact Hrun5. }
  split; [split; [|split; [|split]]|].
  - rewrite (@assigned_other_key t "primary_key" "schema" [] [] _ _ _ Hassign5) by discriminate.
    exact Hschema4.
  - rewrite (@assigned_other_key t "primary_key" "table" [] [] _ _ _ Hassign5) by discriminate.
    exact Htable4.
  - intros c Hin.
    rewrite (@assigned_other_key t "primary_key" "columns" [] [Pq.column_name c] _ _ _ Hassign5)
      by discriminate.
    exact (Hcols4 c Hin).
  - exact (assigned_read Hassign5).
  - split.
    { intros t' rest Hne.
      rewrite (assigned_untouched Hassign5 rest Hne), (Hbeside4 t' rest Hne), Hcfg3.
      cbn [db_config_ w2].
      rewrite (assigned_untouched Hassign2 rest Hne).
      exact (assigned_untouched Hassign1 rest Hne). }
    split.
    { apply (assigned_well_formed_key (k := "primary_key") (v := Yaml.Scalar (key t))
                                      (cfg := db_config_ w4));
        [discriminate | exact Hassign5 | exact Hwf4]. }
    split; [rewrite Hout5, Hout4, Hout3; reflexivity|].
    split; [rewrite Herr5, Herr4, Herr3; reflexivity|].
    split; [rewrite Hfiles5, Hfiles4, Hfiles3; reflexivity|].
    split; [exact Hc5|].
    rewrite Hlog5, Hlog4, Hlog3. cbn [log w2 w1].
    rewrite <- !app_assoc. reflexivity.
Qed.

Lemma populated_kept (t t2 : string) (w w' : world E) :
  populated t (db_config_ w) -> discovered t2 w w' -> populated t (db_config_ w').
Proof.
  intros Hp (Hp2 & Hbeside & _).
  destruct (string_dec t t2) as [->|Hne]; [exact Hp2|].
  destruct Hp as (Hs & Ht & Hc & Hk).
  unfold populated. rewrite !(Hbeside t _ Hne). repeat split; try assumption.
  intros c Hin. rewrite (Hbeside t _ Hne). exact (Hc c Hin).
Qed.

Lemma well_formed_kept (t t2 : string) (w w' : world E) :
  well_formed t (db_config_ w) -> discovered t2 w w' -> well_formed t (db_config_ w').
Proof.
  intros Hwf (_ & Hbeside & Hwf2 & _).
  destruct (string_dec t t2) as [->|Hne]; [exact Hwf2|].
  unfold well_formed, reachable. rewrite (Hbeside t _ Hne). exact Hwf.
Qed.

(** The loop of [explore_tables], table by table. *)
Lemma explore_loop (ts : list string) :
  forall (w : world E) (d : DB E),
    c_ w = Some d ->
    (forall t, In t ts -> well_formed t (db_config_ w)) ->
    (forall t, In t ts -> discoverable t) ->
    exists w',
      for_each ts (@get_column_details E) w = Ret tt w'
      /\ (forall t, In t ts -> populated t (db_config_ w'))
      /\ (forall t, populated t (db_config_ w) -> populated t (db_config_ w'))
      /\ cout w' = cout w /\ cerr w' = cerr w /\ files w' = files w
      /\ (exists d', c_ w' = Some d')
      /\ Pq.statements (log w')
         = (Pq.statements (log w) ++ flat_map statements_for ts)%list.
Proof.
  induction ts as [|t ts IH]; intros w d Hc Hwf Hdisc.
  - exists w. simpl. unfold ret.
    split; [reflexivity|]. split; [intros t []|]. split; [tauto|].
    split; [reflexivity|]. split; [reflexivity|]. split; [reflexivity|].
    split; [eauto|]. now rewrite app_nil_r.
  - destruct (@get_column_details_discovers t w d Hc (Hwf t (or_introl eq_refl))
                                            (Hdisc t (or_introl eq_refl)))
      as (w1 & Hrun1 & Hd1).
    pose proof Hd1 as (Hp1 & _ & _ & Hout1 & Herr1 & Hfiles1 & [d1 Hc1] & Hlog1).
    destruct (IH w1 d1 Hc1
                 (fun t' Hin => well_formed_kept (Hwf t' (or_intror Hin)) Hd1)
                 (fun t' Hin => Hdisc t' (or_intror Hin)))
      as (w2 & Hrun2 & Hpop2 & Hkept2 & Hout2 & Herr2 & Hfiles2 & Hc2 & Hlog2).
    exists w2. split.
    { cbn [for_each]. unfold bind. now rewrite Hrun1. }
    split.
    { intros t' [<-|Hin]; [exact (Hkept2 _ Hp1) | exact (Hpop2 t' Hin)]. }
    split.
    { intros t' Hp. exact (Hkept2 _ (populated_kept Hp Hd1)). }
    split; [congruence|]. split; [congruence|]. split; [congruence|].
    split; [exact Hc2|].
    rewrite Hlog2, Hlog1. cbn [flat_map]. now rewrite <- app_assoc.
Qed.

(** The indices of a sequence of scalars give its elements. *)
Lemma for_each_index (f : string -> M E unit) (ts : list string) :
  forall (pre : list string) (w : world E),
    for_each (seq (List.length pre) (List.length ts))
             (fun i =>
                table_name <- as_string (at_index
                                           E (Some (Yaml.Sequence
                                                      (map Yaml.Scalar (pre ++ ts)%list))) i) ;;
                f table_name) w
    = for_each ts f w.
Proof.
  induction ts as [|t ts IH]; intros pre w; [reflexivity|].
  cbn [List.length seq for_each].
  unfold bind at 1. unfold bind at 1. unfold at_index at 1.
  rewrite map_app, nth_error_app2 by (rewrite length_map; lia).
  rewrite length_map, Nat.sub_diag. cbn [map nth_error as_string]. unfold ret at 1.
  unfold bind at 2. destruct (f t w) as [[] w1|e w1|u]; try reflexivity.
  specialize (IH (pre ++ [t])%list w1).
  rewrite length_app, Nat.add_1_r, <- app_assoc in IH.
  change (Yaml.Scalar t :: map Yaml.Scalar ts) with (map Yaml.Scalar (t :: ts)).
  rewrite <- map_app. exact IH.
Qed.

(** [explore_tables] over a sequence of declared tables. *)
Lemma explore_tables_discovers (ts : list string) (w : world E) (d : DB E) :
  c_ w = Some d ->
  (forall t, In t ts -> well_formed t (db_config_ w)) ->
  (forall t, In t ts -> discoverable t) ->
  exists w',
    explore_tables (Some (Yaml.Sequence (map Yaml.Scalar ts))) w = Ret tt w'
    /\ (forall t, In t ts -> populated t (db_config_ w'))
    /\ (forall t, populated t (db_config_ w) -> populated t (db_config_ w'))
    /\ cout w' = cout w /\ cerr w' = cerr w /\ files w' = files w
    /\ (exists d', c_ w' = Some d')
    /\ Pq.statements (log w')
       = (Pq.statements (log w) ++ flat_map statements_for ts)%list.
Proof.
  intros Hc Hwf Hdisc.
  destruct (@explore_loop ts w d Hc Hwf Hdisc) as (w' & Hrun & Hrest).
  exists w'. split; [|exact Hrest].
  unfold explore_tables. apply try_catch_returns.
  cbn [Yaml.size]. rewrite length_map.
  rewrite <- Hrun. exact (@for_each_index (@get_column_details E) ts [] w).
Qed.

End Discovery.

(* ===================================================================== *)
(** * The constructor *)
(* ===================================================================== *)

(** The connection string [connect] puts together (lines 194-197). *)
Definition connection_string (connection : list (string * string)) : string :=
  Str.concat_map (fun kv => fst kv ++ "=" ++ snd kv ++ " ") connection.

Section Construction.

Variable E : environment.

Lemma connect_loop (connection : list (string * string)) (w : world E) :
  forall s : string,
    fold_m (Yaml.items (Some (Yaml.Map (typed connection))))
           (fun ss it =>
              k <- first_as_string it ;;
              v <- second_as_string it ;;
              ret (OStream.write " " (OStream.write v (OStream.write "=" (OStream.write k ss)))))
           (OStream.holding s) w
    = Ret (OStream.holding (s ++ connection_string connection)) w.
Proof.
  induction connection as [|[k v] connection IH]; intros s.
  - simpl. unfold ret. now rewrite StrFacts.append_nil_r.
  - cbn [typed map Yaml.items fold_m] in *. unfold bind at 1.
    unfold bind at 1. cbn [first_as_string fst snd]. unfold ret at 1.
    unfold bind at 1. cbn [second_as_string as_string]. unfold ret at 1. unfold ret at 1.
    rewrite !OStreamFacts.write_holding, IH.
    unfold connection_string. cbn [Str.concat_map fst snd].
    now rewrite !StrFacts.append_assoc.
Qed.

(** [connect] on a map of scalars that the server accepts. *)
Lemma connect_connects (connection : list (string * string)) (d0 : DB E) (w : world E) :
  pq_connect E (connection_string connection) = inr d0 ->
  connect (Some (Yaml.Map (typed connection))) w
  = Ret tt (mk_world (db_config_ w) (Some d0) (log w) (cout w) (cerr w) (files w)).
Proof.
  intros Hd. unfold connect. apply try_catch_returns.
  unfold bind at 1. rewrite OStreamFacts.empty_holding, connect_loop.
  unfold bind, new_connection, OStream.str, OStream.holding. cbn [OStream.buf].
  change ("" ++ connection_string connection) with (connection_string connection).
  now rewrite Hd.
Qed.

End Construction.

(* ===================================================================== *)
(** * Tables that were not declared *)
(* ===================================================================== *)

(** C2, for [clear]: on a table without a [tables_details] entry,
    [clear] executes its TRUNCATE statement and nothing else; no
    discovery takes place and the table still has no entry afterwards.
    [select] and the [insert] variants call [explore_if_unknown] first
    (see [select_discovers_first]); [clear] does not. *)
Theorem clear_skips_discovery (E : environment) (t : string) (w : world E) (d d1 : DB E) :
  c_ w = Some d ->
  pq_begin E d = (d1, None) ->
  Yaml.get ["tables_details"; t] (Some (db_config_ w)) = inr None ->
  exists w', clear t w = Ret tt w'
             /\ Pq.statements (log w')
                = (Pq.statements (log w) ++ [("TRUNCATE " ++ t ++ " CASCADE")%string])%list
             /\ Yaml.get ["tables_details"; t] (Some (db_config_ w')) = inr None.
Proof.
  intros Hc Hb Hunknown.
  destruct (@clear_executes E t w d d1 Hc Hb) as (_ & w' & Hrun & Hlog & Hcfg).
  exists w'. rewrite Hcfg. auto.
Qed.

Lemma clear_skips_discovery_witness :
  exists w', clear "public.u" toy_discovered = Ret tt w'
             /\ Pq.statements (log w')
                = (Pq.statements (log toy_discovered) ++ ["TRUNCATE public.u CASCADE"])%list
             /\ Yaml.get ["tables_details"; "public.u"] (Some (db_config_ w')) = inr None.
Proof.
  exact (@clear_skips_discovery Toy.env "public.u" toy_discovered
                                (5 : DB Toy.env) (6 : DB Toy.env) eq_refl eq_refl eq_refl).
Defined.

Section Undeclared.

Variable E : environment.
Variable cols : string -> list Pq.column.
Variable typname : Z -> string.
Variable key : string -> string.

(** [explore_if_unknown] on a table without an entry: the table is added
    to the list and every table of the list is discovered, the new one
    last. *)
Lemma explore_if_unknown_discovers (t : string) (ts : list string) (w : world E) (d : DB E) :
  c_ w = Some d ->
  Yaml.get ["tables_details"; t] (Some (db_config_ w)) = inr None ->
  Yaml.get ["tables"] (Some (db_config_ w))
  = inr (Some (Yaml.Sequence (map Yaml.Scalar ts))) ->
  (forall t', In t' (ts ++ [t])%list -> well_formed t' (db_config_ w)) ->
  (forall t', In t' (ts ++ [t])%list -> discoverable E cols typname key t') ->
  exists w',
    explore_if_unknown t w = Ret tt w'
    /\ populated cols typname key t (db_config_ w')
    /\ cout w' = cout w /\ cerr w' = cerr w
    /\ (exists d', c_ w' = Some d')
    /\ Pq.statements (log w')
       = (Pq.statements (log w) ++ flat_map (statements_for E cols) (ts ++ [t]))%list.
Proof.
  intros Hc Hunknown Htables Hwf Hdisc.
  set (pushed := Yaml.Sequence (map Yaml.Scalar (ts ++ [t])%list)).
  destruct (@config_assign_reachable E ["tables"] pushed w
                                     (ex_intro _ _ Htables))
    as (cfg1 & Hassign & Hrun1).
  set (w1 := mk_world cfg1 (c_ w) (log w) (cout w) (cerr w) (files w)) in *.
  assert (Hwf1 : forall t', In t' (ts ++ [t])%list -> well_formed t' (db_config_ w1)).
  { intros t' Hin. destruct (Hwf t' Hin) as [x Hx]. exists x. rewrite <- Hx.
    apply (@get_assign_beside [] "tables" "tables_details" [] [t'; "columns"; ""] pushed);
      [discriminate | exact Hassign]. }
  destruct (@explore_tables_discovers E cols typname key (ts ++ [t])%list w1 d Hc Hwf1 Hdisc)
    as (w2 & Hrun2 & Hpop & _ & Hout & Herr & _ & Hc2 & Hlog).
  exists w2. split.
  { unfold explore_if_unknown.
    unfold bind at 1. rewrite (config_get_eq _ _ Hunknown).
    unfold bind at 1. rewrite (config_get_eq _ _ Htables).
    unfold bind at 1. cbn [Yaml.push_back lift_yaml]. unfold ret at 1.
    unfold bind at 1.
    change (Yaml.Sequence (map Yaml.Scalar ts ++ [Yaml.Scalar t])%list)
      with (Yaml.Sequence (map Yaml.Scalar ts ++ map Yaml.Scalar [t])%list).
    rewrite <- map_app. fold pushed. rewrite Hrun1.
    unfold bind at 1.
    rewrite (@config_get_eq E ["tables"] w1 (Some pushed) (get_assign_same _ _ _ Hassign)).
    exact Hrun2. }
  split; [apply Hpop, in_or_app; right; now left|].
  split; [exact Hout|]. split; [exact Herr|]. split; [exact Hc2 | exact Hlog].
Qed.

(** The sibling of [clear]: [select] on a table without an entry
    discovers it before its own statement is executed. *)
Lemma select_discovers_first (t : string) (ts fields : list string) (condition : string)
      (limit : Z) (r : Pq.result) (w : world E) (d : DB E) :
  c_ w = Some d ->
  Yaml.get ["tables_details"; t] (Some (db_config_ w)) = inr None ->
  Yaml.get ["tables"] (Some (db_config_ w))
  = inr (Some (Yaml.Sequence (map Yaml.Scalar ts))) ->
  (forall t', In t' (ts ++ [t])%list -> well_formed t' (db_config_ w)) ->
  (forall t', In t' (ts ++ [t])%list -> discoverable E cols typname key t') ->
  answers E (select_statement t fields condition limit) r ->
  exists w',
    select t fields condition limit w = Ret r w'
    /\ populated cols typname key t (db_config_ w')
    /\ Pq.statements (log w')
       = (Pq.statements (log w)
            ++ flat_map (statements_for E cols) (ts ++ [t])
            ++ [select_statement t fields condition limit])%list.
Proof.
  intros Hc Hunknown Htables Hwf Hdisc Hanswer.
  destruct (@explore_if_unknown_discovers t ts w d Hc Hunknown Htables Hwf Hdisc)
    as (w1 & Hrun1 & Hpop & _ & _ & [d1 Hc1] & Hlog1).
  destruct (@execute_answers E _ _ w1 d1 Hanswer Hc1)
    as (w2 & Hrun2 & Hcfg2 & _ & _ & _ & _ & Hlog2).
  exists w2. split.
  { unfold select. unfold bind at 1. rewrite Hrun1. unfold bind at 1. now rewrite Hrun2. }
  split; [now rewrite Hcfg2|].
  rewrite Hlog2, Hlog1. now rewrite <- app_assoc.
Qed.

End Undeclared.

(* ===================================================================== *)
(** * What the constructor can ask of the server *)
(* ===================================================================== *)

(** The string [as<std::string>()] gives for a node, if it gives one. *)
Definition node_string (E : environment) (n : option Yaml.node) : option string :=
  match n with
  | Some (Yaml.Scalar s) => Some s
  | Some Yaml.Null => null_as_string E
  | _ => None
  end.

(** The table identifiers [explore_tables] can read off the list. *)
Definition declared (E : environment) (tables : option Yaml.node) : list string :=
  flat_map (fun i => match node_string E (at_index E tables i) with
                     | Some t => [t]
                     | None => []
                     end)
           (seq 0 (Yaml.size tables)).

(** A statement of the discovery of one of the tables [ts]: its column
    query, its primary-key query, or a lookup in the catalog of types. *)
Definition allowed (E : environment) (ts : list string) (statement : string) : Prop :=
  (exists t, In t ts /\ (statement = columns_statement E t
                         \/ statement = primary_key_statement E t))
  \/ (exists oid, statement = typname_statement E oid).

(** When the call returns or throws, the world it leaves satisfies [Q]
    or [R]. *)
Definition triple (E : environment) (A : Type) (m : M E A) (w : world E)
           (Q : A -> world E -> Prop) (R : world E -> Prop) : Prop :=
  match m w with
  | Ret a w' => Q a w'
  | Throw _ w' => R w'
  | Undefined _ => True
  end.

Section Triples.

Variable E : environment.

Lemma triple_ret (A : Type) (a : A) (w : world E) (Q : A -> world E -> Prop)
      (R : world E -> Prop) :
  Q a w -> triple (ret a) w Q R.
Proof. intros H. exact H. Qed.

Lemma triple_bind (A B : Type) (m : M E A) (k : A -> M E B) (w : world E)
      (Q : B -> world E -> Prop) (R : world E -> Prop) :
  triple m w (fun a w1 => triple (k a) w1 Q R) R -> triple (bind m k) w Q R.
Proof. unfold triple, bind. destruct (m w); auto. Qed.

Lemma triple_weaken (A : Type) (m : M E A) (w : world E)
      (Q Q' : A -> world E -> Prop) (R R' : world E -> Prop) :
  triple m w Q R -> (forall a w', Q a w' -> Q' a w') -> (forall w', R w' -> R' w') ->
  triple m w Q' R'.
Proof. unfold triple. destruct (m w); auto. Qed.

Lemma triple_try_catch (A : Type) (m : M E A) (h : exn -> M E A) (w : world E)
      (Q : A -> world E -> Prop) (R : world E -> Prop) :
  triple m w Q (fun w1 => forall e, triple (h e) w1 Q R) -> triple (try_catch m h) w Q R.
Proof. unfold triple at 1 3, try_catch. destruct (m w); auto. intros H. apply H. Qed.

Lemma triple_for_each (A : Type) (l : list A) (body : A -> M E unit)
      (I R : world E -> Prop) :
  (forall a w, In a l -> I w -> triple (body a) w (fun _ => I) R) ->
  forall w, I w -> triple (for_each l body) w (fun _ => I) R.
Proof.
  induction l as [|a l IH]; intros Hbody w Hw.
  - exact Hw.
  - cbn [for_each]. apply triple_bind.
    eapply triple_weaken; [exact (Hbody a w (or_introl eq_refl) Hw) | | auto].
    intros u w1 Hw1. apply IH; [|exact Hw1].
    intros a' w' Hin. apply Hbody. now right.
Qed.

(** The statements executed so far satisfy [P], and the tree satisfies
    [F]. *)
Definition kept (P : string -> Prop) (F : Yaml.node -> Prop) (w : world E) : Prop :=
  Forall P (Pq.statements (log w)) /\ F (db_config_ w).

Lemma kept_logged (P : string -> Prop) (F : Yaml.node -> Prop) (s : string) (w : world E) :
  kept P F w -> kept P F (logged s w).
Proof. intros H. exact H. Qed.

Lemma kept_with_connection (P : string -> Prop) (F : Yaml.node -> Prop) (d : DB E)
      (events : list Pq.event) (w : world E) :
  Forall P (Pq.statements events) -> kept P F w -> kept P F (with_connection d events w).
Proof.
  intros He [Hl Hf]. split; [|exact Hf].
  cbn. rewrite PqFacts.statements_app. apply Forall_app. now split.
Qed.

(** [execute] and [execute1] add at most their statement to the log,
    leave the tree alone and do not throw. *)
Lemma triple_in_work (A : Type) (run : DB E -> string -> DB E * (exn + A)) (r0 : A)
      (statement : string) (P : string -> Prop) (F : Yaml.node -> Prop) (w : world E) :
  P statement -> kept P F w ->
  triple (in_work run r0 statement) w (fun _ => kept P F) (fun _ => False).
Proof.
  intros Hs Hw. unfold triple, in_work.
  destruct (c_ w) as [d|]; [|exact I].
  destruct (pq_begin E d) as [d1 [e|]].
  - rewrite caught_logged. apply kept_logged, kept_with_connection; [constructor | exact Hw].
  - destruct (run d1 statement) as [d2 [e|r]].
    + rewrite caught_logged. apply kept_logged, kept_with_connection; [|exact Hw].
      cbn. now constructor.
    + destruct (pq_commit E d2) as [d3 [e|]].
      * rewrite caught_logged. apply kept_logged, kept_with_connection; [|exact Hw].
        cbn. now constructor.
      * apply kept_with_connection; [|exact Hw]. cbn. now constructor.
Qed.

Lemma triple_config_get (path : list string) (w : world E)
      (Q : option Yaml.node -> world E -> Prop) (R : world E -> Prop) :
  (forall v, Yaml.get path (Some (db_config_ w)) = inr v -> Q v w) -> R w ->
  triple (config_get path) w Q R.
Proof.
  intros HQ HR. unfold triple, config_get.
  destruct (Yaml.get path (Some (db_config_ w))) as [e|v]; cbn; auto.
Qed.

Lemma triple_root_get (key : string) (w : world E)
      (Q : option Yaml.node -> world E -> Prop) (R : world E -> Prop) :
  (forall m, Yaml.children (Some (db_config_ w)) = Some m ->
             Q (Yaml.assoc key m)
               (mk_world (Yaml.Map m) (c_ w) (log w) (cout w) (cerr w) (files w))) ->
  R w ->
  triple (root_get key) w Q R.
Proof.
  intros HQ HR. unfold triple, root_get.
  destruct (Yaml.children (Some (db_config_ w))) as [m|]; auto.
Qed.

Lemma triple_config_assign (path : list string) (v : Yaml.node) (w : world E)
      (Q : unit -> world E -> Prop) (R : world E -> Prop) :
  (forall cfg', Yaml.assign path v (Some (db_config_ w)) = inr cfg' ->
                Q tt (mk_world cfg' (c_ w) (log w) (cout w) (cerr w) (files w))) ->
  R w ->
  triple (config_assign path v) w Q R.
Proof.
  intros HQ HR. unfold triple, config_assign.
  destruct (Yaml.assign path v (Some (db_config_ w))) as [e|cfg']; auto.
Qed.

Lemma triple_as_string (n : option Yaml.node) (w : world E)
      (Q : string -> world E -> Prop) (R : world E -> Prop) :
  (forall s, node_string E n = Some s -> Q s w) -> R w ->
  triple (as_string n) w Q R.
Proof.
  intros HQ HR. unfold triple, as_string, node_string in *.
  destruct n as [[|s|l|m]|]; cbn; auto.
  destruct (null_as_string E); cbn; auto.
Qed.

Lemma triple_report (e : exn) (w : world E) (P : string -> Prop) (F : Yaml.node -> Prop)
      (R : world E -> Prop) :
  kept P F w -> triple (report e) w (fun _ => kept P F) R.
Proof. intros H. exact H. Qed.

End Triples.

(** The tables the configuration file declares. *)
Definition declared_in (E : environment) (configuration_file : string) : list string :=
  match LoadFile E configuration_file with
  | inr cfg =>
    match Yaml.get ["tables"] (Some cfg) with
    | inr tables => declared E tables
    | inl _ => []
    end
  | inl _ => []
  end.

Section Queries.

Variable E : environment.

(** The declared tables. *)
Variable ts : list string.

Definition anything (cfg : Yaml.node) : Prop := True.

(** The schema and the table recorded for [t] are its two segments. *)
Definition segments_recorded (t : string) (cfg : Yaml.node) : Prop :=
  Yaml.get ["tables_details"; t; "schema"] (Some cfg)
  = inr (Some (Yaml.Scalar (schema_of t)))
  /\ Yaml.get ["tables_details"; t; "table"] (Some cfg)
     = inr (Some (Yaml.Scalar (table_of t))).

Lemma kept_anything (F : Yaml.node -> Prop) (w : world E) :
  kept (allowed E ts) F w -> kept (allowed E ts) anything w.
Proof. intros [H _]. split; [exact H | exact I]. Qed.

Lemma triple_get_typname (oid : Z) (F : Yaml.node -> Prop) (w : world E) :
  kept (allowed E ts) F w ->
  triple (get_typname_from_oid oid) w (fun _ => kept (allowed E ts) F) (kept (allowed E ts) F).
Proof.
  intros Hw. unfold get_typname_from_oid. apply triple_bind.
  eapply triple_weaken;
    [exact (@triple_in_work E _ (@exec1 E) Pq.default_row (typname_statement E oid)
                            (allowed E ts) F w (or_intror (ex_intro _ oid eq_refl)) Hw)
    | | intros w' []].
  intros row w1 Hw1. apply triple_bind.
  destruct row as [|f row]; [exact I|]. cbn [row_front]. apply triple_ret.
  unfold field_as_string. destruct (Pq.value f); exact Hw1.
Qed.

Lemma triple_discover_columns (t : string) (w : world E) :
  In t ts ->
  kept (allowed E ts) (segments_recorded t) w ->
  triple (discover_columns t) w (fun _ => kept (allowed E ts) (segments_recorded t))
         (kept (allowed E ts) anything).
Proof.
  intros Hin Hw. unfold discover_columns. apply triple_bind.
  eapply triple_weaken;
    [exact (@triple_in_work E _ (pq_exec E) Pq.default_result _ (allowed E ts)
                            (segments_recorded t) w
                            (or_introl (ex_intro _ t (conj Hin (or_introl eq_refl)))) Hw)
    | | intros w' []].
  intros r w1 Hw1.
  apply triple_for_each; [|exact Hw1].
  intros c w2 _ Hw2. apply triple_bind.
  eapply triple_weaken; [exact (triple_get_typname (Pq.column_type c) Hw2) | | ].
  - intros typname w3 Hw3. apply triple_config_assign; [|exact (kept_anything Hw3)].
    intros cfg' Hassign. destruct Hw3 as [Hlog [Hs Ht]].
    split; [exact Hlog|]. cbn [db_config_].
    change (assigned_under t "columns" [Pq.column_name c] (Yaml.Scalar typname)
                           (db_config_ w3) cfg') in Hassign.
    split.
    + rewrite (@assigned_other_key t "columns" "schema" _ [] _ _ _ Hassign) by discriminate.
      exact Hs.
    + rewrite (@assigned_other_key t "columns" "table" _ [] _ _ _ Hassign) by discriminate.
      exact Ht.
  - intros w3. apply kept_anything.
Qed.

Lemma triple_lookup_primary_key (t : string) (w : world E) :
  In t ts ->
  kept (allowed E ts) (segments_recorded t) w ->
  triple (lookup_primary_key t) w (fun _ => kept (allowed E ts) anything)
         (kept (allowed E ts) anything).
Proof.
  intros Hin Hw. pose proof Hw as [Hlog [Hs Ht]].
  unfold lookup_primary_key.
  apply triple_bind, triple_config_get; [|exact (kept_anything Hw)].
  intros v Hv. rewrite Hs in Hv. injection Hv as <-.
  apply triple_bind, triple_ret.
  apply triple_bind, triple_config_get; [|exact (kept_anything Hw)].
  intros v Hv. rewrite Ht in Hv. injection Hv as <-.
  apply triple_bind, triple_ret.
  apply triple_bind.
  eapply triple_weaken;
    [exact (@triple_in_work E _ (pq_exec E) Pq.default_result _ (allowed E ts)
                            (segments_recorded t) w
                            (or_introl (ex_intro _ t (conj Hin (or_intror eq_refl)))) Hw)
    | | intros w' []].
  intros r w1 Hw1.
  destruct (negb (Pq.empty r)).
  - apply triple_bind. unfold first_of_first.
    destruct (Pq.rows r) as [|vals rest]; [exact I|].
    apply triple_bind.
    destruct (Pq.row_of r vals) as [|f row]; [exact I|]. cbn [row_front]. apply triple_ret.
    unfold field_as_string. destruct (Pq.value f); [|exact (kept_anything Hw1)].
    apply triple_ret. apply triple_config_assign; [|exact (kept_anything Hw1)].
    intros cfg' _. destruct Hw1 as [Hlog1 _]. split; [exact Hlog1 | exact I].
  - apply triple_config_assign; [|exact (kept_anything Hw1)].
    intros cfg' _. destruct Hw1 as [Hlog1 _]. split; [exact Hlog1 | exact I].
Qed.

Lemma triple_get_column_details (t : string) (w : world E) :
  In t ts ->
  kept (allowed E ts) anything w ->
  triple (get_column_details t) w (fun _ => kept (allowed E ts) anything)
         (kept (allowed E ts) anything).
Proof.
  intros Hin Hw. unfold get_column_details.
  apply triple_try_catch.
  assert (Hcatch : forall w1 : world E, kept (allowed E ts) anything w1 ->
                              forall e, triple (@report E e) w1
                                               (fun _ => kept (allowed E ts) anything)
                                               (kept (allowed E ts) anything)).
  { intros w1 Hw1 e. exact Hw1. }
  unfold segments_recorded, schema_of, table_of in *.
  pose proof (@triple_discover_columns t) as Hcols.
  pose proof (@triple_lookup_primary_key t) as Hkey.
  unfold segments_recorded, schema_of, table_of in Hcols, Hkey.
  destruct (IStream.getline (IStream.of_string t) "" ".") as [schema ss1].
  destruct (IStream.getline ss1 schema ".") as [table ss2].
  cbn [fst] in *.
  apply triple_bind, triple_config_assign; [|exact (Hcatch w Hw)].
  intros cfg1 Hassign1.
  change (assigned_under t "schema" [] (Yaml.Scalar schema) (db_config_ w) cfg1) in Hassign1.
  apply triple_bind, triple_config_assign; [|apply Hcatch; split; [apply Hw | exact I]].
  intros cfg2 Hassign2. cbn [db_config_ c_ log cout cerr files] in *.
  change (assigned_under t "table" [] (Yaml.Scalar table) cfg1 cfg2) in Hassign2.
  set (w2 := mk_world cfg2 (c_ w) (log w) (cout w) (cerr w) (files w)).
  assert (Hw2 : kept (allowed E ts)
                     (fun cfg =>
                        Yaml.get ["tables_details"; t; "schema"] (Some cfg)
                        = inr (Some (Yaml.Scalar schema))
                        /\ Yaml.get ["tables_details"; t; "table"] (Some cfg)
                           = inr (Some (Yaml.Scalar table))) w2).
  { split; [apply Hw|]. cbn [db_config_ w2]. split.
    - rewrite (@assigned_other_key t "table" "schema" [] [] _ _ _ Hassign2) by discriminate.
      exact (assigned_read Hassign1).
    - exact (assigned_read Hassign2). }
  apply triple_bind.
  eapply triple_weaken; [exact (Hcols w2 Hin Hw2) | | exact Hcatch].
  intros u w3 Hw3.
  eapply triple_weaken; [exact (Hkey w3 Hin Hw3) | auto | exact Hcatch].
Qed.

End Queries.

Section Constructor.

Variable E : environment.

Lemma declared_member (tables : option Yaml.node) (i : nat) (t : string) :
  In i (seq 0 (Yaml.size tables)) ->
  node_string E (at_index E tables i) = Some t ->
  In t (declared E tables).
Proof.
  intros Hi Ht. unfold declared. apply in_flat_map. exists i.
  split; [exact Hi|]. rewrite Ht. now left.
Qed.

Lemma triple_explore_tables (tables : option Yaml.node) (w : world E) :
  kept (allowed E (declared E tables)) anything w ->
  triple (explore_tables tables) w
         (fun _ => kept (allowed E (declared E tables)) anything)
         (kept (allowed E (declared E tables)) anything).
Proof.
  intros Hw. unfold explore_tables. apply triple_try_catch.
  eapply triple_weaken;
    [apply (@triple_for_each E nat (seq 0 (Yaml.size tables)) _
                             (kept (allowed E (declared E tables)) anything)
                             (kept (allowed E (declared E tables)) anything));
     [|exact Hw]
    | auto
    | intros w1 Hw1 e; exact Hw1].
  intros i w1 Hi Hw1. apply triple_bind, triple_as_string; [|exact Hw1].
  intros t Ht.
  exact (@triple_get_column_details E _ t w1 (@declared_member tables i t Hi Ht) Hw1).
Qed.

(** [connect] executes nothing and leaves the tree alone. *)
Lemma triple_connect (connection_config : option Yaml.node) (P : string -> Prop)
      (F : Yaml.node -> Prop) (w : world E) :
  kept P F w ->
  triple (connect connection_config) w (fun _ => kept P F) (kept P F).
Proof.
  intros Hw. unfold connect. apply triple_try_catch.
  assert (Hloop : forall (items : list (option (string * Yaml.node))) (ss : OStream.t)
                         (Q : OStream.t -> world E -> Prop),
             (forall ss', Q ss' w) ->
             triple
               (fold_m items
                       (fun ss it =>
                          k <- first_as_string it ;;
                          v <- second_as_string it ;;
                          ret (OStream.write " " (OStream.write v
                                 (OStream.write "=" (OStream.write k ss)))))
                       ss) w Q
               (fun w1 => forall e, triple (@report E e) w1 (fun _ => kept P F) (kept P F))).
  { induction items as [|it items IH]; intros ss Q HQ.
    - apply triple_ret, HQ.
    - cbn [fold_m]. apply triple_bind. apply triple_bind.
      destruct it as [[k v]|]; [|intros e; exact Hw].
      cbn [first_as_string]. apply triple_ret. apply triple_bind.
      cbn [second_as_string]. apply triple_as_string; [|intros e; exact Hw].
      intros s _. apply triple_ret. apply IH. exact HQ. }
  apply triple_bind, Hloop. intros ss.
  apply triple_bind. unfold new_connection.
  destruct (pq_connect E (OStream.str ss)) as [e|d]; [intros e'; exact Hw|].
  apply triple_ret. exact Hw.
Qed.

(** Whatever the configuration and the server, the statements the
    constructor has executed when it returns or throws belong to the
    discovery of declared tables. *)
Lemma constructor_statements (configuration_file output_file : string) :
  triple (DatabaseWorker configuration_file output_file) (initial E)
         (fun _ w' => Forall (allowed E (declared_in E configuration_file))
                             (Pq.statements (log w')))
         (fun w' => Forall (allowed E (declared_in E configuration_file))
                           (Pq.statements (log w'))).
Proof.
  set (P := allowed E (declared_in E configuration_file)).
  assert (Hweak : forall (F : Yaml.node -> Prop) (w : world E),
             kept P F w -> Forall P (Pq.statements (log w))) by (intros F w [H _]; exact H).
  unfold DatabaseWorker. apply triple_bind.
  unfold load_config at 1, triple at 1. unfold declared_in in P.
  destruct (LoadFile E configuration_file) as [e|cfg]; [constructor|].
  cbn [initial db_config_ c_ log cout cerr files].
  apply triple_bind, triple_root_get; [|constructor].
  cbn [db_config_ c_ log cout cerr files].
  intros m Hm.
  assert (Htables : Yaml.get ["tables"] (Some cfg) = inr (Yaml.assoc "tables" m)).
  { cbn. unfold Yaml.subscript. now rewrite Hm. }
  subst P. rewrite Htables in *.
  set (P := allowed E (declared E (Yaml.assoc "tables" m))) in *.
  set (F := fun c : Yaml.node => c = Yaml.Map m).
  assert (Hw1 : kept P F (@mk_world E (Yaml.Map m) None [] "" "" []))
    by (split; [constructor | reflexivity]).
  apply triple_bind.
  eapply triple_weaken;
    [exact (@triple_connect (Yaml.assoc "connection" m) P F _ Hw1) | | exact (Hweak F)].
  intros u w2 Hw2. apply triple_bind, triple_root_get; [|exact (Hweak _ _ Hw2)].
  destruct Hw2 as [Hlog2 Hcfg2]. unfold F in Hcfg2. rewrite Hcfg2.
  intros m' Hm'. cbn in Hm'. injection Hm' as <-.
  apply triple_bind.
  eapply triple_weaken;
    [apply (@triple_explore_tables (Yaml.assoc "tables" m)); exact (conj Hlog2 I)
    | | intros w3 [H _]; exact H].
  intros u' w3 [Hlog3 _].
  destruct (negb (String.eqb output_file "")); [|exact Hlog3].
  unfold drop_yaml. apply triple_try_catch. unfold triple.
  destruct (can_open E output_file); exact Hlog3.
Qed.

End Constructor.

(** On a tree that is a map, the constructor's read leaves it as it is. *)
Lemma root_get_map (E : environment) (key : string) (root : Yaml.pairs) (w : world E) :
  db_config_ w = Yaml.Map root -> root_get key w = Ret (Yaml.assoc key root) w.
Proof.
  intros Hroot. unfold root_get. rewrite Hroot. cbn [Yaml.children].
  rewrite <- Hroot. now destruct w.
Qed.

Lemma declared_scalars (E : environment) (ts : list string) :
  declared E (Some (Yaml.Sequence (map Yaml.Scalar ts))) = ts.
Proof.
  unfold declared. cbn [Yaml.size at_index]. rewrite length_map.
  assert (H : forall pre : list string,
             flat_map (fun i =>
                         match node_string E (nth_error (map Yaml.Scalar (pre ++ ts)%list) i) with
                         | Some t => [t]
                         | None => []
                         end)
                      (seq (List.length pre) (List.length ts)) = ts).
  { induction ts as [|t ts' IH]; intros pre; [reflexivity|].
    cbn [List.length seq flat_map].
    rewrite map_app, nth_error_app2 by (rewrite length_map; lia).
    rewrite length_map, Nat.sub_diag. cbn [map nth_error node_string].
    cbn [app]. f_equal.
    specialize (IH (pre ++ [t])%list).
    rewrite length_app, Nat.add_1_r, <- app_assoc, map_app in IH. exact IH. }
  exact (H []).
Qed.

(** C7. Whatever the configuration and the server, every statement the
    constructor has executed when it returns or throws belongs to the
    discovery of a table the configuration declares: the column query on
    that table, the primary-key query for it, or a lookup of a type name
    in the catalog; none names a table that is not declared.  On a
    configuration with a connection the server accepts and a list of
    declared tables, without a [tables_details] section of its own, and a
    server that answers for each declared table, the constructor returns
    with the entry of every declared table populated: schema name and bare
    table name (the two parts of an identifier of the form schema.table),
    the type name of each column, the primary key. *)
Theorem constructor_discovers_declared_tables (E : environment) :
  (forall configuration_file output_file,
      match DatabaseWorker configuration_file output_file (initial E) with
      | Ret _ w' | Throw _ w' =>
        Forall (allowed E (declared_in E configuration_file)) (Pq.statements (log w'))
      | Undefined _ => True
      end)
  /\ (forall (cols : string -> list Pq.column) (typname : Z -> string)
             (key : string -> string) (configuration_file output_file : string)
             (root : Yaml.pairs) (connection : list (string * string)) (ts : list string)
             (d0 : DB E),
         LoadFile E configuration_file = inr (Yaml.Map root) ->
         Yaml.assoc "connection" root = Some (Yaml.Map (typed connection)) ->
         pq_connect E (connection_string connection) = inr d0 ->
         Yaml.assoc "tables" root = Some (Yaml.Sequence (map Yaml.Scalar ts)) ->
         Yaml.assoc "tables_details" root = None ->
         (forall t, In t ts -> discoverable E cols typname key t) ->
         declared_in E configuration_file = ts
         /\ (exists w',
                DatabaseWorker configuration_file output_file (initial E) = Ret tt w'
                /\ (forall t, In t ts -> populated cols typname key t (db_config_ w'))
                /\ Pq.statements (log w') = flat_map (statements_for E cols) ts
                /\ cerr w' = "")
         /\ (forall schema table,
                IStream.split "." schema = (schema, None) ->
                IStream.split "." table = (table, None) ->
                schema_of (schema ++ "." ++ table) = schema
                /\ table_of (schema ++ "." ++ table) = table)).
Proof.
  split.
  { intros configuration_file output_file.
    exact (@constructor_statements E configuration_file output_file). }
  intros cols typname key configuration_file output_file root connection ts d0
         Hload Hconn Hd0 Htables Hdetails Hdisc.
  split.
  { unfold declared_in. rewrite Hload. cbn. unfold Yaml.subscript. cbn.
    rewrite Htables. apply declared_scalars. }
  split; [|exact schema_table_split].
  set (w1 := @mk_world E (Yaml.Map root) None [] "" "" []).
  set (w2 := @mk_world E (Yaml.Map root) (Some d0) [] "" "" []).
  assert (Hwf : forall t, In t ts -> well_formed t (db_config_ w2)).
  { intros t _. unfold well_formed, reachable. cbn. unfold Yaml.subscript. cbn.
    rewrite Hdetails. cbn. eexists. reflexivity. }
  destruct (@explore_tables_discovers E cols typname key ts w2 d0 eq_refl Hwf Hdisc)
    as (w3 & Hrun & Hpop & _ & _ & Herr & _ & _ & Hlog).
  assert (Hbody : (connection_config <- root_get "connection" ;;
                   connect connection_config ;;;
                   tables <- root_get "tables" ;;
                   explore_tables tables) w1 = Ret tt w3).
  { unfold bind at 1.
    rewrite (@root_get_map E "connection" root w1 eq_refl), Hconn.
    unfold bind at 1. rewrite (@connect_connects E connection d0 w1 Hd0).
    change (mk_world (db_config_ w1) (Some d0) (log w1) (cout w1) (cerr w1) (files w1))
      with w2.
    unfold bind at 1.
    rewrite (@root_get_map E "tables" root w2 eq_refl), Htables.
    exact Hrun. }
  assert (Hload1 : load_config configuration_file (initial E) = Ret tt w1).
  { unfold load_config. now rewrite Hload. }
  assert (Hthen : forall k : M E unit,
             (connection_config <- root_get "connection" ;;
              connect connection_config ;;;
              tables <- root_get "tables" ;;
              explore_tables tables ;;; k) w1 = k w3).
  { intros k. unfold bind in Hbody |- *.
    destruct (root_get "connection" w1) as [cc wa|e wa|u]; [|discriminate..].
    destruct (connect cc wa) as [[] wb|e wb|u]; [|discriminate..].
    destruct (root_get "tables" wb) as [tb wc|e wc|u]; [|discriminate..].
    now rewrite Hbody. }
  unfold DatabaseWorker. unfold bind at 1. rewrite Hload1, Hthen.
  destruct (negb (String.eqb output_file "")).
  - unfold drop_yaml, try_catch. destruct (can_open E output_file).
    + eexists. split; [reflexivity|].
      cbn [db_config_ log cerr]. split; [exact Hpop|]. split; [exact Hlog | exact Herr].
    + exists w3. split; [reflexivity|].
      split; [exact Hpop|]. split; [exact Hlog | exact Herr].
  - exists w3. split; [reflexivity|].
    split; [exact Hpop|]. split; [exact Hlog | exact Herr].
Qed.

Lemma toy_resolves (c : Pq.column) :
  In c Toy.t_columns -> resolves Toy.env (Pq.column_type c) (toy_typname (Pq.column_type c)).
Proof.
  intros Hin. simpl in Hin.
  destruct Hin as [<-|[<-|[<-|[]]]];
    exists [Pq.mk_column "typname" 19], []; (split; [|discriminate]);
    apply toy_answers; reflexivity.
Defined.

Lemma toy_discoverable (t : string) :
  In t ["public.t"] ->
  discoverable Toy.env (fun _ => Toy.t_columns) toy_typname (fun _ => "id") t.
Proof.
  intros [<-|[]]. split; [|split; [|split]].
  - exists (Pq.mk_result Toy.t_columns []). split; [|reflexivity].
    apply toy_answers. reflexivity.
  - simpl. repeat constructor; simpl; intuition discriminate.
  - exact toy_resolves.
  - exists (Pq.mk_result [Pq.mk_column "column_name" 19; Pq.mk_column "data_type" 19]
                         [[Some "id"; Some "integer"]]).
    split; [|reflexivity]. apply toy_answers. reflexivity.
Defined.

Lemma constructor_discovers_declared_tables_witness :
  exists w',
    DatabaseWorker "pgi.yaml" "" (initial Toy.env) = Ret tt w'
    /\ (forall t, In t ["public.t"] ->
                  populated (fun _ => Toy.t_columns) toy_typname (fun _ => "id") t
                            (db_config_ w'))
    /\ Pq.statements (log w')
       = flat_map (statements_for Toy.env (fun _ => Toy.t_columns)) ["public.t"]
    /\ cerr w' = "".
Proof.
  refine (proj1 (proj2 (proj2 (@constructor_discovers_declared_tables Toy.env)
                   (fun _ => Toy.t_columns) toy_typname (fun _ => "id")
                   "pgi.yaml" ""
                   [("connection",
                     Yaml.Map [("dbname", Yaml.Scalar "pgi"); ("user", Yaml.Scalar "me")]);
                    ("tables", Yaml.Sequence [Yaml.Scalar "public.t"]);
                    ("field_length_mapping",
                     Yaml.Map [("int4", Yaml.Scalar "4"); ("timestamp", Yaml.Scalar "19")])]
                   [("dbname", "pgi"); ("user", "me")] ["public.t"] (0 : DB Toy.env)
                   eq_refl eq_refl eq_refl eq_refl eq_refl toy_discoverable))).
Defined.


(* ===================================================================== *)
(** * Connecting (lines 189-206) *)
(* ===================================================================== *)

(** A server that cannot be reached. *)
Module Offline.

Definition env : environment :=
  {| DB := nat;
     pq_connect := fun _ => inl (sql_error "could not connect to server");
     pq_begin := fun d => (S d, None);
     pq_exec := fun d statement => (d, Toy.server statement);
     pq_commit := fun d => (d, None);
     pq_abort := fun d => d;
     what := Toy.message;
     LoadFile := fun file =>
                   if String.eqb file "pgi.yaml" then inr Toy.config
                   else if String.eqb file "no_tables.yaml"
                   then inr (Yaml.Map [("connection",
                                        Yaml.Map [("dbname", Yaml.Scalar "pgi")])])
                   else if String.eqb file "scalar.yaml" then inr (Yaml.Scalar "pgi")
                   else if String.eqb file "empty.yaml" then inr Yaml.Null
                   else inl (load_error "bad file");
     can_open := fun _ => true;
     decode_int := Toy.decode;
     null_as_string := None;
     string_format := Toy.format;
     truncate := fun s w => Str.take (Z.to_nat w) s;
     time_point_t := string;
     ISO_8601 := fun tp => tp |}.

End Offline.

Section Connecting.

Variable E : environment.

(** The world after [c_ = buff]. *)
Definition connected_to (d : DB E) (w : world E) : world E :=
  mk_world (db_config_ w) (Some d) (log w) (cout w) (cerr w) (files w).

Lemma try_catch_throws (A : Type) (m : M E A) (h : exn -> M E A) (w w' : world E) (e : exn) :
  m w = Throw e w' -> try_catch m h w = h e w'.
Proof. intros H. unfold try_catch. now rewrite H. Qed.

(** The loop of [connect] reads the tree and touches nothing: it comes to
    its end or throws in the world it started in. *)
Lemma connect_reads (items : list (option (string * Yaml.node))) (w : world E) :
  forall ss : OStream.t,
    (exists ss',
        fold_m items
               (fun ss it =>
                  k <- first_as_string it ;;
                  v <- second_as_string it ;;
                  ret (OStream.write " " (OStream.write v (OStream.write "=" (OStream.write k ss)))))
               ss w = Ret ss' w)
    \/ (exists e,
           fold_m items
                  (fun ss it =>
                     k <- first_as_string it ;;
                     v <- second_as_string it ;;
                     ret (OStream.write " " (OStream.write v (OStream.write "=" (OStream.write k ss)))))
                  ss w = Throw e w).
Proof.
  induction items as [|it items IH]; intros ss.
  - left. exists ss. reflexivity.
  - cbn [fold_m]. unfold bind at 1 4.
    destruct it as [[k v]|].
    + unfold bind at 1 3. cbn [first_as_string]. unfold ret at 1 3.
      unfold bind at 1 2. cbn [second_as_string].
      destruct v as [|s|l|m]; cbn [as_string].
      * destruct (null_as_string E) as [s|].
        -- unfold ret at 1 3. unfold ret at 1 2. apply IH.
        -- right. eexists. reflexivity.
      * unfold ret at 1 3. unfold ret at 1 2. apply IH.
      * right. eexists. reflexivity.
      * right. eexists. reflexivity.
    + right. eexists. reflexivity.
Qed.

(** What [connect] comes to once the connection string is known. *)
Definition attempt (connection_string : string) (w : world E) : outcome E unit :=
  match pq_connect E connection_string with
  | inr d => Ret tt (connected_to d w)
  | inl e => Ret tt (logged (what E e) w)
  end.

(** [connect] on a map of scalars. *)
Lemma connect_attempt (connection : list (string * string)) (w : world E) :
  connect (Some (Yaml.Map (typed connection))) w = attempt (connection_string connection) w.
Proof.
  unfold connect, attempt, try_catch. unfold bind at 1.
  rewrite OStreamFacts.empty_holding, connect_loop.
  unfold bind, new_connection, OStream.str, OStream.holding. cbn [OStream.buf].
  change ("" ++ connection_string connection) with (connection_string connection).
  destruct (pq_connect E (connection_string connection)) as [e|d]; reflexivity.
Qed.

(** [connect] on a node that has nothing to iterate over. *)
Lemma connect_no_items (connection_config : option Yaml.node) (w : world E) :
  Yaml.items connection_config = [] ->
  connect connection_config w = attempt "" w.
Proof.
  intros Hitems. unfold connect, attempt, try_catch. rewrite Hitems.
  unfold bind, new_connection. cbn.
  destruct (pq_connect E "") as [e|d]; reflexivity.
Qed.

(** [connect] returns, in one of two ways. *)
Lemma connect_returns (connection_config : option Yaml.node) (w : world E) :
  (exists d, connect connection_config w = Ret tt (connected_to d w))
  \/ (exists e, connect connection_config w = Ret tt (logged (what E e) w)).
Proof.
  unfold connect.
  destruct (connect_reads (Yaml.items connection_config) w OStream.empty)
    as [[ss' H]|[e H]].
  - destruct (pq_connect E (OStream.str ss')) as [e|d] eqn:Hd.
    + right. exists e. erewrite try_catch_throws; [reflexivity|].
      unfold bind at 1. rewrite H. unfold bind, new_connection. now rewrite Hd.
    + left. exists d. apply try_catch_returns.
      unfold bind at 1. rewrite H. unfold bind, new_connection. now rewrite Hd.
  - right. exists e. erewrite try_catch_throws; [reflexivity|].
    unfold bind at 1. now rewrite H.
Qed.

End Connecting.

(** X1. [connect] never throws and never stops half-way: either it stores
    the new connection and leaves everything else alone, or it writes the
    message of the exception to standard error and leaves the worker, its
    connection member included, as it was. *)
Theorem connect_swallows_failure (E : environment) (connection_config : option Yaml.node)
        (w : world E) :
  (exists d, connect connection_config w
             = Ret tt (mk_world (db_config_ w) (Some d) (log w) (cout w) (cerr w) (files w)))
  \/ (exists e, connect connection_config w
                = Ret tt (mk_world (db_config_ w) (c_ w) (log w) (cout w)
                                   (cerr w ++ what E e ++ Str.nl) (files w))).
Proof. exact (connect_returns connection_config w). Qed.

(** X2. The connection string is the pairs of the [connection] section in
    the order of the file, each as key=value followed by one blank (the
    last one too); a section that is missing, null or a scalar gives the
    empty string, and a sequence gives no connection attempt at all.
    The server's answer decides between the two ways [connect] returns. *)
Theorem connect_builds_connection_string (E : environment) (w : world E) :
  (forall connection : list (string * string),
      connect (Some (Yaml.Map (typed connection))) w
      = match pq_connect E (Str.concat_map (fun kv => fst kv ++ "=" ++ snd kv ++ " ")
                                           connection) with
        | inr d => Ret tt (connected_to d w)
        | inl e => Ret tt (logged (what E e) w)
        end)
  /\ (forall connection_config,
         connection_config = None \/ connection_config = Some Yaml.Null
         \/ (exists s, connection_config = Some (Yaml.Scalar s)) ->
         connect connection_config w
         = match pq_connect E "" with
           | inr d => Ret tt (connected_to d w)
           | inl e => Ret tt (logged (what E e) w)
           end)
  /\ (forall n l,
         connect (Some (Yaml.Sequence (n :: l))) w
         = Ret tt (logged (what E (yaml_error Yaml.InvalidNode)) w)).
Proof.
  split; [|split].
  - intros connection. exact (connect_attempt connection w).
  - intros cc Hcc. apply connect_no_items.
    destruct Hcc as [->|[->|[s ->]]]; reflexivity.
  - intros n l. reflexivity.
Qed.

(* ===================================================================== *)
(** * What escapes the constructor (lines 15-26) *)
(* ===================================================================== *)

Section ConstructorFailures.

Variable E : environment.

(** A [try] block whose handler is [report] lets no exception out. *)
Lemma try_catch_report (m : M E unit) (w : world E) :
  (exists w', try_catch m (@report E) w = Ret tt w')
  \/ (exists u, try_catch m (@report E) w = Undefined u).
Proof.
  unfold try_catch. destruct (m w) as [[] w'|e w'|u].
  - left. now exists w'.
  - left. eexists. reflexivity.
  - right. now exists u.
Qed.

Lemma explore_tables_no_throw (tables : option Yaml.node) (w : world E) :
  (exists w', explore_tables tables w = Ret tt w')
  \/ (exists u, explore_tables tables w = Undefined u).
Proof. unfold explore_tables. apply try_catch_report. Qed.

Lemma get_column_details_no_throw (t : string) (w : world E) :
  (exists w', get_column_details t w = Ret tt w')
  \/ (exists u, get_column_details t w = Undefined u).
Proof. unfold get_column_details. apply try_catch_report. Qed.

(** [drop_yaml] returns, having written the tree or nothing. *)
Lemma drop_yaml_returns (output_file : string) (w : world E) :
  drop_yaml output_file w
  = Ret tt (if can_open E output_file
            then mk_world (db_config_ w) (c_ w) (log w) (cout w) (cerr w)
                          (files w ++ [(output_file, db_config_ w)])%list
            else w).
Proof. unfold drop_yaml, try_catch. now destruct (can_open E output_file). Qed.

(** A subscript on a root that is no scalar can be read, and leaves a
    map. *)
Lemma root_get_key (k : string) (w : world E) :
  (forall s, db_config_ w <> Yaml.Scalar s) ->
  exists v w1, root_get k w = Ret v w1 /\ exists m, db_config_ w1 = Yaml.Map m.
Proof.
  intros Hroot. unfold root_get.
  destruct (db_config_ w) as [|s|l|m]; cbn;
    try (do 2 eexists; split; [reflexivity | eexists; reflexivity]).
  now destruct (Hroot s).
Qed.

(** The constructor body after the file was loaded, on a root that is no
    scalar: nothing is thrown. *)
Lemma constructor_body_no_throw (output_file : string) (w : world E) (e : exn) (w' : world E) :
  (forall s, db_config_ w <> Yaml.Scalar s) ->
  (connection_config <- root_get "connection" ;;
   connect connection_config ;;;
   tables <- root_get "tables" ;;
   explore_tables tables ;;;
   if negb (String.eqb output_file "") then drop_yaml output_file else ret tt) w
  <> Throw e w'.
Proof.
  intros Hroot.
  destruct (@root_get_key "connection" w Hroot) as (cc & wa & Hcc & m & Hm).
  unfold bind at 1. rewrite Hcc. unfold bind at 1.
  assert (Hnext : forall w1 : world E,
             db_config_ w1 = db_config_ wa ->
             (tables <- root_get "tables" ;;
              explore_tables tables ;;;
              if negb (String.eqb output_file "") then drop_yaml output_file else ret tt) w1
             <> Throw e w').
  { intros w1 Hcfg.
    assert (Hroot1 : forall s, db_config_ w1 <> Yaml.Scalar s)
      by (rewrite Hcfg, Hm; discriminate).
    destruct (@root_get_key "tables" w1 Hroot1) as (tables & wb & Htables & _).
    unfold bind at 1. rewrite Htables. unfold bind at 1.
    destruct (explore_tables_no_throw tables wb) as [[w2 H]|[u H]]; rewrite H;
      [|discriminate].
    destruct (negb (String.eqb output_file "")); [rewrite drop_yaml_returns|];
      discriminate. }
  destruct (connect_returns cc wa) as [[d H]|[e0 H]]; rewrite H; apply Hnext; reflexivity.
Qed.

End ConstructorFailures.

(** X3. The only exceptions that leave the constructor are those of reading
    the configuration: the one [YAML::LoadFile] throws, which is passed
    on before anything else is done, and the subscript on a document that
    is a plain scalar.  Whatever happens later is reported on standard
    error by the helper it happens in. *)
Theorem constructor_throws_iff (E : environment) (configuration_file output_file : string) :
  (forall e, LoadFile E configuration_file = inl e ->
             DatabaseWorker configuration_file output_file (initial E) = Throw e (initial E))
  /\ (forall s, LoadFile E configuration_file = inr (Yaml.Scalar s) ->
                DatabaseWorker configuration_file output_file (initial E)
                = Throw (yaml_error Yaml.BadSubscript)
                        (@mk_world E (Yaml.Scalar s) None [] "" "" []))
  /\ (forall e w',
         DatabaseWorker configuration_file output_file (initial E) = Throw e w' ->
         LoadFile E configuration_file = inl e
         \/ exists s, LoadFile E configuration_file = inr (Yaml.Scalar s)).
Proof.
  split; [|split].
  - intros e Hload. unfold DatabaseWorker, bind, load_config. now rewrite Hload.
  - intros s Hload. unfold DatabaseWorker. unfold bind at 1. unfold load_config.
    rewrite Hload. reflexivity.
  - intros e w'. unfold DatabaseWorker. unfold bind at 1. unfold load_config.
    destruct (LoadFile E configuration_file) as [e0|cfg].
    + intros [= <- _]. now left.
    + intros H. right.
      destruct cfg as [|s|l|m]; try (now exists s); exfalso;
        revert H; apply constructor_body_no_throw; intros s; discriminate.
Qed.

Lemma constructor_throws_iff_witness :
  DatabaseWorker "missing.yaml" "" (initial Offline.env)
  = Throw (load_error "bad file") (initial Offline.env)
  /\ DatabaseWorker "scalar.yaml" "" (initial Offline.env)
     = Throw (yaml_error Yaml.BadSubscript)
             (@mk_world Offline.env (Yaml.Scalar "pgi") None [] "" "" []).
Proof.
  split.
  - exact (proj1 (@constructor_throws_iff Offline.env "missing.yaml" "") _ eq_refl).
  - exact (proj1 (proj2 (@constructor_throws_iff Offline.env "scalar.yaml" "")) "pgi" eq_refl).
Defined.

Section Unconnected.

Variable E : environment.

(** Without a connection the discovery of a table fails at its first
    query, after the two segments were recorded. *)
Lemma get_column_details_unconnected (t : string) (w : world E) :
  c_ w = None ->
  well_formed t (db_config_ w) ->
  get_column_details t w = Undefined NullConnection.
Proof.
  intros Hc Hwf. unfold get_column_details, try_catch.
  destruct (IStream.getline (IStream.of_string t) "" ".") as [schema ss1].
  destruct (IStream.getline ss1 schema ".") as [table ss2].
  destruct (@config_assign_reachable E ["tables_details"; t; "schema"] (Yaml.Scalar schema) w
                                     (well_formed_key "schema" Hwf))
    as (cfg1 & Hassign1 & Hrun1).
  change (assigned_under t "schema" [] (Yaml.Scalar schema) (db_config_ w) cfg1) in Hassign1.
  set (w1 := mk_world cfg1 (c_ w) (log w) (cout w) (cerr w) (files w)) in *.
  assert (Hwf1 : well_formed t (db_config_ w1)).
  { apply (assigned_well_formed_key (k := "schema") (v := Yaml.Scalar schema)
                                    (cfg := db_config_ w)); [discriminate | exact Hassign1 | exact Hwf]. }
  destruct (@config_assign_reachable E ["tables_details"; t; "table"] (Yaml.Scalar table) w1
                                     (well_formed_key "table" Hwf1))
    as (cfg2 & Hassign2 & Hrun2).
  unfold bind at 1. rewrite Hrun1.
  unfold bind at 1. rewrite Hrun2.
  unfold bind at 1. unfold discover_columns. unfold bind at 1.
  unfold execute, in_work. cbn [c_ w1]. rewrite Hc. reflexivity.
Qed.

Lemma explore_tables_unconnected (t : string) (rest : list Yaml.node) (w : world E) :
  c_ w = None ->
  well_formed t (db_config_ w) ->
  explore_tables (Some (Yaml.Sequence (Yaml.Scalar t :: rest))) w = Undefined NullConnection.
Proof.
  intros Hc Hwf. unfold explore_tables, try_catch.
  cbn [Yaml.size List.length seq for_each].
  unfold bind at 1. unfold bind at 1. cbn [at_index nth_error as_string]. unfold ret at 1.
  now rewrite (@get_column_details_unconnected t w Hc Hwf).
Qed.

End Unconnected.

(** X4. When the server refuses the connection, the constructor reports it
    and goes on without one.  With a first declared table it then runs
    into the null connection at that table's first query: its behaviour is
    undefined.  With no [tables] section it returns, and the worker it
    leaves has undefined behaviour at its first statement. *)
Theorem constructor_without_connection (E : environment)
        (configuration_file output_file : string) (root : Yaml.pairs)
        (connection : list (string * string)) (e : exn) :
  LoadFile E configuration_file = inr (Yaml.Map root) ->
  Yaml.assoc "connection" root = Some (Yaml.Map (typed connection)) ->
  pq_connect E (connection_string connection) = inl e ->
  (forall t rest,
      Yaml.assoc "tables" root = Some (Yaml.Sequence (Yaml.Scalar t :: rest)) ->
      Yaml.assoc "tables_details" root = None ->
      DatabaseWorker configuration_file output_file (initial E) = Undefined NullConnection)
  /\ (Yaml.assoc "tables" root = None ->
      DatabaseWorker configuration_file "" (initial E)
      = Ret tt (@mk_world E (Yaml.Map root) None [] "" (what E e ++ Str.nl) [])
      /\ forall t, clear t (@mk_world E (Yaml.Map root) None [] "" (what E e ++ Str.nl) [])
                   = Undefined NullConnection).
Proof.
  intros Hload Hconn Hrefused.
  set (w1 := @mk_world E (Yaml.Map root) None [] "" "" []).
  assert (Hload1 : load_config configuration_file (initial E) = Ret tt w1).
  { unfold load_config. now rewrite Hload. }
  assert (Hcc : root_get "connection" w1 = Ret (Some (Yaml.Map (typed connection))) w1).
  { rewrite (@root_get_map E "connection" root w1 eq_refl). now rewrite Hconn. }
  assert (Hconnect : connect (Some (Yaml.Map (typed connection))) w1
                     = Ret tt (logged (what E e) w1)).
  { rewrite connect_attempt. unfold attempt. now rewrite Hrefused. }
  split.
  - intros t rest Htables Hdetails.
    unfold DatabaseWorker. unfold bind at 1. rewrite Hload1.
    unfold bind at 1. rewrite Hcc. unfold bind at 1. rewrite Hconnect.
    unfold bind at 1.
    rewrite (@root_get_map E "tables" root (logged (what E e) w1) eq_refl), Htables.
    unfold bind at 1.
    rewrite explore_tables_unconnected; [reflexivity | reflexivity |].
    unfold well_formed, reachable. cbn. unfold Yaml.subscript. cbn.
    rewrite Hdetails. cbn. eexists. reflexivity.
  - intros Htables. split; [|reflexivity].
    unfold DatabaseWorker. unfold bind at 1. rewrite Hload1.
    unfold bind at 1. rewrite Hcc. unfold bind at 1. rewrite Hconnect.
    unfold bind at 1.
    rewrite (@root_get_map E "tables" root (logged (what E e) w1) eq_refl), Htables.
    reflexivity.
Qed.

Lemma constructor_without_connection_witness :
  DatabaseWorker "pgi.yaml" "" (initial Offline.env) = Undefined NullConnection
  /\ DatabaseWorker "no_tables.yaml" "" (initial Offline.env)
     = Ret tt (@mk_world Offline.env
                         (Yaml.Map [("connection", Yaml.Map [("dbname", Yaml.Scalar "pgi")])])
                         None [] "" ("could not connect to server" ++ Str.nl) []).
Proof.
  split.
  - refine (proj1 (@constructor_without_connection Offline.env "pgi.yaml" ""
                     [("connection",
                       Yaml.Map [("dbname", Yaml.Scalar "pgi"); ("user", Yaml.Scalar "me")]);
                      ("tables", Yaml.Sequence [Yaml.Scalar "public.t"]);
                      ("field_length_mapping",
                       Yaml.Map [("int4", Yaml.Scalar "4"); ("timestamp", Yaml.Scalar "19")])]
                     [("dbname", "pgi"); ("user", "me")]
                     (sql_error "could not connect to server")
                     eq_refl eq_refl eq_refl) "public.t" [] eq_refl eq_refl).
  - refine (proj1 (proj2 (@constructor_without_connection Offline.env "no_tables.yaml" ""
                     [("connection", Yaml.Map [("dbname", Yaml.Scalar "pgi")])]
                     [("dbname", "pgi")]
                     (sql_error "could not connect to server")
                     eq_refl eq_refl eq_refl) eq_refl)).
Defined.

(* ===================================================================== *)
(** * The list of tables (lines 208-218 and 335-341) *)
(* ===================================================================== *)

(** Configurations whose [tables] section is not what the worker takes
    it for. *)
Module Odd.

(** The second entry of the list is a map, not an identifier. *)
Definition mixed : Yaml.node :=
  Yaml.Sequence [Yaml.Scalar "public.t";
                 Yaml.Map [("name", Yaml.Scalar "public.u")];
                 Yaml.Scalar "public.v"].

(** The tables are given as the keys of a map. *)
Definition keyed : Yaml.node :=
  Yaml.Map [("tables", Yaml.Map [("public.t", Yaml.Null)])].

End Odd.

Section TableList.

Variable E : environment.
Variable cols : string -> list Pq.column.
Variable typname : Z -> string.
Variable key : string -> string.

Lemma as_string_refused (n : option Yaml.node) (w : world E) :
  node_string E n = None -> as_string n w = Throw (yaml_error Yaml.BadConversion) w.
Proof.
  unfold node_string, as_string. destruct n as [[|s|l|m]|]; try reflexivity.
  - intros ->. reflexivity.
  - discriminate.
Qed.

(** The loop of [explore_tables] over a list whose first entries are
    identifiers and whose next entry is none: the tables before that entry
    are gone through, then the conversion throws. *)
Lemma for_each_index_until (f : string -> M E unit) (bad : Yaml.node) (rest : list Yaml.node)
      (ts : list string) :
  node_string E (Some bad) = None ->
  forall (pre : list string) (w : world E),
    for_each (seq (List.length pre) (List.length ts + S (List.length rest)))
             (fun i =>
                table_name <- as_string (at_index
                                           E (Some (Yaml.Sequence
                                                      (map Yaml.Scalar (pre ++ ts)
                                                           ++ bad :: rest)%list)) i) ;;
                f table_name) w
    = (for_each ts f ;;; throw (yaml_error Yaml.BadConversion)) w.
Proof.
  intros Hbad. induction ts as [|t ts IH]; intros pre w.
  - cbn [List.length Nat.add seq for_each]. rewrite app_nil_r.
    unfold bind at 1. unfold bind at 1. unfold at_index at 1.
    rewrite nth_error_app2 by (rewrite length_map; lia).
    rewrite length_map, Nat.sub_diag. cbn [nth_error].
    rewrite (as_string_refused _ w Hbad). reflexivity.
  - assert (Hnth : nth_error (map Yaml.Scalar (pre ++ t :: ts) ++ bad :: rest)%list
                             (List.length pre) = Some (Yaml.Scalar t)).
    { rewrite map_app, <- app_assoc, nth_error_app2 by (rewrite length_map; lia).
      now rewrite length_map, Nat.sub_diag. }
    cbn [List.length Nat.add seq for_each].
    unfold bind at 1. unfold bind at 1. unfold at_index at 1.
    rewrite Hnth. cbn [as_string]. unfold ret at 1.
    unfold bind at 2. unfold bind at 2.
    destruct (f t w) as [[] w1|e w1|u]; try reflexivity.
    specialize (IH (pre ++ [t])%list w1).
    rewrite length_app, Nat.add_1_r, <- app_assoc in IH.
    cbn [app] in IH. rewrite IH. reflexivity.
Qed.

(** [explore_tables] on such a list. *)
Lemma explore_tables_until (ts : list string) (bad : Yaml.node) (rest : list Yaml.node)
      (w : world E) (d : DB E) :
  c_ w = Some d ->
  node_string E (Some bad) = None ->
  (forall t, In t ts -> well_formed t (db_config_ w)) ->
  (forall t, In t ts -> discoverable E cols typname key t) ->
  exists w',
    explore_tables (Some (Yaml.Sequence (map Yaml.Scalar ts ++ bad :: rest)%list)) w
    = Ret tt w'
    /\ (forall t, In t ts -> populated cols typname key t (db_config_ w'))
    /\ Pq.statements (log w')
       = (Pq.statements (log w) ++ flat_map (statements_for E cols) ts)%list
    /\ cerr w' = cerr w ++ what E (yaml_error Yaml.BadConversion) ++ Str.nl.
Proof.
  intros Hc Hbad Hwf Hdisc.
  destruct (@explore_loop E cols typname key ts w d Hc Hwf Hdisc)
    as (w1 & Hrun & Hpop & _ & _ & Herr & _ & _ & Hlog).
  exists (logged (what E (yaml_error Yaml.BadConversion)) w1).
  split; [|split; [exact Hpop | split; [exact Hlog | cbn; now rewrite Herr]]].
  unfold explore_tables.
  erewrite try_catch_throws; [reflexivity|].
  cbn [Yaml.size]. rewrite length_app, length_map. cbn [List.length].
  pose proof (@for_each_index_until (@get_column_details E) bad rest ts Hbad [] w) as Hloop.
  cbn [List.length app] in Hloop. rewrite Hloop.
  unfold bind. now rewrite Hrun.
Qed.

(** [explore_if_unknown] where [tables] cannot be appended to. *)
Lemma explore_if_unknown_refused (t : string) (tables : Yaml.node) (w : world E) :
  Yaml.get ["tables_details"; t] (Some (db_config_ w)) = inr None ->
  Yaml.get ["tables"] (Some (db_config_ w)) = inr (Some tables) ->
  Yaml.push_back (Yaml.Scalar t) (Some tables) = inl Yaml.BadPushback ->
  explore_if_unknown t w = Throw (yaml_error Yaml.BadPushback) w.
Proof.
  intros Hunknown Htables Hpush. unfold explore_if_unknown.
  unfold bind at 1. rewrite (config_get_eq _ _ Hunknown).
  unfold bind at 1. rewrite (config_get_eq _ _ Htables).
  unfold bind at 1. now rewrite Hpush.
Qed.

End TableList.

(** X5. [explore_tables] stops at the first entry of the list that cannot be
    read as a string (a map, a sequence; a null where yaml-cpp does not
    read nulls as strings): the tables before it are discovered, the
    exception is reported, and the entries after it are never looked at. *)
Theorem explore_tables_stops_at_bad_entry (E : environment) (cols : string -> list Pq.column)
        (typname : Z -> string) (key : string -> string)
        (ts : list string) (bad : Yaml.node) (rest : list Yaml.node)
        (w : world E) (d : DB E) :
  c_ w = Some d ->
  node_string E (Some bad) = None ->
  (forall t, In t ts -> well_formed t (db_config_ w)) ->
  (forall t, In t ts -> discoverable E cols typname key t) ->
  exists w',
    explore_tables (Some (Yaml.Sequence (map Yaml.Scalar ts ++ bad :: rest)%list)) w
    = Ret tt w'
    /\ (forall t, In t ts -> populated cols typname key t (db_config_ w'))
    /\ Pq.statements (log w')
       = (Pq.statements (log w) ++ flat_map (statements_for E cols) ts)%list
    /\ cerr w' = cerr w ++ what E (yaml_error Yaml.BadConversion) ++ Str.nl.
Proof. exact (@explore_tables_until E cols typname key ts bad rest w d). Qed.

Lemma explore_tables_stops_at_bad_entry_witness :
  exists w',
    explore_tables (Some Odd.mixed) toy_connected = Ret tt w'
    /\ (forall t, In t ["public.t"] ->
                  populated (fun _ => Toy.t_columns) toy_typname (fun _ => "id") t
                            (db_config_ w'))
    /\ Pq.statements (log w')
       = ([] ++ flat_map (statements_for Toy.env (fun _ => Toy.t_columns)) ["public.t"])%list
    /\ cerr w' = "" ++ "bad conversion" ++ Str.nl.
Proof.
  refine (@explore_tables_stops_at_bad_entry
            Toy.env (fun _ => Toy.t_columns) toy_typname (fun _ => "id")
            ["public.t"] (Yaml.Map [("name", Yaml.Scalar "public.u")])
            [Yaml.Scalar "public.v"] toy_connected (0 : DB Toy.env)
            eq_refl eq_refl _ toy_discoverable).
  intros t _. unfold well_formed, reachable. eexists. reflexivity.
Defined.



(* ===================================================================== *)
(** * INSERT on the edges (lines 112-179 and 314-333) *)
(* ===================================================================== *)

(** A worker that knows a table [t] of which the discovery found no
    column. *)
Definition t_bare : world Toy.env :=
  @mk_world Toy.env
            (Yaml.Map [("tables", Yaml.Sequence [Yaml.Scalar "t"]);
                       ("tables_details",
                        Yaml.Map [("t", Yaml.Map [("schema", Yaml.Scalar "t");
                                                  ("table", Yaml.Scalar "t");
                                                  ("primary_key", Yaml.Scalar "_none_")])])])
            (Some 0) [] "" "" [].

Section InsertEdges.

Variable E : environment.

(** Stepping back over the last two characters and writing at least two
    replaces them. *)
Lemma overwrite_two (s : string) (a b : ascii) (x : string) :
  2 <= length x ->
  OStream.write x (OStream.seekp_cur (-2) (OStream.holding (s ++ String a (String b ""))))
  = OStream.holding (s ++ x).
Proof.
  intros Hx.
  change (-2)%Z with (- Z.of_nat (length (String a (String b ""))))%Z.
  apply OStreamFacts.overwrite_tail. exact Hx.
Qed.

(** What [close_values] makes of a stream, whatever its last two
    characters are: the one before last becomes the closing parenthesis,
    the last one stays. *)
Lemma close_values_any (s : string) (a b : ascii) :
  close_values (OStream.holding (s ++ String a (String b ""))) = s ++ ")" ++ String b "".
Proof.
  unfold close_values.
  change (-2)%Z with (- Z.of_nat (length (String a (String b ""))))%Z.
  now rewrite OStreamFacts.overwrite_tail_short.
Qed.

Lemma insert_into_text (t0 : string) (c : ascii) :
  (("" ++ "INSERT INTO ") ++ t0 ++ String c "") ++ "("
  = ("INSERT INTO " ++ t0) ++ String c (String "(" "").
Proof.
  change ("" ++ "INSERT INTO ") with "INSERT INTO ".
  rewrite !StrFacts.append_assoc. reflexivity.
Qed.

(** The first part when the loop over the columns writes nothing. *)
Lemma first_part_cut (t0 : string) (c : ascii) (w : world E) (columns : option Yaml.node) :
  Yaml.get ["tables_details"; t0 ++ String c ""; "columns"] (Some (db_config_ w))
  = inr columns ->
  (forall s, fold_m (Yaml.items columns) (first_part_column (t0 ++ String c ""))
                    (OStream.holding s) w
             = Ret (OStream.holding s) w) ->
  insert_statement_first_part (t0 ++ String c "") w
  = Ret ("INSERT INTO " ++ t0 ++ ") VALUES(") w.
Proof.
  intros Hcols Hloop. unfold insert_statement_first_part, bind.
  rewrite (config_get_eq _ _ Hcols).
  rewrite OStreamFacts.empty_holding, !OStreamFacts.write_holding, Hloop.
  rewrite insert_into_text, overwrite_two by (simpl; lia).
  unfold ret, OStream.str, OStream.holding. cbn [OStream.buf].
  now rewrite StrFacts.append_assoc.
Qed.

(** A positional [insert] on a table that has an entry, from the first
    part on. *)
Lemma insert_after_first_part (t first_part : string) (entry : Yaml.node)
      (values : list streamed) (w : world E) :
  Yaml.get ["tables_details"; t] (Some (db_config_ w)) = inr (Some entry) ->
  insert_statement_first_part t w = Ret first_part w ->
  insert t values w
  = (execute (close_values
                (OStream.holding (first_part
                                    ++ Str.concat_map (fun v => render v ++ ", ") values))) ;;;
     ret tt) w.
Proof.
  intros Hentry Hfirst. unfold insert.
  unfold bind at 1. rewrite (@explore_known E w t entry Hentry).
  unfold bind at 1. rewrite Hfirst.
  rewrite OStreamFacts.empty_holding, OStreamFacts.write_holding.
  rewrite (OStreamFacts.fold_write2_holding render (fun _ => ", ")).
  reflexivity.
Qed.

Lemma insert_vector_after_first_part (T : Type) (S : Streamable T) (t first_part : string)
      (entry : Yaml.node) (vector : list T) (w : world E) :
  Yaml.get ["tables_details"; t] (Some (db_config_ w)) = inr (Some entry) ->
  insert_statement_first_part t w = Ret first_part w ->
  insert_vector t vector w
  = (execute (close_values
                (OStream.holding (first_part
                                    ++ Str.concat_map (fun v => stream_out v ++ ", ") vector))) ;;;
     ret tt) w.
Proof.
  intros Hentry Hfirst. unfold insert_vector.
  unfold bind at 1. rewrite (@explore_known E w t entry Hentry).
  unfold bind at 1. rewrite Hfirst.
  rewrite OStreamFacts.empty_holding, OStreamFacts.write_holding.
  rewrite (OStreamFacts.fold_write2_holding stream_out (fun _ => ", ")).
  reflexivity.
Qed.

(** The text of [insert_from_maps] for no pair at all: on a stream that
    holds one character [seekp(-2)] fails, and the closing parenthesis is
    not written. *)
Lemma insert_from_maps_nothing (t : string) :
  insert_from_maps_statement t [] = "INSERT INTO " ++ t ++ " (VALUES (".
Proof.
  unfold insert_from_maps_statement. cbn [fold_left].
  change (OStream.str (OStream.write ")" (OStream.seekp_cur (-2)
                                            (OStream.write "(" OStream.empty))))
    with "(".
  rewrite OStreamFacts.empty_holding, !OStreamFacts.write_holding.
  unfold OStream.str, OStream.holding. cbn [OStream.buf].
  change ("" ++ "INSERT INTO ") with "INSERT INTO ".
  rewrite !StrFacts.append_assoc. reflexivity.
Qed.

End InsertEdges.






(* ===================================================================== *)
(** * Printing, further (lines 57-109) *)
(* ===================================================================== *)

(** The catalog lookups that printing a row asks for: one per field. *)
Definition lookups (E : environment) (row : Pq.row) : list string :=
  map (fun f => typname_statement E (Pq.type f)) row.

(** The length of a line of the table: every column takes its width and
    the two characters of the separator. *)
Definition line_length (typname : Z -> string) (width : string -> Z)
           (columns : list Pq.column) : nat :=
  list_sum (map (fun c => Z.to_nat (field_width (Pq.column_name c)
                                                (width (typname (Pq.column_type c)))) + 2)
                columns).

(** The lines [print] writes for a result. *)
Definition table_lines (E : environment) (typname : Z -> string) (width : string -> Z)
           (r : Pq.result) : list string :=
  match Pq.rows r with
  | [] => []
  | vals :: others =>
    header_text E typname width (Pq.row_of r vals)
      :: map (fun vals' => row_text E typname width (Pq.row_of r vals')) (vals :: others)
  end.

(** A mapping whose width for [text] is no number. *)
Definition wide_config : Yaml.node :=
  Yaml.Map [("field_length_mapping",
             Yaml.Map [("int4", Yaml.Scalar "4"); ("text", Yaml.Scalar "wide")])].

Section PrintingMore.

Variable E : environment.
Variable typname : Z -> string.
Variable width : string -> Z.

Lemma print_fields_lookups (header : bool) (row : Pq.row) :
  forall (a b : string) (w : world E) (d : DB E),
    c_ w = Some d -> Forall (printable E typname width (db_config_ w)) row ->
    exists w',
      fold_m row (print_field header) (OStream.holding a, OStream.holding b) w
      = Ret (OStream.holding (a ++ row_text E typname width row),
             OStream.holding (b ++ if header then header_text E typname width row else ""))
            w'
      /\ continues w w' (lookups E row).
Proof.
  induction row as [|f row IH]; intros a b w d Hc Hok.
  - exists w. split; [|exact (@continues_refl E w d Hc)].
    simpl. unfold ret. destruct header; now rewrite ?StrFacts.append_nil_r.
  - inversion Hok as [|? ? Hf Hrow]; subst.
    destruct (@print_field_step E typname width header a b f w d Hc Hf)
      as (w1 & Hstep & Hcont1).
    pose proof Hcont1 as (Hcfg1 & _ & _ & _ & [d1 Hc1] & _).
    rewrite <- Hcfg1 in Hrow.
    destruct (IH (a ++ cell E (width_for typname width f) (Pq.c_str f))
                 (b ++ if header then cell E (width_for typname width f) (Pq.name f) else "")
                 w1 d1 Hc1 Hrow) as (w2 & Hfold & Hcont2).
    exists w2.
    split; [|exact (@continues_trans E _ _ _ _ _ Hcont1 Hcont2)].
    cbn [fold_m]. unfold bind at 1. rewrite Hstep, Hfold.
    unfold row_text, header_text. cbn [Str.concat_map].
    destruct header; now rewrite ?StrFacts.append_assoc, ?StrFacts.append_nil_r.
Qed.

Lemma print_row_lookups (header : bool) (row : Pq.row) (w : world E) (d : DB E) :
  c_ w = Some d -> Forall (printable E typname width (db_config_ w)) row ->
  exists w',
    print_row row header w
    = Ret (if header
           then header_text E typname width row ++ Str.nl ++ row_text E typname width row
           else row_text E typname width row) w'
    /\ continues w w' (lookups E row).
Proof.
  intros Hc Hok.
  destruct (@print_fields_lookups header row "" "" w d Hc Hok) as (w' & Hfold & Hcont).
  exists w'. split; [|exact Hcont].
  unfold print_row, bind. rewrite OStreamFacts.empty_holding, Hfold.
  destruct header; unfold ret; rewrite ?OStreamFacts.write_holding;
    unfold OStream.str, OStream.holding; simpl; rewrite ?StrFacts.append_assoc; reflexivity.
Qed.

(** The loop of [print], for the statements it executes. *)
Lemma print_lines_lookups (r : Pq.result) (rows : list (list (option string))) :
  forall (s : string) (header_added : bool) (w : world E) (d : DB E),
    c_ w = Some d -> table_printable E typname width (db_config_ w) r ->
    exists w' s' header_added',
      fold_m rows (print_line r) (OStream.holding s, header_added) w
      = Ret (OStream.holding s', header_added') w'
      /\ continues w w' (flat_map (fun vals => lookups E (Pq.row_of r vals)) rows).
Proof.
  induction rows as [|vals rows IH]; intros s header_added w d Hc Hok.
  - exists w, s, header_added. split; [reflexivity | exact (@continues_refl E w d Hc)].
  - destruct (@print_row_lookups (negb header_added) (Pq.row_of r vals) w d Hc
                                 (@row_printable E typname width _ r vals Hok))
      as (w1 & Hrow & Hcont1).
    pose proof Hcont1 as (Hcfg1 & _ & _ & _ & [d1 Hc1] & _).
    rewrite <- Hcfg1 in Hok.
    set (line := if negb header_added
                 then header_text E typname width (Pq.row_of r vals) ++ Str.nl
                      ++ row_text E typname width (Pq.row_of r vals)
                 else row_text E typname width (Pq.row_of r vals)) in *.
    destruct (IH ((s ++ line) ++ Str.nl) true w1 d1 Hc1 Hok)
      as (w2 & s2 & b2 & Hfold & Hcont2).
    exists w2, s2, b2.
    split; [|cbn [flat_map]; exact (@continues_trans E _ _ _ _ _ Hcont1 Hcont2)].
    cbn [fold_m]. unfold bind at 1. unfold print_line at 1. unfold bind at 1.
    rewrite Hrow. unfold ret at 1.
    rewrite !OStreamFacts.write_holding. exact Hfold.
Qed.

Lemma print_lookups (r : Pq.result) (w : world E) (d : DB E) :
  c_ w = Some d -> table_printable E typname width (db_config_ w) r ->
  exists w', print r w = Ret tt w'
             /\ Pq.statements (log w')
                = (Pq.statements (log w)
                     ++ flat_map (fun vals => lookups E (Pq.row_of r vals)) (Pq.rows r))%list.
Proof.
  intros Hc Hok.
  destruct (@print_lines_lookups r (Pq.rows r) "" false w d Hc Hok)
    as (w1 & s1 & b1 & Hfold & Hcont).
  destruct Hcont as (_ & _ & _ & _ & _ & Hlog).
  eexists. split.
  - unfold print, bind. rewrite OStreamFacts.empty_holding, Hfold. reflexivity.
  - exact Hlog.
Qed.

Lemma length_row_of (r : Pq.result) (vals : list (option string)) :
  List.length vals = List.length (Pq.columns r) ->
  List.length (Pq.row_of r vals) = List.length (Pq.columns r).
Proof.
  intros H. unfold Pq.row_of. rewrite length_map, length_combine. lia.
Qed.

Lemma lookups_count (r : Pq.result) (rows : list (list (option string))) :
  (forall vals, In vals rows -> List.length vals = List.length (Pq.columns r)) ->
  List.length (flat_map (fun vals => lookups E (Pq.row_of r vals)) rows)
  = List.length rows * List.length (Pq.columns r).
Proof.
  induction rows as [|vals rows IH]; intros H; [reflexivity|].
  cbn [flat_map List.length]. rewrite length_app, IH by (intros v Hv; apply H; now right).
  unfold lookups. rewrite length_map, length_row_of by (apply H; now left). lia.
Qed.

(** ** A width that is no number *)

Lemma field_width_unusable (column_name column_type : string) (w : world E) :
  configured_width E (db_config_ w) column_type = None ->
  exists e, field_width_of column_name column_type w = Throw (yaml_error e) w.
Proof.
  unfold configured_width, field_width_of, config_get, bind. simpl.
  destruct (Yaml.subscript (Some (db_config_ w)) "field_length_mapping") as [e|flm];
    [intros _; exists e; reflexivity|]. simpl.
  destruct (Yaml.subscript flm column_type) as [e|[[|s| |]|]]; simpl;
    try (intros _; eexists; reflexivity).
  - intros Hd. rewrite Hd. eexists. reflexivity.
  - discriminate.
Qed.

Lemma print_field_throws (header : bool) (streams : OStream.t * OStream.t) (f : Pq.field)
      (tn : string) (w : world E) (d : DB E) :
  c_ w = Some d ->
  resolves E (Pq.type f) tn ->
  configured_width E (db_config_ w) tn = None ->
  exists e w',
    print_field header streams f w = Throw (yaml_error e) w'
    /\ continues w w' [typname_statement E (Pq.type f)].
Proof.
  intros Hc Hres Hwidth.
  destruct (@typname_resolves E _ _ w d Hres Hc) as (w1 & Hty & Hcont).
  pose proof Hcont as (Hcfg & _).
  rewrite <- Hcfg in Hwidth.
  destruct (@field_width_unusable (Pq.name f) tn w1 Hwidth) as [e He].
  exists e, w1. split; [|exact Hcont].
  destruct streams as [ss headerss].
  unfold print_field, bind. now rewrite Hty, He.
Qed.

Lemma print_throws (r : Pq.result) (c : Pq.column) (cs : list Pq.column)
      (v : option string) (vs : list (option string)) (others : list (list (option string)))
      (tn : string) (w : world E) (d : DB E) :
  c_ w = Some d ->
  Pq.columns r = c :: cs ->
  Pq.rows r = (v :: vs) :: others ->
  resolves E (Pq.column_type c) tn ->
  configured_width E (db_config_ w) tn = None ->
  exists e w',
    print r w = Throw (yaml_error e) w'
    /\ continues w w' [typname_statement E (Pq.column_type c)].
Proof.
  intros Hc Hcols Hrows Hres Hwidth.
  set (f := Pq.mk_field (Pq.column_name c) (Pq.column_type c) v).
  destruct (@print_field_throws true (OStream.empty, OStream.empty) f tn w d Hc Hres Hwidth)
    as (e & w' & Hthrow & Hcont).
  exists e, w'. split; [|exact Hcont].
  assert (Hrow : Pq.row_of r (v :: vs)
                 = f :: map (fun cv => Pq.mk_field (Pq.column_name (fst cv))
                                                   (Pq.column_type (fst cv)) (snd cv))
                            (combine cs vs)).
  { unfold Pq.row_of. rewrite Hcols. reflexivity. }
  assert (Hline : print_row (Pq.row_of r (v :: vs)) true w = Throw (yaml_error e) w').
  { rewrite Hrow. unfold print_row. cbn [fold_m]. unfold bind. now rewrite Hthrow. }
  unfold print. rewrite Hrows. cbn [fold_m]. unfold bind at 1. unfold bind at 1.
  unfold print_line at 1. unfold bind at 1. cbn [negb]. now rewrite Hline.
Qed.

(** ** The shape of the lines *)

Hypothesis truncate_fits :
  forall (s : string) (W : Z), (0 <= W)%Z -> length (truncate E s W) <= Z.to_nat W.

Lemma width_covers_name (column_name : string) (configured : Z) :
  (Z.of_nat (length column_name) < 2 ^ 31)%Z ->
  (Z.of_nat (length column_name) <= field_width column_name configured)%Z.
Proof.
  intros Hshort. unfold field_width. rewrite to_int_small by lia. lia.
Qed.

(** A row of the result, rendered with [text] for the fields. *)
Lemma length_cells (text : Pq.field -> string) (columns : list Pq.column) :
  (forall c, In c columns -> (Z.of_nat (length (Pq.column_name c)) < 2 ^ 31)%Z) ->
  forall vals : list (option string),
    List.length vals = List.length columns ->
    length (Str.concat_map
              (fun f => cell E (width_for typname width f) (text f))
              (map (fun cv => Pq.mk_field (Pq.column_name (fst cv))
                                          (Pq.column_type (fst cv)) (snd cv))
                   (combine columns vals)))
    = line_length typname width columns.
Proof.
  induction columns as [|c columns IH]; intros Hshort vals Hlen.
  - reflexivity.
  - destruct vals as [|v vals]; [discriminate|].
    cbn [combine map Str.concat_map]. rewrite StrFacts.length_append.
    rewrite IH by (try (intros c' Hc'; apply Hshort; now right); simpl in Hlen; lia).
    unfold line_length. cbn [map list_sum].
    unfold width_for. cbn [Pq.name Pq.type fst snd].
    pose proof (@width_covers_name (Pq.column_name c) (width (typname (Pq.column_type c)))
                                   (Hshort c (or_introl eq_refl))) as Hcover.
    rewrite cell_length; [reflexivity | lia | apply truncate_fits; lia].
Qed.

Lemma concat_map_map (A B : Type) (g : A -> B) (f : B -> string) (l : list A) :
  Str.concat_map f (map g l) = Str.concat_map (fun a => f (g a)) l.
Proof. induction l as [|a l IH]; simpl; [reflexivity | now rewrite IH]. Qed.

Lemma table_text_lines (r : Pq.result) :
  table_text E typname width r
  = Str.concat_map (fun l => l ++ Str.nl) (table_lines E typname width r).
Proof.
  unfold table_text, table_lines.
  destruct (Pq.rows r) as [|vals others]; [reflexivity|].
  cbn [map Str.concat_map]. rewrite concat_map_map.
  now rewrite !StrFacts.append_assoc.
Qed.

Lemma table_lines_length (r : Pq.result) :
  (forall c, In c (Pq.columns r) -> (Z.of_nat (length (Pq.column_name c)) < 2 ^ 31)%Z) ->
  (forall vals, In vals (Pq.rows r) -> List.length vals = List.length (Pq.columns r)) ->
  Forall (fun l => length l = line_length typname width (Pq.columns r))
         (table_lines E typname width r).
Proof.
  intros Hshort Hvals. unfold table_lines.
  destruct (Pq.rows r) as [|vals others]; [constructor|].
  constructor.
  - unfold header_text, Pq.row_of.
    apply (@length_cells Pq.name (Pq.columns r) Hshort vals). apply Hvals. now left.
  - apply Forall_forall. intros l Hl. apply in_map_iff in Hl.
    destruct Hl as [vals' [<- Hin]].
    unfold row_text, Pq.row_of.
    apply (@length_cells Pq.c_str (Pq.columns r) Hshort vals'). apply Hvals. exact Hin.
Qed.

End PrintingMore.

Section Headers.

Variable E : environment.
Variable typname : Z -> string.
Variable width : string -> Z.

Hypothesis truncate_keeps :
  forall (s : string) (W : Z), (Z.of_nat (length s) <= W)%Z -> truncate E s W = s.

(** A header that fits its column is the name, padded. *)
Lemma header_text_padded (row : Pq.row) :
  Forall (fun f => (Z.of_nat (length (Pq.name f)) < 2 ^ 31)%Z) row ->
  header_text E typname width row
  = Str.concat_map (fun f => OStream.padded (width_for typname width f) " " (Pq.name f) ++ " |")
                   row.
Proof.
  intros Hshort. unfold header_text.
  induction row as [|f row IH]; [reflexivity|].
  inversion Hshort as [|? ? Hf Hrow]; subst.
  cbn [Str.concat_map]. rewrite (IH Hrow). f_equal.
  unfold cell, OStream.padded.
  rewrite truncate_keeps by (apply width_covers_name; exact Hf).
  now rewrite StrFacts.append_assoc.
Qed.

End Headers.



(** X11. [print] asks the catalog for the type name of every field of every
    row, in a transaction of its own each time: on a result of n rows of
    m columns it executes n times m lookups, the same m lookups for each
    row, and no other statement. *)
Theorem print_looks_up_every_field (E : environment) (typname : Z -> string)
        (width : string -> Z) (r : Pq.result) (w : world E) (d : DB E) :
  c_ w = Some d ->
  table_printable E typname width (db_config_ w) r ->
  (exists w', print r w = Ret tt w'
              /\ Pq.statements (log w')
                 = (Pq.statements (log w)
                      ++ flat_map (fun vals =>
                                     map (fun f => typname_statement E (Pq.type f))
                                         (Pq.row_of r vals))
                                  (Pq.rows r))%list)
  /\ ((forall vals, In vals (Pq.rows r) -> List.length vals = List.length (Pq.columns r)) ->
      List.length (flat_map (fun vals =>
                               map (fun f => typname_statement E (Pq.type f))
                                   (Pq.row_of r vals))
                            (Pq.rows r))
      = List.length (Pq.rows r) * List.length (Pq.columns r)).
Proof.
  intros Hc Hok. split.
  - exact (@print_lookups E typname width r w d Hc Hok).
  - exact (@lookups_count E r (Pq.rows r)).
Qed.

Lemma print_looks_up_every_field_witness :
  exists w', print toy_rows toy_connected = Ret tt w'
             /\ Pq.statements (log w')
                = [Toy.typname_query 23; Toy.typname_query 25; Toy.typname_query 1114;
                   Toy.typname_query 23; Toy.typname_query 25; Toy.typname_query 1114].
Proof.
  exact (proj1 (@print_looks_up_every_field Toy.env toy_typname toy_width toy_rows
                                            toy_connected (0 : DB Toy.env) eq_refl
                                            toy_printable)).
Defined.

(** X12. A width in [field_length_mapping] that cannot be read as an integer
    makes [as<int>()] throw at the first field of the first row whose
    type has that width; nothing in [print_row] or [print] catches it, so
    the exception reaches the caller of [print].  Nothing has been written
    by then, to standard output or to standard error, and one lookup has
    been executed. *)
Theorem print_passes_on_bad_width (E : environment) (r : Pq.result) (c : Pq.column)
        (cs : list Pq.column) (v : option string) (vs : list (option string))
        (others : list (list (option string))) (tn : string) (w : world E) (d : DB E) :
  c_ w = Some d ->
  Pq.columns r = c :: cs ->
  Pq.rows r = (v :: vs) :: others ->
  resolves E (Pq.column_type c) tn ->
  configured_width E (db_config_ w) tn = None ->
  exists e w',
    print r w = Throw (yaml_error e) w'
    /\ cout w' = cout w /\ cerr w' = cerr w
    /\ Pq.statements (log w')
       = (Pq.statements (log w) ++ [typname_statement E (Pq.column_type c)])%list.
Proof.
  intros Hc Hcols Hrows Hres Hwidth.
  destruct (@print_throws E r c cs v vs others tn w d Hc Hcols Hrows Hres Hwidth)
    as (e & w' & Hrun & _ & Hout & Herr & _ & _ & Hlog).
  exists e, w'. auto.
Qed.

Lemma print_passes_on_bad_width_witness :
  exists e w',
    print (Pq.mk_result [Pq.mk_column "name" 25] [[Some "ann"]])
          (@mk_world Toy.env wide_config (Some 0) [] "" "" [])
    = Throw (yaml_error e) w'
    /\ cout w' = "" /\ cerr w' = ""
    /\ Pq.statements (log w') = ([] ++ [typname_statement Toy.env 25])%list.
Proof.
  refine (@print_passes_on_bad_width
            Toy.env (Pq.mk_result [Pq.mk_column "name" 25] [[Some "ann"]])
            (Pq.mk_column "name" 25) [] (Some "ann") [] [] "text"
            (@mk_world Toy.env wide_config (Some 0) [] "" "" []) (0 : DB Toy.env)
            eq_refl eq_refl eq_refl _ eq_refl).
  exists [Pq.mk_column "typname" 19], []. split; [|discriminate].
  apply toy_answers. reflexivity.
Defined.

(** X13. Where [utl::truncate] leaves alone a text that fits, the header line
    shows every column name in full, padded with blanks to the width of
    its column: the width is never smaller than the name. *)
Theorem header_names_in_full (E : environment) (typname : Z -> string) (width : string -> Z)
        (row : Pq.row) (w : world E) (d : DB E) :
  c_ w = Some d ->
  Forall (printable E typname width (db_config_ w)) row ->
  (forall (s : string) (W : Z), (Z.of_nat (length s) <= W)%Z -> truncate E s W = s) ->
  Forall (fun f => (Z.of_nat (length (Pq.name f)) < 2 ^ 31)%Z) row ->
  (exists w',
      print_row row true w
      = Ret (Str.concat_map
               (fun f => (Pq.name f
                            ++ Str.fill (Z.to_nat (width_for typname width f
                                                   - Z.of_nat (length (Pq.name f)))) " ")
                           ++ " |") row
               ++ Str.nl ++ row_text E typname width row) w')
  /\ Forall (fun f => (Z.of_nat (length (Pq.name f)) <= width_for typname width f)%Z) row.
Proof.
  intros Hc Hok Hkeeps Hshort. split.
  - destruct (@print_row_text E typname width true row w d Hc Hok)
      as (w' & stmts & Hrun & _).
    exists w'. rewrite Hrun.
    now rewrite (@header_text_padded E typname width Hkeeps row Hshort).
  - apply Forall_forall. intros f Hf.
    apply width_covers_name. exact (proj1 (Forall_forall _ _) Hshort f Hf).
Qed.

Lemma take_short (s : string) (n : nat) : length s <= n -> Str.take n s = s.
Proof.
  revert n; induction s as [|c s IH]; intros n Hn; [now destruct n|].
  destruct n as [|n]; simpl in *; [lia|]. rewrite IH by lia. reflexivity.
Qed.

Lemma header_names_in_full_witness :
  exists w',
    print_row (Pq.row_of toy_rows [Some "1"; Some "ann"; Some "2024-01-01 00:00:00"])
              true toy_connected
    = Ret ("id   |name       |created_at          |" ++ Str.nl
           ++ "1    |ann        |2024-01-01 00:00:00 |") w'.
Proof.
  refine (proj1 (@header_names_in_full
                   Toy.env toy_typname toy_width
                   (Pq.row_of toy_rows [Some "1"; Some "ann"; Some "2024-01-01 00:00:00"])
                   toy_connected (0 : DB Toy.env) eq_refl
                   (@row_printable Toy.env toy_typname toy_width Toy.config toy_rows _
                                   toy_printable)
                   _ _)).
  - intros s W Hfit. cbn [truncate Toy.env]. apply take_short. lia.
  - repeat constructor.
Defined.

(** X14. Where [utl::truncate] returns no more characters than the width it
    is given, all the lines [print] writes for a result have the same
    length: the header line and every row take, per column, the width of
    the column and the two characters of the separator. *)
Theorem printed_lines_have_one_length (E : environment) (typname : Z -> string)
        (width : string -> Z) (r : Pq.result) (w : world E) (d : DB E) :
  c_ w = Some d ->
  table_printable E typname width (db_config_ w) r ->
  (forall (s : string) (W : Z), (0 <= W)%Z -> length (truncate E s W) <= Z.to_nat W) ->
  (forall c, In c (Pq.columns r) -> (Z.of_nat (length (Pq.column_name c)) < 2 ^ 31)%Z) ->
  (forall vals, In vals (Pq.rows r) -> List.length vals = List.length (Pq.columns r)) ->
  exists w',
    print r w = Ret tt w'
    /\ cout w' = cout w ++ Str.concat_map (fun l => l ++ Str.nl) (table_lines E typname width r)
    /\ Forall (fun l => length l
                        = list_sum (map (fun c =>
                                           Z.to_nat (Z.max (to_int (Z.of_nat
                                                                      (length (Pq.column_name c))))
                                                           (width (typname (Pq.column_type c))))
                                           + 2)
                                        (Pq.columns r)))
              (table_lines E typname width r)
    /\ (Pq.rows r <> [] ->
        List.length (table_lines E typname width r) = S (List.length (Pq.rows r))).
Proof.
  intros Hc Hok Hfits Hshort Hvals.
  destruct (@print_table_text E typname width r w d Hc Hok) as (w' & Hrun & Hout & _).
  exists w'. split; [exact Hrun|]. split; [|split].
  - now rewrite Hout, table_text_lines.
  - exact (@table_lines_length E typname width Hfits r Hshort Hvals).
  - intros Hrows. unfold table_lines.
    destruct (Pq.rows r) as [|vals others]; [congruence|].
    cbn [List.length]. now rewrite length_map.
Qed.

Lemma length_take_le (n : nat) (s : string) : length (Str.take n s) <= n.
Proof. rewrite StrFacts.length_take. lia. Qed.

Lemma printed_lines_have_one_length_witness :
  exists w',
    print toy_rows toy_connected = Ret tt w'
    /\ Forall (fun l => length l = 39) (table_lines Toy.env toy_typname toy_width toy_rows).
Proof.
  destruct (@printed_lines_have_one_length
              Toy.env toy_typname toy_width toy_rows toy_connected (0 : DB Toy.env)
              eq_refl toy_printable)
    as (w' & Hrun & _ & Hlen & _).
  - intros s W _. cbn [truncate Toy.env]. apply length_take_le.
  - intros c Hin. simpl in Hin. destruct Hin as [<-|[<-|[<-|[]]]]; vm_compute; reflexivity.
  - intros vals Hin. simpl in Hin. destruct Hin as [<-|[<-|[]]]; reflexivity.
  - exists w'. split; [exact Hrun | exact Hlen].
Defined.

(* ===================================================================== *)
(** * The segments of a table identifier (lines 224-231) *)
(* ===================================================================== *)

(** X15. [get_column_details] takes the text before the first dot as schema
    and the text between the first and the second dot as table.  An
    identifier without a dot is recorded as its own schema and its own
    table: the second [std::getline] finds the stream at its end and
    leaves [segment] as it was, and the primary-key query then names the
    identifier twice.  What follows a second dot is ignored, and after a
    trailing dot the table is the empty string. *)
Theorem identifier_segments (E : environment) :
  (forall t,
      IStream.split "." t = (t, None) ->
      schema_of t = t /\ table_of t = t
      /\ primary_key_statement E t
         = string_format E primary_key_format [arg_str t; arg_str t])
  /\ (forall a b c,
         IStream.split "." a = (a, None) ->
         IStream.split "." b = (b, None) ->
         schema_of (a ++ "." ++ b ++ "." ++ c) = a
         /\ table_of (a ++ "." ++ b ++ "." ++ c) = b)
  /\ (forall a,
         IStream.split "." a = (a, None) ->
         schema_of (a ++ ".") = a /\ table_of (a ++ ".") = "").
Proof.
  split; [|split].
  - intros t Ht.
    assert (Hs : schema_of t = t).
    { unfold schema_of, IStream.getline, IStream.of_string. cbn. now rewrite Ht. }
    assert (Hb : table_of t = t).
    { unfold table_of, IStream.getline, IStream.of_string. cbn. now rewrite Ht. }
    split; [exact Hs|]. split; [exact Hb|].
    unfold primary_key_statement. now rewrite Hs, Hb.
  - intros a b c Ha Hb.
    unfold schema_of, table_of, IStream.getline, IStream.of_string. cbn.
    rewrite (split_before_delimiter _ _ Ha). cbn.
    rewrite (split_before_delimiter _ _ Hb). split; reflexivity.
  - intros a Ha.
    unfold schema_of, table_of, IStream.getline, IStream.of_string. cbn.
    rewrite (split_before_delimiter _ _ Ha). split; reflexivity.
Qed.

Lemma identifier_segments_witness :
  (schema_of "orders" = "orders" /\ table_of "orders" = "orders")
  /\ (schema_of "db.public.orders" = "db" /\ table_of "db.public.orders" = "public")
  /\ (schema_of "public." = "public" /\ table_of "public." = "").
Proof.
  destruct (@identifier_segments Toy.env) as (Hplain & Hlong & Hdot).
  split; [|split].
  - destruct (Hplain "orders" eq_refl) as (Hs & Ht & _). split; assumption.
  - exact (Hlong "db" "public" "orders" eq_refl eq_refl).
  - exact (Hdot "public" eq_refl).
Defined.

(* ===================================================================== *)
(** * Statements on a table that has an entry *)
(* ===================================================================== *)

(** The events of one transaction around [statement]: it could not be
    opened, it was rolled back, or it was committed. *)
Definition one_transaction (statement : string) (events : list Pq.event) : Prop :=
  events = [Pq.Begin]
  \/ events = [Pq.Begin; Pq.Exec statement; Pq.Abort]
  \/ events = [Pq.Begin; Pq.Exec statement; Pq.Commit].

(** [w'] is [w] after one transaction around [statement]; only the
    connection, the record of its events and standard error can differ. *)
Definition after_transaction (E : environment) (statement : string) (w w' : world E) : Prop :=
  db_config_ w' = db_config_ w /\ cout w' = cout w /\ files w' = files w
  /\ (exists d, c_ w' = Some d)
  /\ exists events, log w' = (log w ++ events)%list /\ one_transaction statement events.

Section KnownTable.

Variable E : environment.

Lemma execute_one_transaction (statement : string) (w : world E) (d : DB E) :
  c_ w = Some d ->
  exists r w', execute statement w = Ret r w' /\ after_transaction statement w w'.
Proof.
  intros Hc. unfold execute, in_work, after_transaction, one_transaction. rewrite Hc.
  destruct (pq_begin E d) as [d1 [e|]].
  - rewrite caught_logged. do 2 eexists. split; [reflexivity|]. cbn. eauto 10.
  - destruct (pq_exec E d1 statement) as [d2 [e|r]].
    + rewrite caught_logged. do 2 eexists. split; [reflexivity|]. cbn. eauto 10.
    + destruct (pq_commit E d2) as [d3 [e|]].
      * rewrite caught_logged. do 2 eexists. split; [reflexivity|]. cbn. eauto 10.
      * do 2 eexists. split; [reflexivity|]. cbn. eauto 10.
Qed.

End KnownTable.



(* ===================================================================== *)
(** * A table the server does not have *)
(* ===================================================================== *)

(** A server that does not have the table asked for, and whose
    information schema answers with no row. *)
Module Sparse.

Definition server (statement : string) : exn + Pq.result :=
  if String.prefix "SELECT c.column_name, c.data_type " statement
  then inr (Pq.mk_result [Pq.mk_column "column_name" 19; Pq.mk_column "data_type" 19] [])
  else Toy.server statement.

Definition env : environment :=
  {| DB := nat;
     pq_connect := fun _ => inr 0;
     pq_begin := fun d => (S d, None);
     pq_exec := fun d statement => (d, server statement);
     pq_commit := fun d => (d, None);
     pq_abort := fun d => d;
     what := Toy.message;
     LoadFile := fun _ => inr Toy.config;
     can_open := fun _ => true;
     decode_int := Toy.decode;
     null_as_string := None;
     string_format := Toy.format;
     truncate := fun s w => Str.take (Z.to_nat w) s;
     time_point_t := string;
     ISO_8601 := fun tp => tp |}.

Definition connected : world env :=
  @mk_world env Toy.config (Some 0) [] "" "" [].

End Sparse.

(** Whatever its state, the server opens a transaction and fails
    [statement] with [e]. *)
Definition refuses (E : environment) (statement : string) (e : exn) : Prop :=
  forall d : DB E,
  exists d1 d2, pq_begin E d = (d1, None) /\ pq_exec E d1 statement = (d2, inl e).

Section Refused.

Variable E : environment.

Lemma execute_refused (statement : string) (e : exn) (w : world E) (d : DB E) :
  refuses E statement e -> c_ w = Some d ->
  exists w',
    execute statement w = Ret Pq.default_result w'
    /\ db_config_ w' = db_config_ w /\ cout w' = cout w
    /\ cerr w' = cerr w ++ what E e ++ Str.nl
    /\ files w' = files w
    /\ (exists d', c_ w' = Some d')
    /\ Pq.statements (log w') = (Pq.statements (log w) ++ [statement])%list.
Proof.
  intros Hr Hc. destruct (Hr d) as (d1 & d2 & Hb & Hx).
  eexists. split.
  - unfold execute, in_work. rewrite Hc, Hb, Hx. apply caught_logged.
  - cbn. repeat split; eauto. now rewrite PqFacts.statements_app.
Qed.

Lemma get_column_details_refused (t : string) (e : exn) (r : Pq.result)
      (w : world E) (d : DB E) :
  c_ w = Some d ->
  well_formed t (db_config_ w) ->
  refuses E (columns_statement E t) e ->
  answers E (primary_key_statement E t) r ->
  Pq.rows r = [] ->
  exists w',
    get_column_details t w = Ret tt w'
    /\ Yaml.get ["tables_details"; t; "schema"] (Some (db_config_ w'))
       = inr (Some (Yaml.Scalar (schema_of t)))
    /\ Yaml.get ["tables_details"; t; "table"] (Some (db_config_ w'))
       = inr (Some (Yaml.Scalar (table_of t)))
    /\ Yaml.get ["tables_details"; t; "columns"] (Some (db_config_ w'))
       = Yaml.get ["tables_details"; t; "columns"] (Some (db_config_ w))
    /\ Yaml.get ["tables_details"; t; "primary_key"] (Some (db_config_ w'))
       = inr (Some (Yaml.Scalar "_none_"))
    /\ cerr w' = cerr w ++ what E e ++ Str.nl
    /\ Pq.statements (log w')
       = (Pq.statements (log w) ++ [columns_statement E t; primary_key_statement E t])%list.
Proof.
  intros Hc Hwf Hrefused Hrk Hrows.
  unfold primary_key_statement, schema_of, table_of in *.
  unfold get_column_details.
  destruct (IStream.getline (IStream.of_string t) "" ".") as [schema ss1].
  destruct (IStream.getline ss1 schema ".") as [table ss2].
  cbn [fst] in *.
  destruct (@config_assign_reachable E ["tables_details"; t; "schema"] (Yaml.Scalar schema) w
                                     (well_formed_key "schema" Hwf))
    as (cfg1 & Hassign1 & Hrun1).
  change (assigned_under t "schema" [] (Yaml.Scalar schema) (db_config_ w) cfg1) in Hassign1.
  set (w1 := mk_world cfg1 (c_ w) (log w) (cout w) (cerr w) (files w)) in *.
  assert (Hwf1 : well_formed t (db_config_ w1)).
  { apply (assigned_well_formed_key (k := "schema") (v := Yaml.Scalar schema)
                                    (cfg := db_config_ w)); [discriminate | exact Hassign1 | exact Hwf]. }
  destruct (@config_assign_reachable E ["tables_details"; t; "table"] (Yaml.Scalar table) w1
                                     (well_formed_key "table" Hwf1))
    as (cfg2 & Hassign2 & Hrun2).
  change (assigned_under t "table" [] (Yaml.Scalar table) cfg1 cfg2) in Hassign2.
  set (w2 := mk_world cfg2 (c_ w1) (log w1) (cout w1) (cerr w1) (files w1)) in *.
  assert (Hwf2 : well_formed t (db_config_ w2)).
  { apply (assigned_well_formed_key (k := "table") (v := Yaml.Scalar table)
                                    (cfg := cfg1)); [discriminate | exact Hassign2 | exact Hwf1]. }
  destruct (@execute_refused (columns_statement E t) e w2 d Hrefused Hc)
    as (w3 & Hexec3 & Hcfg3 & Hout3 & Herr3 & Hfiles3 & [d3 Hc3] & Hlog3).
  assert (Hwf3 : well_formed t (db_config_ w3)) by (now rewrite Hcfg3).
  assert (Hschema3 : Yaml.get ["tables_details"; t; "schema"] (Some (db_config_ w3))
                     = inr (Some (Yaml.Scalar schema))).
  { rewrite Hcfg3. cbn [db_config_ w2].
    rewrite (@assigned_other_key t "table" "schema" [] [] _ _ _ Hassign2) by discriminate.
    exact (assigned_read Hassign1). }
  assert (Htable3 : Yaml.get ["tables_details"; t; "table"] (Some (db_config_ w3))
                    = inr (Some (Yaml.Scalar table))).
  { rewrite Hcfg3. cbn [db_config_ w2]. exact (assigned_read Hassign2). }
  assert (Hkey : recorded_key r = Some "_none_") by (unfold recorded_key; now rewrite Hrows).
  destruct (@lookup_primary_key_assigns E t schema table "_none_" w3 d3 r Hc3 Hwf3
                                        Hschema3 Htable3 Hrk Hkey)
    as (w4 & Hrun4 & Hassign4 & Hout4 & Herr4 & Hfiles4 & Hc4 & Hlog4).
  exists w4. split.
  { apply try_catch_returns.
    unfold bind at 1. rewrite Hrun1.
    unfold bind at 1. rewrite Hrun2.
    unfold bind at 1. unfold discover_columns. unfold bind at 1.
    fold (columns_statement E t). rewrite Hexec3. exact Hrun4. }
  split.
  { rewrite (@assigned_other_key t "primary_key" "schema" [] [] _ _ _ Hassign4) by discriminate.
    exact Hschema3. }
  split.
  { rewrite (@assigned_other_key t "primary_key" "table" [] [] _ _ _ Hassign4) by discriminate.
    exact Htable3. }
  split.
  { rewrite (@assigned_other_key t "primary_key" "columns" [] [] _ _ _ Hassign4) by discriminate.
    rewrite Hcfg3. cbn [db_config_ w2].
    rewrite (@assigned_other_key t "table" "columns" [] [] _ _ _ Hassign2) by discriminate.
    exact (@assigned_other_key t "schema" "columns" [] [] _ _ _ Hassign1
                               ltac:(discriminate)). }
  split; [exact (assigned_read Hassign4)|].
  split; [rewrite Herr4, Herr3; reflexivity|].
  rewrite Hlog4, Hlog3. cbn [log w2 w1]. now rewrite <- app_assoc.
Qed.

End Refused.

(** X17. A table the server does not have is recorded all the same.  The
    column query fails and is reported; the discovery goes on with the
    default-constructed result, which has no column, and with the
    primary-key query, which finds no row: the entry gets its two
    segments and the primary key "_none_", and no column.  From then on
    the table counts as known, and [explore_if_unknown] does nothing for
    it. *)
Theorem missing_table_is_recorded (E : environment) (t : string) (e : exn) (r : Pq.result)
        (w : world E) (d : DB E) :
  c_ w = Some d ->
  well_formed t (db_config_ w) ->
  Yaml.get ["tables_details"; t; "columns"] (Some (db_config_ w)) = inr None ->
  refuses E (columns_statement E t) e ->
  answers E (primary_key_statement E t) r ->
  Pq.rows r = [] ->
  exists w',
    get_column_details t w = Ret tt w'
    /\ Yaml.get ["tables_details"; t; "schema"] (Some (db_config_ w'))
       = inr (Some (Yaml.Scalar (schema_of t)))
    /\ Yaml.get ["tables_details"; t; "table"] (Some (db_config_ w'))
       = inr (Some (Yaml.Scalar (table_of t)))
    /\ Yaml.get ["tables_details"; t; "columns"] (Some (db_config_ w')) = inr None
    /\ Yaml.get ["tables_details"; t; "primary_key"] (Some (db_config_ w'))
       = inr (Some (Yaml.Scalar "_none_"))
    /\ cerr w' = cerr w ++ what E e ++ Str.nl
    /\ Pq.statements (log w')
       = (Pq.statements (log w) ++ [columns_statement E t; primary_key_statement E t])%list
    /\ explore_if_unknown t w' = Ret tt w'.
Proof.
  intros Hc Hwf Hnone Hrefused Hrk Hrows.
  destruct (@get_column_details_refused E t e r w d Hc Hwf Hrefused Hrk Hrows)
    as (w' & Hrun & Hschema & Htable & Hcols & Hkey & Herr & Hlog).
  exists w'. rewrite Hcols. repeat (split; [assumption|]).
  destruct (get_defined_prefix _ _ _ _ Hschema) as [entry Hentry].
  exact (@explore_known E w' t entry Hentry).
Qed.

Lemma missing_table_is_recorded_witness :
  exists w',
    get_column_details "public.u" Sparse.connected = Ret tt w'
    /\ Yaml.get ["tables_details"; "public.u"; "columns"] (Some (db_config_ w')) = inr None
    /\ Yaml.get ["tables_details"; "public.u"; "primary_key"] (Some (db_config_ w'))
       = inr (Some (Yaml.Scalar "_none_"))
    /\ cerr w' = "relation does not exist" ++ Str.nl
    /\ explore_if_unknown "public.u" w' = Ret tt w'.
Proof.
  destruct (@missing_table_is_recorded
              Sparse.env "public.u" (sql_error "relation does not exist")
              (Pq.mk_result [Pq.mk_column "column_name" 19; Pq.mk_column "data_type" 19] [])
              Sparse.connected (0 : DB Sparse.env) eq_refl)
    as (w' & Hrun & _ & _ & Hcols & Hkey & Herr & _ & Hknown).
  - unfold well_formed, reachable. eexists. reflexivity.
  - reflexivity.
  - intros d. exists (S d), (S d). split; reflexivity.
  - intros d. exists (S d), (S d), (S d). repeat split; reflexivity.
  - reflexivity.
  - exists w'. repeat split; assumption.
Defined.

(* ===================================================================== *)
(** * What the operations leave alone *)
(* ===================================================================== *)

(** The table [t] has an entry. *)
Definition known (E : environment) (t : string) (w : world E) : Prop :=
  exists entry, Yaml.get ["tables_details"; t] (Some (db_config_ w)) = inr (Some entry).

(** Standard output and the files are as in [w0]. *)
Definition silent (E : environment) (w0 w : world E) : Prop :=
  cout w = cout w0 /\ files w = files w0.

(** What lies under the top-level key [k] of the tree is as in [w0]. *)
Definition section_kept (E : environment) (k : string) (w0 w : world E) : Prop :=
  forall rest, Yaml.get (k :: rest) (Some (db_config_ w))
               = Yaml.get (k :: rest) (Some (db_config_ w0)).

(** When the call returns or throws, [P] holds of the world it leaves. *)
Definition leaves (E : environment) (A : Type) (m : M E A) (w : world E)
           (P : world E -> Prop) : Prop :=
  match m w with
  | Ret _ w' | Throw _ w' => P w'
  | Undefined _ => True
  end.

Section Frame.

Variable E : environment.

(** A property of the worker that survives a message on standard error,
    one transaction on the connection, and an assignment below the entry
    of a table. *)
Variable Inv : world E -> Prop.

Hypothesis Inv_logged : forall s w, Inv w -> Inv (logged s w).

Hypothesis Inv_with_connection :
  forall d statement events w,
    one_transaction statement events -> Inv w -> Inv (with_connection d events w).

Hypothesis Inv_entry :
  forall t k rest v cfg' w,
    Yaml.assign ("tables_details" :: t :: k :: rest) v (Some (db_config_ w)) = inr cfg' ->
    Inv w -> Inv (mk_world cfg' (c_ w) (log w) (cout w) (cerr w) (files w)).

Definition preserved (A : Type) (m : M E A) : Prop :=
  forall w, Inv w -> triple m w (fun _ => Inv) Inv.

Lemma preserved_leaves (A : Type) (m : M E A) (w : world E) :
  preserved m -> Inv w -> leaves m w Inv.
Proof.
  intros Hm Hw. specialize (Hm w Hw). unfold triple in Hm. unfold leaves.
  destruct (m w); exact Hm.
Qed.

Lemma preserved_ret (A : Type) (a : A) : preserved (ret a).
Proof. intros w Hw. exact Hw. Qed.

Lemma preserved_throw (A : Type) (e : exn) : preserved (@throw E A e).
Proof. intros w Hw. exact Hw. Qed.

Lemma preserved_undefined (A : Type) (u : undefined_behaviour) : preserved (@undefined E A u).
Proof. intros w Hw. exact I. Qed.

Lemma preserved_bind (A B : Type) (m : M E A) (k : A -> M E B) :
  preserved m -> (forall a, preserved (k a)) -> preserved (bind m k).
Proof.
  intros Hm Hk w Hw. specialize (Hm w Hw). unfold triple in *. unfold bind.
  destruct (m w) as [a w1|e w1|u]; [exact (Hk a w1 Hm) | exact Hm | exact I].
Qed.

Lemma preserved_try_catch (A : Type) (m : M E A) (h : exn -> M E A) :
  preserved m -> (forall e, preserved (h e)) -> preserved (try_catch m h).
Proof.
  intros Hm Hh w Hw. specialize (Hm w Hw). unfold triple in *. unfold try_catch.
  destruct (m w) as [a w1|e w1|u]; [exact Hm | exact (Hh e w1 Hm) | exact I].
Qed.

Lemma preserved_for_each (A : Type) (l : list A) (body : A -> M E unit) :
  (forall a, preserved (body a)) -> preserved (for_each l body).
Proof.
  intros Hbody. induction l as [|a l IH]; cbn [for_each].
  - apply preserved_ret.
  - apply preserved_bind; [apply Hbody | intros _; exact IH].
Qed.

Lemma preserved_fold_m (A S : Type) (l : list A) (body : S -> A -> M E S) :
  (forall s a, preserved (body s a)) -> forall s, preserved (fold_m l body s).
Proof.
  intros Hbody. induction l as [|a l IH]; intros s; cbn [fold_m].
  - apply preserved_ret.
  - apply preserved_bind; [apply Hbody | intros s'; apply IH].
Qed.

Lemma preserved_lift_yaml (A : Type) (r : Yaml.error + A) : preserved (lift_yaml (E := E) r).
Proof. destruct r; [apply preserved_throw | apply preserved_ret]. Qed.

Lemma preserved_config_get (path : list string) : preserved (@config_get E path).
Proof.
  intros w Hw. unfold triple, config_get.
  destruct (Yaml.get path (Some (db_config_ w))); exact Hw.
Qed.

Lemma preserved_assign_entry (t k : string) (rest : list string) (v : Yaml.node) :
  preserved (@config_assign E ("tables_details" :: t :: k :: rest) v).
Proof.
  intros w Hw. unfold triple, config_assign.
  destruct (Yaml.assign ("tables_details" :: t :: k :: rest) v (Some (db_config_ w)))
    as [e|cfg'] eqn:Hassign;
    [exact Hw | exact (@Inv_entry t k rest v cfg' w Hassign Hw)].
Qed.

Lemma preserved_as_string (n : option Yaml.node) : preserved (@as_string E n).
Proof.
  unfold as_string. destruct n as [[|s|l|m]|];
    try apply preserved_throw; try apply preserved_ret.
  destruct (null_as_string E); [apply preserved_ret | apply preserved_throw].
Qed.

Lemma preserved_as_int (n : option Yaml.node) : preserved (@as_int E n).
Proof.
  unfold as_int. destruct n as [[|s|l|m]|]; try apply preserved_throw.
  destruct (decode_int E s); [apply preserved_ret | apply preserved_throw].
Qed.

Lemma preserved_report (e : exn) : preserved (@report E e).
Proof. intros w Hw. exact (@Inv_logged (what E e) w Hw). Qed.

Lemma preserved_in_work (A : Type) (run : DB E -> string -> DB E * (exn + A)) (r0 : A)
      (statement : string) :
  preserved (in_work run r0 statement).
Proof.
  intros w Hw. unfold triple, in_work.
  destruct (c_ w) as [d|]; [|exact I].
  destruct (pq_begin E d) as [d1 [e|]].
  - rewrite caught_logged.
    apply Inv_logged, (@Inv_with_connection d1 statement); [now left | exact Hw].
  - destruct (run d1 statement) as [d2 [e|r]].
    + rewrite caught_logged.
      apply Inv_logged, (@Inv_with_connection (pq_abort E d2) statement);
        [right; now left | exact Hw].
    + destruct (pq_commit E d2) as [d3 [e|]].
      * rewrite caught_logged.
        apply Inv_logged, (@Inv_with_connection d3 statement); [right; now right | exact Hw].
      * apply (@Inv_with_connection d3 statement); [right; now right | exact Hw].
Qed.

Lemma preserved_execute (statement : string) : preserved (@execute E statement).
Proof. apply preserved_in_work. Qed.

Lemma preserved_get_typname (oid : Z) : preserved (@get_typname_from_oid E oid).
Proof.
  unfold get_typname_from_oid.
  apply preserved_bind; [apply preserved_in_work|]. intros row.
  apply preserved_bind.
  - destruct row; [apply preserved_undefined | apply preserved_ret].
  - intros f. unfold field_as_string.
    destruct (Pq.value f); [apply preserved_ret | apply preserved_throw].
Qed.

Lemma preserved_discover_columns (t : string) : preserved (@discover_columns E t).
Proof.
  unfold discover_columns.
  apply preserved_bind; [apply preserved_execute|]. intros r.
  apply preserved_for_each. intros c.
  apply preserved_bind; [apply preserved_get_typname|]. intros typname.
  apply preserved_assign_entry.
Qed.

Lemma preserved_lookup_primary_key (t : string) : preserved (@lookup_primary_key E t).
Proof.
  unfold lookup_primary_key.
  apply preserved_bind; [apply preserved_config_get|]. intros schema_node.
  apply preserved_bind; [apply preserved_as_string|]. intros schema.
  apply preserved_bind; [apply preserved_config_get|]. intros table_node.
  apply preserved_bind; [apply preserved_as_string|]. intros table.
  apply preserved_bind; [apply preserved_execute|]. intros r.
  destruct (negb (Pq.empty r)).
  - apply preserved_bind; [|intros key; apply preserved_assign_entry].
    unfold first_of_first. destruct (Pq.rows r) as [|vals rest]; [apply preserved_undefined|].
    apply preserved_bind.
    + destruct (Pq.row_of r vals); [apply preserved_undefined | apply preserved_ret].
    + intros f. unfold field_as_string.
      destruct (Pq.value f); [apply preserved_ret | apply preserved_throw].
  - apply preserved_assign_entry.
Qed.

Lemma preserved_get_column_details (t : string) : preserved (@get_column_details E t).
Proof.
  unfold get_column_details.
  apply preserved_try_catch; [|apply preserved_report].
  destruct (IStream.getline (IStream.of_string t) "" ".") as [schema ss1].
  apply preserved_bind; [apply preserved_assign_entry|]. intros _.
  destruct (IStream.getline ss1 schema ".") as [table ss2].
  apply preserved_bind; [apply preserved_assign_entry|]. intros _.
  apply preserved_bind; [apply preserved_discover_columns|]. intros _.
  apply preserved_lookup_primary_key.
Qed.

Lemma preserved_explore_tables (tables : option Yaml.node) :
  preserved (@explore_tables E tables).
Proof.
  unfold explore_tables.
  apply preserved_try_catch; [|apply preserved_report].
  apply preserved_for_each. intros i.
  apply preserved_bind; [apply preserved_as_string|]. intros t.
  apply preserved_get_column_details.
Qed.

(** [explore_if_unknown] and its callers, for a property that also
    survives an assignment to the list of tables. *)
Hypothesis Inv_tables :
  forall v cfg' w,
    Yaml.assign ["tables"] v (Some (db_config_ w)) = inr cfg' ->
    Inv w -> Inv (mk_world cfg' (c_ w) (log w) (cout w) (cerr w) (files w)).

Lemma preserved_assign_tables (v : Yaml.node) : preserved (@config_assign E ["tables"] v).
Proof.
  intros w Hw. unfold triple, config_assign.
  destruct (Yaml.assign ["tables"] v (Some (db_config_ w))) as [e|cfg'] eqn:Hassign;
    [exact Hw | exact (@Inv_tables v cfg' w Hassign Hw)].
Qed.

Lemma preserved_explore_if_unknown (t : string) : preserved (@explore_if_unknown E t).
Proof.
  unfold explore_if_unknown.
  apply preserved_bind; [apply preserved_config_get|]. intros entry.
  destruct entry; [apply preserved_ret|].
  apply preserved_bind; [apply preserved_config_get|]. intros tables.
  apply preserved_bind; [apply preserved_lift_yaml|]. intros pushed.
  apply preserved_bind; [apply preserved_assign_tables|]. intros _.
  apply preserved_bind; [apply preserved_config_get|]. intros tables'.
  apply preserved_explore_tables.
Qed.

Lemma preserved_select (t : string) (fields : list string) (condition : string) (limit : Z) :
  preserved (@select E t fields condition limit).
Proof.
  unfold select.
  apply preserved_bind; [apply preserved_explore_if_unknown|]. intros _.
  apply preserved_bind; [apply preserved_execute|]. intros r. apply preserved_ret.
Qed.

Lemma preserved_first_part (t : string) : preserved (@insert_statement_first_part E t).
Proof.
  unfold insert_statement_first_part.
  apply preserved_bind; [apply preserved_config_get|]. intros columns.
  apply preserved_bind; [|intros ss; apply preserved_ret].
  apply preserved_fold_m. intros ss it. unfold first_part_column.
  assert (Hfirst : preserved (@first_as_string E it)).
  { destruct it as [[k v]|]; [apply preserved_ret | apply preserved_throw]. }
  apply preserved_bind; [exact Hfirst|]. intros column.
  apply preserved_bind; [apply preserved_config_get|]. intros key_node.
  apply preserved_bind; [apply preserved_as_string|]. intros primary_key.
  apply preserved_bind.
  - destruct (negb (String.eqb column primary_key)); [apply preserved_ret|].
    apply preserved_bind; [|intros typname; apply preserved_ret].
    destruct it as [[k v]|]; [apply preserved_as_string | apply preserved_throw].
  - intros include. destruct include; [|apply preserved_ret].
    apply preserved_bind; [exact Hfirst | intros c; apply preserved_ret].
Qed.

Lemma preserved_insert (t : string) (values : list streamed) : preserved (@insert E t values).
Proof.
  unfold insert.
  apply preserved_bind; [apply preserved_explore_if_unknown|]. intros _.
  apply preserved_bind; [apply preserved_first_part|]. intros first_part.
  apply preserved_bind; [apply preserved_execute|]. intros r. apply preserved_ret.
Qed.

Lemma preserved_insert_vector (T : Type) (S : Streamable T) (t : string) (vector : list T) :
  preserved (@insert_vector E T S t vector).
Proof.
  unfold insert_vector.
  apply preserved_bind; [apply preserved_explore_if_unknown|]. intros _.
  apply preserved_bind; [apply preserved_first_part|]. intros first_part.
  apply preserved_bind; [apply preserved_execute|]. intros r. apply preserved_ret.
Qed.

Lemma preserved_insert_timed (T : Type) (S : Streamable T) (t : string) (tp : time_point_t E)
      (vector : list T) :
  preserved (@insert_timed E T S t tp vector).
Proof.
  unfold insert_timed.
  apply preserved_bind; [apply preserved_explore_if_unknown|]. intros _.
  apply preserved_bind; [apply preserved_first_part|]. intros first_part.
  apply preserved_bind; [apply preserved_execute|]. intros r. apply preserved_ret.
Qed.

Lemma preserved_insert_from_maps (t : string) (merged_maps : list (string * string)) :
  preserved (@insert_from_maps E t merged_maps).
Proof.
  unfold insert_from_maps.
  apply preserved_bind; [apply preserved_explore_if_unknown|]. intros _.
  apply preserved_bind; [apply preserved_execute|]. intros r. apply preserved_ret.
Qed.

Lemma preserved_clear (t : string) : preserved (@clear E t).
Proof.
  unfold clear.
  apply preserved_bind; [apply preserved_execute|]. intros r. apply preserved_ret.
Qed.

Lemma preserved_print_row (row : Pq.row) (header : bool) : preserved (@print_row E row header).
Proof.
  unfold print_row.
  apply preserved_bind.
  - apply preserved_fold_m. intros [ss headerss] f. unfold print_field.
    apply preserved_bind; [apply preserved_get_typname|]. intros column_type.
    apply preserved_bind; [|intros field_width; apply preserved_ret].
    unfold field_width_of.
    apply preserved_bind; [apply preserved_config_get|]. intros field_length_mapping.
    apply preserved_bind; [apply preserved_lift_yaml|]. intros configured.
    apply preserved_bind; [|intros field_width; apply preserved_ret].
    destruct configured; [apply preserved_as_int | apply preserved_ret].
  - intros [ss headerss]. destruct header; apply preserved_ret.
Qed.

Lemma preserved_print_lines (r : Pq.result) (rows : list (list (option string)))
      (state : OStream.t * bool) :
  preserved (fold_m rows (@print_line E r) state).
Proof.
  apply preserved_fold_m. intros [ss header_added] vals. unfold print_line.
  apply preserved_bind; [apply preserved_print_row|]. intros line. apply preserved_ret.
Qed.

(** The constructor's helpers, for a property that also survives the
    storing of a connection. *)
Hypothesis Inv_connected : forall d w, Inv w -> Inv (connected_to d w).

Lemma preserved_connect (connection_config : option Yaml.node) :
  preserved (@connect E connection_config).
Proof.
  intros w Hw. unfold triple.
  destruct (connect_returns connection_config w) as [[d H]|[e H]]; rewrite H.
  - exact (@Inv_connected d w Hw).
  - exact (@Inv_logged (what E e) w Hw).
Qed.

(** [print], for a property that also survives a write to standard
    output. *)
Hypothesis Inv_printed :
  forall s w, Inv w -> Inv (mk_world (db_config_ w) (c_ w) (log w) (cout w ++ s) (cerr w) (files w)).

Lemma preserved_print (r : Pq.result) : preserved (@print E r).
Proof.
  unfold print.
  apply preserved_bind; [apply preserved_print_lines|].
  intros [ss header_added] w Hw. exact (@Inv_printed (OStream.str ss) w Hw).
Qed.

Lemma preserved_print_table (t : string) : preserved (@print_table E t).
Proof.
  unfold print_table, select_all_columns.
  apply preserved_bind; [apply preserved_select | apply preserved_print].
Qed.

(** The constructor, for a property that also survives the loading of
    the tree and the writing of the output file. *)
Hypothesis Inv_loaded :
  forall cfg w, Inv w -> Inv (mk_world cfg (c_ w) (log w) (cout w) (cerr w) (files w)).

Hypothesis Inv_dropped :
  forall file w,
    Inv w -> Inv (mk_world (db_config_ w) (c_ w) (log w) (cout w) (cerr w)
                           (files w ++ [(file, db_config_ w)])%list).

Lemma preserved_root_get (key : string) : preserved (@root_get E key).
Proof.
  intros w Hw. unfold triple, root_get.
  destruct (Yaml.children (Some (db_config_ w))) as [m|];
    [exact (@Inv_loaded (Yaml.Map m) w Hw) | exact Hw].
Qed.

Lemma preserved_DatabaseWorker (configuration_file output_file : string) :
  preserved (@DatabaseWorker E configuration_file output_file).
Proof.
  unfold DatabaseWorker.
  apply preserved_bind.
  { intros w Hw. unfold triple, load_config.
    destruct (LoadFile E configuration_file) as [e|cfg];
      [exact Hw | exact (@Inv_loaded cfg w Hw)]. }
  intros _.
  apply preserved_bind; [apply preserved_root_get|]. intros connection_config.
  apply preserved_bind; [apply preserved_connect|]. intros _.
  apply preserved_bind; [apply preserved_root_get|]. intros tables.
  apply preserved_bind; [apply preserved_explore_tables|]. intros _.
  destruct (negb (String.eqb output_file "")); [|apply preserved_ret].
  intros w Hw. unfold triple. rewrite drop_yaml_returns.
  destruct (can_open E output_file); [exact (@Inv_dropped output_file w Hw) | exact Hw].
Qed.

End Frame.

Section Kept.

Variable E : environment.

(** An assignment below the entry of a table, or to the list of tables,
    removes no entry. *)
Lemma known_entry (t t' k : string) (rest : list string) (v cfg' : Yaml.node) (w : world E) :
  Yaml.assign ("tables_details" :: t' :: k :: rest) v (Some (db_config_ w)) = inr cfg' ->
  known t w -> known t (mk_world cfg' (c_ w) (log w) (cout w) (cerr w) (files w)).
Proof.
  intros Hassign [entry Hentry]. unfold known. cbn [db_config_].
  destruct (string_dec t' t) as [->|Hne].
  - exact (@get_assign_above ["tables_details"; t] (k :: rest) v _ _ Hassign).
  - exists entry. rewrite <- Hentry.
    exact (@get_assign_beside ["tables_details"] t' t (k :: rest) [] v Hne _ _ Hassign).
Qed.

Lemma known_tables (t : string) (v cfg' : Yaml.node) (w : world E) :
  Yaml.assign ["tables"] v (Some (db_config_ w)) = inr cfg' ->
  known t w -> known t (mk_world cfg' (c_ w) (log w) (cout w) (cerr w) (files w)).
Proof.
  intros Hassign [entry Hentry]. exists entry. cbn [db_config_]. rewrite <- Hentry.
  exact (@get_assign_beside [] "tables" "tables_details" [] [t] v
                            ltac:(discriminate) _ _ Hassign).
Qed.

(** Such assignments leave the other sections of the tree alone. *)
Lemma section_kept_entry (k0 : string) (w0 : world E) (t k : string) (rest : list string)
      (v cfg' : Yaml.node) (w : world E) :
  k0 <> "tables_details" ->
  Yaml.assign ("tables_details" :: t :: k :: rest) v (Some (db_config_ w)) = inr cfg' ->
  section_kept k0 w0 w ->
  section_kept k0 w0 (mk_world cfg' (c_ w) (log w) (cout w) (cerr w) (files w)).
Proof.
  intros Hne Hassign Hkept rest'. cbn [db_config_]. rewrite <- (Hkept rest').
  exact (@get_assign_beside [] "tables_details" k0 (t :: k :: rest) rest' v
                            (fun e => Hne (eq_sym e)) _ _ Hassign).
Qed.

Lemma section_kept_tables (k0 : string) (w0 : world E) (v cfg' : Yaml.node) (w : world E) :
  k0 <> "tables" ->
  Yaml.assign ["tables"] v (Some (db_config_ w)) = inr cfg' ->
  section_kept k0 w0 w ->
  section_kept k0 w0 (mk_world cfg' (c_ w) (log w) (cout w) (cerr w) (files w)).
Proof.
  intros Hne Hassign Hkept rest'. cbn [db_config_]. rewrite <- (Hkept rest').
  exact (@get_assign_beside [] "tables" k0 [] rest' v (fun e => Hne (eq_sym e)) _ _ Hassign).
Qed.

(** The discovery of the tables leaves the list of tables as it is. *)
Lemma explore_tables_keeps_list (tables : option Yaml.node) (w w' : world E) :
  explore_tables tables w = Ret tt w' ->
  Yaml.get ["tables"] (Some (db_config_ w')) = Yaml.get ["tables"] (Some (db_config_ w)).
Proof.
  intros Hrun.
  pose proof (@preserved_explore_tables
                E (fun w1 => Yaml.get ["tables"] (Some (db_config_ w1))
                             = Yaml.get ["tables"] (Some (db_config_ w)))
                (fun s w1 H => H) (fun d statement events w1 _ H => H)) as Hkeep.
  unfold preserved, triple in Hkeep.
  specialize (Hkeep ltac:(intros t k rest v cfg' w1 Hassign H; cbn [db_config_];
                          rewrite <- H;
                          exact (@get_assign_beside [] "tables_details" "tables"
                                                    (t :: k :: rest) [] v
                                                    ltac:(discriminate) _ _ Hassign))
                    tables w eq_refl).
  now rewrite Hrun in Hkeep.
Qed.

End Kept.

(** X18. Only [print] writes to standard output, and nothing but the
    constructor writes a file: when [select], an [insert] variant,
    [insert_from_maps] or [clear] returns or throws, standard output and
    the files are as they were. *)
Theorem statements_write_nothing (E : environment) (t : string) (w : world E) :
  (forall fields condition limit, leaves (select t fields condition limit) w (silent w))
  /\ (forall condition, leaves (select_all_columns t condition) w (silent w))
  /\ (forall values, leaves (insert t values) w (silent w))
  /\ (forall (T : Type) (S : Streamable T) (vector : list T),
         leaves (insert_vector t vector) w (silent w))
  /\ (forall (T : Type) (S : Streamable T) (tp : time_point_t E) (vector : list T),
         leaves (insert_timed t tp vector) w (silent w))
  /\ (forall merged_maps, leaves (insert_from_maps t merged_maps) w (silent w))
  /\ leaves (clear t) w (silent w).
Proof.
  assert (Hlogged : forall s w1, silent w w1 -> silent w (logged s w1)) by (intros s w1 H; exact H).
  assert (Hconn : forall (d : DB E) statement events w1,
             one_transaction statement events ->
             silent w w1 -> silent w (with_connection d events w1))
    by (intros d statement events w1 _ H; exact H).
  assert (Hentry : forall (t' k : string) (rest : list string) v cfg' (w1 : world E),
             Yaml.assign ("tables_details" :: t' :: k :: rest) v (Some (db_config_ w1))
             = inr cfg' ->
             silent w w1 ->
             silent w (mk_world cfg' (c_ w1) (log w1) (cout w1) (cerr w1) (files w1)))
    by (intros t' k rest v cfg' w1 _ H; exact H).
  assert (Htables : forall v cfg' (w1 : world E),
             Yaml.assign ["tables"] v (Some (db_config_ w1)) = inr cfg' ->
             silent w w1 ->
             silent w (mk_world cfg' (c_ w1) (log w1) (cout w1) (cerr w1) (files w1)))
    by (intros v cfg' w1 _ H; exact H).
  repeat split; intros; (apply (@preserved_leaves E (silent w)); [|split; reflexivity]).
  - exact (@preserved_select E (silent w) Hlogged Hconn Hentry Htables t fields condition limit).
  - exact (@preserved_select E (silent w) Hlogged Hconn Hentry Htables t [] condition 100%Z).
  - exact (@preserved_insert E (silent w) Hlogged Hconn Hentry Htables t values).
  - exact (@preserved_insert_vector E (silent w) Hlogged Hconn Hentry Htables T S t vector).
  - exact (@preserved_insert_timed E (silent w) Hlogged Hconn Hentry Htables T S t tp vector).
  - exact (@preserved_insert_from_maps E (silent w) Hlogged Hconn Hentry Htables t merged_maps).
  - exact (@preserved_clear E (silent w) Hlogged Hconn t).
Qed.

(** X19. No operation removes an entry of [tables_details]: a table that has
    one when [select], an [insert] variant, [insert_from_maps], [clear],
    [print] or the discovery of any table starts still has one when the
    call returns or throws.  There is no way back from known to
    unknown. *)
Theorem entries_are_never_removed (E : environment) (t : string) (w : world E) :
  known t w ->
  (forall t' fields condition limit, leaves (select t' fields condition limit) w (known t))
  /\ (forall t' values, leaves (insert t' values) w (known t))
  /\ (forall t' (T : Type) (S : Streamable T) (vector : list T),
         leaves (insert_vector t' vector) w (known t))
  /\ (forall t' (T : Type) (S : Streamable T) (tp : time_point_t E) (vector : list T),
         leaves (insert_timed t' tp vector) w (known t))
  /\ (forall t' merged_maps, leaves (insert_from_maps t' merged_maps) w (known t))
  /\ (forall t', leaves (clear t') w (known t))
  /\ (forall r, leaves (print r) w (known t))
  /\ (forall t', leaves (print_table t') w (known t))
  /\ (forall t', leaves (explore_if_unknown t') w (known t))
  /\ (forall t', leaves (get_column_details t') w (known t)).
Proof.
  intros Hknown.
  assert (Hlogged : forall s (w1 : world E), known t w1 -> known t (logged s w1))
    by (intros s w1 H; exact H).
  assert (Hconn : forall (d : DB E) statement events w1,
             one_transaction statement events ->
             known t w1 -> known t (with_connection d events w1))
    by (intros d statement events w1 _ H; exact H).
  assert (Hprinted : forall s (w1 : world E),
             known t w1 ->
             known t (mk_world (db_config_ w1) (c_ w1) (log w1) (cout w1 ++ s)
                               (cerr w1) (files w1)))
    by (intros s w1 H; exact H).
  pose proof (@known_entry E t) as Hentry.
  pose proof (@known_tables E t) as Htables.
  repeat split; intros; (apply (@preserved_leaves E (known t)); [|exact Hknown]).
  - exact (@preserved_select E (known t) Hlogged Hconn Hentry Htables t' fields condition limit).
  - exact (@preserved_insert E (known t) Hlogged Hconn Hentry Htables t' values).
  - exact (@preserved_insert_vector E (known t) Hlogged Hconn Hentry Htables T S t' vector).
  - exact (@preserved_insert_timed E (known t) Hlogged Hconn Hentry Htables T S t' tp vector).
  - exact (@preserved_insert_from_maps E (known t) Hlogged Hconn Hentry Htables t' merged_maps).
  - exact (@preserved_clear E (known t) Hlogged Hconn t').
  - exact (@preserved_print E (known t) Hlogged Hconn Hprinted r).
  - exact (@preserved_print_table E (known t) Hlogged Hconn Hentry Htables Hprinted t').
  - exact (@preserved_explore_if_unknown E (known t) Hlogged Hconn Hentry Htables t').
  - exact (@preserved_get_column_details E (known t) Hlogged Hconn Hentry t').
Qed.

Lemma entries_are_never_removed_witness :
  known "public.t" toy_discovered
  /\ leaves (insert_from_maps "public.u" [("a", "1")]) toy_discovered (known "public.t").
Proof.
  assert (Hknown : known "public.t" toy_discovered) by (eexists; reflexivity).
  split; [exact Hknown|].
  exact (proj1 (proj2 (proj2 (proj2 (proj2
           (@entries_are_never_removed Toy.env "public.t" toy_discovered Hknown)))))
           "public.u" [("a", "1")]).
Defined.



(** X21. On a configuration file without a [tables_details] section, the
    constructor throws nothing and writes nothing to standard output.
    When it returns, the tree it holds is a map, also where the file held
    a null document or a sequence; it has written a file only when it
    was given the name of one and that file could be opened, as its last
    step, and what it handed to that file is the tree it holds,
    [tables_details] included.  A file that cannot be opened goes
    unnoticed: [drop_yaml] returns and leaves everything, standard error
    too, as it was. *)
Theorem constructor_writes_the_tree (E : environment)
        (configuration_file output_file : string) (n : Yaml.node) :
  LoadFile E configuration_file = inr n ->
  Yaml.get ["tables_details"] (Some n) = inr None ->
  match DatabaseWorker configuration_file output_file (initial E) with
  | Ret _ w' =>
    cout w' = ""
    /\ files w' = (if String.eqb output_file "" then []
                   else if can_open E output_file then [(output_file, db_config_ w')]
                        else [])
    /\ exists m, db_config_ w' = Yaml.Map m
  | Throw _ _ => False
  | Undefined _ => True
  end
  /\ (can_open E output_file = false ->
      forall w : world E, drop_yaml output_file w = Ret tt w).
Proof.
  intros Hload Hdetails.
  split; [|intros Hshut w; rewrite drop_yaml_returns; now rewrite Hshut].
  set (J := fun w : world E => (cout w = "" /\ files w = [])
                               /\ exists m, db_config_ w = Yaml.Map m).
  assert (Hlogged : forall s (w1 : world E), J w1 -> J (logged s w1)) by (intros s w1 H; exact H).
  assert (Hconn : forall (d : DB E) statement events w1,
             one_transaction statement events -> J w1 -> J (with_connection d events w1))
    by (intros d statement events w1 _ H; exact H).
  assert (Hentry : forall (t' k : string) (rest : list string) v cfg' (w1 : world E),
             Yaml.assign ("tables_details" :: t' :: k :: rest) v (Some (db_config_ w1))
             = inr cfg' ->
             J w1 -> J (mk_world cfg' (c_ w1) (log w1) (cout w1) (cerr w1) (files w1))).
  { intros t' k rest v cfg' w1 Hassign [H _]. split; [exact H|].
    cbn [db_config_].
    change (Yaml.assign ("tables_details" :: t' :: k :: rest) v (Some (db_config_ w1)))
      with (match Yaml.children (Some (db_config_ w1)) with
            | None => inl Yaml.BadSubscript
            | Some m =>
              match Yaml.assign (t' :: k :: rest) v (Yaml.assoc "tables_details" m) with
              | inl e => inl e
              | inr c => inr (Yaml.Map (Yaml.assoc_set "tables_details" c m))
              end
            end) in Hassign.
    destruct (Yaml.children (Some (db_config_ w1))) as [m|]; [|discriminate].
    destruct (Yaml.assign (t' :: k :: rest) v (Yaml.assoc "tables_details" m)) as [e|c];
      [discriminate|].
    injection Hassign as <-. eexists. reflexivity. }
  unfold DatabaseWorker. unfold bind at 1. unfold load_config. rewrite Hload.
  cbn [initial c_ log cout cerr files].
  (* the tree is subscripted, and becomes a map *)
  assert (Hroot : exists m, Yaml.children (Some n) = Some m).
  { destruct n as [|s|l|m]; try (eexists; reflexivity).
    cbn in Hdetails. unfold Yaml.subscript in Hdetails. discriminate Hdetails. }
  destruct Hroot as [m Hm].
  unfold bind at 1. unfold root_get at 1. cbn [db_config_ c_ log cout cerr files].
  rewrite Hm.
  assert (Hw1 : J (@mk_world E (Yaml.Map m) None [] "" "" []))
    by (split; [split; reflexivity | eexists; reflexivity]).
  revert Hw1. generalize (@mk_world E (Yaml.Map m) None [] "" "" []). intros w1 Hw1.
  (* the connection *)
  unfold bind at 1.
  assert (Hw2 : exists w2, connect (Yaml.assoc "connection" m) w1 = Ret tt w2 /\ J w2).
  { destruct (connect_returns (Yaml.assoc "connection" m) w1) as [[d H]|[e H]];
      eexists; (split; [exact H | exact Hw1]). }
  destruct Hw2 as (w2 & Hrun2 & Hw2). rewrite Hrun2.
  (* the tables *)
  destruct Hw2 as [Hquiet2 [m2 Hm2]].
  unfold bind at 1. rewrite (@root_get_map E "tables" m2 w2 Hm2).
  assert (Hw2 : J w2) by (split; [exact Hquiet2 | now exists m2]).
  pose proof (@preserved_explore_tables E J Hlogged Hconn Hentry (Yaml.assoc "tables" m2)
                                        w2 Hw2) as Hkept.
  unfold triple in Hkept. unfold bind at 1.
  destruct (explore_tables_no_throw (Yaml.assoc "tables" m2) w2) as [[w3 H]|[u H]];
    rewrite H in Hkept |- *; [|exact I].
  (* the file *)
  destruct Hkept as [[Hout Hfiles] Hmap].
  destruct (String.eqb output_file ""); cbn [negb].
  - repeat split; assumption.
  - rewrite drop_yaml_returns. destruct (can_open E output_file).
    + cbn [cout files db_config_]. rewrite Hfiles. repeat split; assumption.
    + repeat split; assumption.
Qed.

Lemma constructor_writes_the_tree_witness :
  (exists w',
      DatabaseWorker "pgi.yaml" "out.yaml" (initial Toy.env) = Ret tt w'
      /\ cout w' = ""
      /\ files w' = [("out.yaml", db_config_ w')])
  /\ (exists w',
         DatabaseWorker "pgi.yaml" "/nonexistent_dir/out.yaml" (initial Toy.env) = Ret tt w'
         /\ cout w' = ""
         /\ files w' = [])
  /\ (exists w',
         DatabaseWorker "empty.yaml" "out.yaml" (initial Offline.env) = Ret tt w'
         /\ files w' = [("out.yaml", Yaml.Map [])]).
Proof.
  assert (Hload : LoadFile Toy.env "pgi.yaml" = inr Toy.config) by reflexivity.
  assert (Hdetails : Yaml.get ["tables_details"] (Some Toy.config) = inr None) by reflexivity.
  split; [|split].
  - destruct (@constructor_writes_the_tree Toy.env "pgi.yaml" "out.yaml" Toy.config
                                           Hload Hdetails) as [H _].
    destruct (DatabaseWorker "pgi.yaml" "out.yaml" (initial Toy.env))
      as [[] w'|e w'|u] eqn:Hrun;
      try (vm_compute in Hrun; discriminate Hrun).
    exists w'. split; [reflexivity|]. split; [exact (proj1 H) | exact (proj1 (proj2 H))].
  - destruct (@constructor_writes_the_tree Toy.env "pgi.yaml" "/nonexistent_dir/out.yaml"
                                           Toy.config Hload Hdetails) as [H _].
    destruct (DatabaseWorker "pgi.yaml" "/nonexistent_dir/out.yaml" (initial Toy.env))
      as [[] w'|e w'|u] eqn:Hrun;
      try (vm_compute in Hrun; discriminate Hrun).
    exists w'. split; [reflexivity|]. split; [exact (proj1 H) | exact (proj1 (proj2 H))].
  - assert (Hempty : LoadFile Offline.env "empty.yaml" = inr Yaml.Null) by reflexivity.
    assert (Hnone : Yaml.get ["tables_details"] (Some Yaml.Null) = inr None) by reflexivity.
    destruct (@constructor_writes_the_tree Offline.env "empty.yaml" "out.yaml" Yaml.Null
                                           Hempty Hnone) as [H _].
    destruct (DatabaseWorker "empty.yaml" "out.yaml" (initial Offline.env))
      as [[] w'|e w'|u] eqn:Hrun;
      try (vm_compute in Hrun; discriminate Hrun).
    exists w'. split; [reflexivity|].
    destruct H as (_ & Hfiles & _). rewrite Hfiles.
    vm_compute in Hrun. injection Hrun as <-. reflexivity.
Defined.

(* ===================================================================== *)
(** * A table that is asked for and has no entry (lines 335-341) *)
(* ===================================================================== *)

Section Appending.

Variable E : environment.
Variable cols : string -> list Pq.column.
Variable typname : Z -> string.
Variable key : string -> string.

(** [explore_if_unknown] on a table without an entry, where appending
    the table to [tables] gives the list [ts ++ [t]]. *)
Lemma explore_if_unknown_appends (t : string) (ts : list string) (tables : option Yaml.node)
      (w : world E) (d : DB E) :
  c_ w = Some d ->
  Yaml.get ["tables_details"; t] (Some (db_config_ w)) = inr None ->
  Yaml.get ["tables"] (Some (db_config_ w)) = inr tables ->
  Yaml.push_back (Yaml.Scalar t) tables
  = inr (Yaml.Sequence (map Yaml.Scalar (ts ++ [t])%list)) ->
  (forall t', In t' (ts ++ [t])%list -> well_formed t' (db_config_ w)) ->
  (forall t', In t' (ts ++ [t])%list -> discoverable E cols typname key t') ->
  exists w',
    explore_if_unknown t w = Ret tt w'
    /\ Yaml.get ["tables"] (Some (db_config_ w'))
       = inr (Some (Yaml.Sequence (map Yaml.Scalar (ts ++ [t])%list)))
    /\ populated cols typname key t (db_config_ w')
    /\ cerr w' = cerr w
    /\ Pq.statements (log w')
       = (Pq.statements (log w) ++ flat_map (statements_for E cols) (ts ++ [t]))%list.
Proof.
  intros Hc Hunknown Htables Hpush Hwf Hdisc.
  set (pushed := Yaml.Sequence (map Yaml.Scalar (ts ++ [t])%list)) in *.
  destruct (@config_assign_reachable E ["tables"] pushed w (ex_intro _ _ Htables))
    as (cfg1 & Hassign & Hrun1).
  set (w1 := mk_world cfg1 (c_ w) (log w) (cout w) (cerr w) (files w)) in *.
  assert (Hwf1 : forall t', In t' (ts ++ [t])%list -> well_formed t' (db_config_ w1)).
  { intros t' Hin. destruct (Hwf t' Hin) as [x Hx]. exists x. rewrite <- Hx.
    apply (@get_assign_beside [] "tables" "tables_details" [] [t'; "columns"; ""] pushed);
      [discriminate | exact Hassign]. }
  destruct (@explore_tables_discovers E cols typname key (ts ++ [t])%list w1 d Hc Hwf1 Hdisc)
    as (w2 & Hrun2 & Hpop & _ & _ & Herr & _ & _ & Hlog).
  exists w2. split.
  { unfold explore_if_unknown.
    unfold bind at 1. rewrite (config_get_eq _ _ Hunknown).
    unfold bind at 1. rewrite (config_get_eq _ _ Htables).
    unfold bind at 1. rewrite Hpush. cbn [lift_yaml]. unfold ret at 1.
    unfold bind at 1. rewrite Hrun1.
    unfold bind at 1.
    rewrite (@config_get_eq E ["tables"] w1 (Some pushed) (get_assign_same _ _ _ Hassign)).
    exact Hrun2. }
  split.
  { rewrite (explore_tables_keeps_list _ _ Hrun2). cbn [db_config_ w1].
    exact (get_assign_same _ _ _ Hassign). }
  split; [apply Hpop, in_or_app; right; now left|].
  split; [exact Herr | exact Hlog].
Qed.

End Appending.

(** X22. A table without an entry is added at the end of the list of tables,
    and then every table of the list is discovered again, the new one
    last: the statements executed are those of the discovery of each
    table that was already declared, followed by those of the new table.
    Once that is done the table has an entry, and asking again does
    nothing. *)
Theorem unknown_table_rediscovers_all (E : environment) (cols : string -> list Pq.column)
        (typname : Z -> string) (key : string -> string)
        (t : string) (ts : list string) (w : world E) (d : DB E) :
  c_ w = Some d ->
  Yaml.get ["tables_details"; t] (Some (db_config_ w)) = inr None ->
  Yaml.get ["tables"] (Some (db_config_ w))
  = inr (Some (Yaml.Sequence (map Yaml.Scalar ts))) ->
  (forall t', In t' (ts ++ [t])%list -> well_formed t' (db_config_ w)) ->
  (forall t', In t' (ts ++ [t])%list -> discoverable E cols typname key t') ->
  exists w',
    explore_if_unknown t w = Ret tt w'
    /\ Yaml.get ["tables"] (Some (db_config_ w'))
       = inr (Some (Yaml.Sequence (map Yaml.Scalar (ts ++ [t]))))
    /\ populated cols typname key t (db_config_ w')
    /\ Pq.statements (log w')
       = (Pq.statements (log w)
            ++ flat_map (statements_for E cols) ts ++ statements_for E cols t)%list
    /\ explore_if_unknown t w' = Ret tt w'.
Proof.
  intros Hc Hunknown Htables Hwf Hdisc.
  destruct (@explore_if_unknown_appends E cols typname key t ts _ w d
                                        Hc Hunknown Htables) as (w' & Hrun & Hlist & Hpop & _ & Hlog);
    [cbn [Yaml.push_back]; now rewrite map_app | exact Hwf | exact Hdisc |].
  exists w'. split; [exact Hrun|]. split; [exact Hlist|]. split; [exact Hpop|]. split.
  - rewrite Hlog, flat_map_app. cbn [flat_map]. now rewrite app_nil_r.
  - destruct Hpop as (Hschema & _).
    destruct (get_defined_prefix _ _ _ _ Hschema) as [entry Hentry].
    exact (@explore_known E w' t entry Hentry).
Qed.

Lemma unknown_table_rediscovers_all_witness :
  exists w',
    explore_if_unknown "public.t"
                       (@mk_world Toy.env (Yaml.Map [("tables", Yaml.Sequence [])])
                                  (Some 0) [] "" "" [])
    = Ret tt w'
    /\ Yaml.get ["tables"] (Some (db_config_ w'))
       = inr (Some (Yaml.Sequence [Yaml.Scalar "public.t"]))
    /\ populated (fun _ => Toy.t_columns) toy_typname (fun _ => "id") "public.t"
                 (db_config_ w')
    /\ Pq.statements (log w')
       = ([] ++ [] ++ statements_for Toy.env (fun _ => Toy.t_columns) "public.t")%list
    /\ explore_if_unknown "public.t" w' = Ret tt w'.
Proof.
  refine (@unknown_table_rediscovers_all
            Toy.env (fun _ => Toy.t_columns) toy_typname (fun _ => "id")
            "public.t" []
            (@mk_world Toy.env (Yaml.Map [("tables", Yaml.Sequence [])]) (Some 0) [] "" "" [])
            (0 : DB Toy.env) eq_refl eq_refl eq_refl _ toy_discoverable).
  intros t _. unfold well_formed, reachable. eexists. reflexivity.
Defined.

(** X23. Where the configuration has no [tables] section (or a null one),
    the first table that is asked for creates it: the section becomes the
    list of that one table, the table is discovered, and its statements
    are the only ones executed. *)
Theorem first_unknown_table_creates_the_list (E : environment)
        (cols : string -> list Pq.column) (typname : Z -> string) (key : string -> string)
        (t : string) (w : world E) (d : DB E) :
  c_ w = Some d ->
  Yaml.get ["tables_details"; t] (Some (db_config_ w)) = inr None ->
  Yaml.get ["tables"] (Some (db_config_ w)) = inr None
  \/ Yaml.get ["tables"] (Some (db_config_ w)) = inr (Some Yaml.Null) ->
  well_formed t (db_config_ w) ->
  discoverable E cols typname key t ->
  exists w',
    explore_if_unknown t w = Ret tt w'
    /\ Yaml.get ["tables"] (Some (db_config_ w'))
       = inr (Some (Yaml.Sequence [Yaml.Scalar t]))
    /\ populated cols typname key t (db_config_ w')
    /\ Pq.statements (log w') = (Pq.statements (log w) ++ statements_for E cols t)%list.
Proof.
  intros Hc Hunknown Htables Hwf Hdisc.
  assert (Hone : forall t', In t' ([] ++ [t])%list -> t' = t)
    by (intros t' [<-|[]]; reflexivity).
  assert (Hrun : exists w',
             explore_if_unknown t w = Ret tt w'
             /\ Yaml.get ["tables"] (Some (db_config_ w'))
                = inr (Some (Yaml.Sequence (map Yaml.Scalar ([] ++ [t])%list)))
             /\ populated cols typname key t (db_config_ w')
             /\ cerr w' = cerr w
             /\ Pq.statements (log w')
                = (Pq.statements (log w)
                     ++ flat_map (statements_for E cols) ([] ++ [t]))%list).
  { destruct Htables as [Htables|Htables];
      apply (@explore_if_unknown_appends E cols typname key t [] _ w d Hc Hunknown Htables);
      try reflexivity;
      intros t' Hin; rewrite (Hone t' Hin); assumption. }
  destruct Hrun as (w' & Hrun & Hlist & Hpop & _ & Hlog).
  exists w'. split; [exact Hrun|]. split; [exact Hlist|]. split; [exact Hpop|].
  rewrite Hlog. cbn [app flat_map]. now rewrite app_nil_r.
Qed.

Lemma first_unknown_table_creates_the_list_witness :
  exists w',
    explore_if_unknown "public.t" (@mk_world Toy.env (Yaml.Map []) (Some 0) [] "" "" [])
    = Ret tt w'
    /\ Yaml.get ["tables"] (Some (db_config_ w'))
       = inr (Some (Yaml.Sequence [Yaml.Scalar "public.t"]))
    /\ populated (fun _ => Toy.t_columns) toy_typname (fun _ => "id") "public.t"
                 (db_config_ w')
    /\ Pq.statements (log w')
       = ([] ++ statements_for Toy.env (fun _ => Toy.t_columns) "public.t")%list.
Proof.
  refine (@first_unknown_table_creates_the_list
            Toy.env (fun _ => Toy.t_columns) toy_typname (fun _ => "id") "public.t"
            (@mk_world Toy.env (Yaml.Map []) (Some 0) [] "" "" [])
            (0 : DB Toy.env) eq_refl eq_refl (or_introl eq_refl) _
            (toy_discoverable (or_introl eq_refl))).
  unfold well_formed, reachable. eexists. reflexivity.
Defined.

(* ===================================================================== *)
(** * Transactions *)
(* ===================================================================== *)

(** The events are those of a series of transactions, each around one
    statement and each closed before the next is opened. *)
Definition transactions (events : list Pq.event) : Prop :=
  exists groups : list (list Pq.event),
    events = List.concat groups
    /\ Forall (fun g => exists statement, one_transaction statement g) groups.

Lemma transactions_app (events more : list Pq.event) (statement : string) :
  one_transaction statement more -> transactions events -> transactions (events ++ more).
Proof.
  intros Hmore (groups & -> & Hgroups).
  exists (groups ++ [more])%list. split.
  - rewrite concat_app. cbn [List.concat]. now rewrite app_nil_r.
  - apply Forall_app. split; [exact Hgroups|]. constructor; [|constructor].
    now exists statement.
Qed.

(** X24. Every statement runs in a transaction of its own.  Whatever the
    server does, the record of what the worker asked of its connection is
    a series of transactions that were opened, given one statement
    (unless they could not be opened) and then committed or rolled back
    before the next one was opened: the constructor leaves such a record,
    and every operation keeps it so. *)
Theorem one_statement_per_transaction (E : environment) :
  (forall configuration_file output_file,
      leaves (DatabaseWorker configuration_file output_file) (initial E)
             (fun w' => transactions (log w')))
  /\ (forall w : world E,
         transactions (log w) ->
         (forall t fields condition limit,
             leaves (select t fields condition limit) w (fun w' => transactions (log w')))
         /\ (forall t values, leaves (insert t values) w (fun w' => transactions (log w')))
         /\ (forall t (T : Type) (S : Streamable T) (vector : list T),
                leaves (insert_vector t vector) w (fun w' => transactions (log w')))
         /\ (forall t (T : Type) (S : Streamable T) (tp : time_point_t E) (vector : list T),
                leaves (insert_timed t tp vector) w (fun w' => transactions (log w')))
         /\ (forall t merged_maps,
                leaves (insert_from_maps t merged_maps) w (fun w' => transactions (log w')))
         /\ (forall t, leaves (clear t) w (fun w' => transactions (log w')))
         /\ (forall r, leaves (print r) w (fun w' => transactions (log w')))
         /\ (forall t, leaves (print_table t) w (fun w' => transactions (log w')))).
Proof.
  set (J := fun w : world E => transactions (log w)).
  assert (Hlogged : forall s (w1 : world E), J w1 -> J (logged s w1)) by (intros s w1 H; exact H).
  assert (Hconn : forall (d : DB E) statement events w1,
             one_transaction statement events -> J w1 -> J (with_connection d events w1))
    by (intros d statement events w1 Hone H; exact (transactions_app Hone H)).
  assert (Hconnected : forall (d : DB E) w1, J w1 -> J (connected_to d w1))
    by (intros d w1 H; exact H).
  assert (Hentry : forall (t' k : string) (rest : list string) v cfg' (w1 : world E),
             Yaml.assign ("tables_details" :: t' :: k :: rest) v (Some (db_config_ w1))
             = inr cfg' ->
             J w1 -> J (mk_world cfg' (c_ w1) (log w1) (cout w1) (cerr w1) (files w1)))
    by (intros t' k rest v cfg' w1 _ H; exact H).
  assert (Htables : forall v cfg' (w1 : world E),
             Yaml.assign ["tables"] v (Some (db_config_ w1)) = inr cfg' ->
             J w1 -> J (mk_world cfg' (c_ w1) (log w1) (cout w1) (cerr w1) (files w1)))
    by (intros v cfg' w1 _ H; exact H).
  assert (Hprinted : forall s (w1 : world E),
             J w1 -> J (mk_world (db_config_ w1) (c_ w1) (log w1) (cout w1 ++ s)
                                 (cerr w1) (files w1)))
    by (intros s w1 H; exact H).
  assert (Hloaded : forall cfg (w1 : world E),
             J w1 -> J (mk_world cfg (c_ w1) (log w1) (cout w1) (cerr w1) (files w1)))
    by (intros cfg w1 H; exact H).
  assert (Hdropped : forall file (w1 : world E),
             J w1 -> J (mk_world (db_config_ w1) (c_ w1) (log w1) (cout w1) (cerr w1)
                                 (files w1 ++ [(file, db_config_ w1)])%list))
    by (intros file w1 H; exact H).
  split.
  - intros configuration_file output_file.
    apply (@preserved_leaves E J).
    + exact (@preserved_DatabaseWorker E J Hlogged Hconn Hentry Hconnected Hloaded Hdropped
                                       configuration_file output_file).
    + exists []. split; [reflexivity | constructor].
  - intros w Hw.
    repeat split; intros; (apply (@preserved_leaves E J); [|exact Hw]).
    + exact (@preserved_select E J Hlogged Hconn Hentry Htables t fields condition limit).
    + exact (@preserved_insert E J Hlogged Hconn Hentry Htables t values).
    + exact (@preserved_insert_vector E J Hlogged Hconn Hentry Htables T S t vector).
    + exact (@preserved_insert_timed E J Hlogged Hconn Hentry Htables T S t tp vector).
    + exact (@preserved_insert_from_maps E J Hlogged Hconn Hentry Htables t merged_maps).
    + exact (@preserved_clear E J Hlogged Hconn t).
    + exact (@preserved_print E J Hlogged Hconn Hprinted r).
    + exact (@preserved_print_table E J Hlogged Hconn Hentry Htables Hprinted t).
Qed.

Lemma one_statement_per_transaction_witness :
  transactions (log toy_connected)
  /\ leaves (clear "public.t") toy_connected (fun w' => transactions (log w')).
Proof.
  assert (Hnone : transactions (log toy_connected))
    by (exists []; split; [reflexivity | constructor]).
  split; [exact Hnone|].
  destruct (proj2 (@one_statement_per_transaction Toy.env) toy_connected Hnone)
    as (_ & _ & _ & _ & _ & Hclear & _).
  exact (Hclear "public.t").
Defined.

(* ===================================================================== *)
(** * The order of the columns (lines 236-240 and 318-328) *)
(* ===================================================================== *)

(** The columns of a result with the names of their types, in the order
    of the result. *)
Definition typed_columns (typname : Z -> string) (columns : list Pq.column)
  : list (string * string) :=
  map (fun c => (Pq.column_name c, typname (Pq.column_type c))) columns.

(** The pairs of a map of columns after the loop of [discover_columns]
    over [columns]: each column is set in turn. *)
Definition set_columns (typname : Z -> string) (columns : list Pq.column) (m : Yaml.pairs)
  : Yaml.pairs :=
  fold_left (fun m c => Yaml.assoc_set (Pq.column_name c)
                                       (Yaml.Scalar (typname (Pq.column_type c))) m)
            columns m.

Section ColumnOrder.

Variable E : environment.
Variable cols : string -> list Pq.column.
Variable typname : Z -> string.
Variable key : string -> string.

(** After [n[k1]...[kn][k] = v] the node at k1...kn is a map: the pairs
    it had, with [k] set. *)
Lemma get_assign_parent (prefix : list string) (k : string) (v : Yaml.node) :
  forall (n x : option Yaml.node) (m : Yaml.pairs) (n' : Yaml.node),
    Yaml.get prefix n = inr x ->
    Yaml.children x = Some m ->
    Yaml.assign (prefix ++ [k]) v n = inr n' ->
    Yaml.get prefix (Some n') = inr (Some (Yaml.Map (Yaml.assoc_set k v m))).
Proof.
  induction prefix as [|a p IH]; intros n x m n' Hget Hm Hassign.
  - cbn in Hget. injection Hget as <-. cbn in Hassign. rewrite Hm in Hassign.
    injection Hassign as <-. reflexivity.
  - cbn in Hget, Hassign. unfold Yaml.subscript in Hget.
    destruct (Yaml.children n) as [m0|]; [|discriminate].
    destruct (Yaml.assign (p ++ [k]) v (Yaml.assoc a m0)) as [e|c] eqn:Hc; [discriminate|].
    injection Hassign as <-.
    cbn. unfold Yaml.subscript. cbn. rewrite YamlFacts.assoc_assoc_set_eq.
    exact (IH _ _ _ _ Hget Hm Hc).
Qed.

(** Reading below a node that was read. *)
Lemma get_below (prefix rest : list string) :
  forall (n x : option Yaml.node),
    Yaml.get prefix n = inr x -> Yaml.get (prefix ++ rest) n = Yaml.get rest x.
Proof.
  induction prefix as [|a p IH]; intros n x Hget.
  - cbn in Hget. injection Hget as <-. reflexivity.
  - cbn in Hget |- *. destruct (Yaml.subscript n a) as [e|c]; [discriminate|].
    exact (IH _ _ Hget).
Qed.

(** A key that is new to a map goes to its end. *)
Lemma assoc_set_fresh (k : string) (v : Yaml.node) (m : Yaml.pairs) :
  ~ In k (map fst m) -> Yaml.assoc_set k v m = (m ++ [(k, v)])%list.
Proof.
  induction m as [|[k' v'] m IH]; intros Hfresh; [reflexivity|].
  cbn. destruct (String.eqb k k') eqn:Heq.
  - apply String.eqb_eq in Heq. exfalso. apply Hfresh. left. now symmetry.
  - rewrite IH; [reflexivity|]. intros Hin. apply Hfresh. now right.
Qed.

Lemma typed_names (l : list (string * string)) : map fst (typed l) = map fst l.
Proof. unfold typed. rewrite map_map. reflexivity. Qed.

Lemma typed_app (l1 l2 : list (string * string)) :
  typed (l1 ++ l2) = (typed l1 ++ typed l2)%list.
Proof. unfold typed. apply map_app. Qed.

(** Setting a key keeps the keys of a map where they are; a new key
    comes after them. *)
Lemma assoc_set_names (k : string) (v : Yaml.node) (m : Yaml.pairs) :
  exists added, map fst (Yaml.assoc_set k v m) = (map fst m ++ added)%list.
Proof.
  induction m as [|[k' v'] m [added IH]].
  - exists [k]. reflexivity.
  - cbn. destruct (String.eqb k k') eqn:Heq.
    + apply String.eqb_eq in Heq. subst k'. exists []. cbn. now rewrite app_nil_r.
    + exists added. cbn. now rewrite IH.
Qed.

Lemma set_columns_names (columns : list Pq.column) :
  forall m, exists added, map fst (set_columns typname columns m) = (map fst m ++ added)%list.
Proof.
  induction columns as [|c columns IH]; intros m.
  - exists []. cbn. now rewrite app_nil_r.
  - cbn [set_columns fold_left].
    destruct (IH (Yaml.assoc_set (Pq.column_name c)
                                 (Yaml.Scalar (typname (Pq.column_type c))) m))
      as [added2 H2].
    destruct (assoc_set_names (Pq.column_name c)
                              (Yaml.Scalar (typname (Pq.column_type c))) m) as [added1 H1].
    exists (added1 ++ added2)%list. unfold set_columns in H2. rewrite H2, H1.
    now rewrite app_assoc.
Qed.

(** A name that is none of the columns' keeps what it had. *)
Lemma set_columns_other (k : string) (columns : list Pq.column) :
  ~ In k (map Pq.column_name columns) ->
  forall m, Yaml.assoc k (set_columns typname columns m) = Yaml.assoc k m.
Proof.
  induction columns as [|c columns IH]; intros Hk m; [reflexivity|].
  cbn [set_columns fold_left].
  fold (set_columns typname columns
                    (Yaml.assoc_set (Pq.column_name c)
                                    (Yaml.Scalar (typname (Pq.column_type c))) m)).
  rewrite IH by (intros Hin; apply Hk; now right).
  apply YamlFacts.assoc_assoc_set_ne. intros e. apply Hk. now left.
Qed.

(** Columns of new and distinct names come one after the other. *)
Lemma set_columns_fresh (todo : list Pq.column) :
  forall done,
    NoDup (map fst done ++ map Pq.column_name todo) ->
    set_columns typname todo (typed done) = typed (done ++ typed_columns typname todo).
Proof.
  induction todo as [|c todo IH]; intros done Hnd.
  - cbn. now rewrite app_nil_r.
  - cbn [set_columns fold_left].
    rewrite assoc_set_fresh.
    + change (typed done ++ [(Pq.column_name c, Yaml.Scalar (typname (Pq.column_type c)))])%list
        with (typed done ++ typed (typed_columns typname [c]))%list.
      rewrite <- typed_app. fold (set_columns typname todo (typed (done ++ typed_columns typname [c]))).
      rewrite IH.
      * rewrite <- app_assoc. reflexivity.
      * rewrite map_app. cbn [typed_columns map fst]. rewrite <- app_assoc. exact Hnd.
    + rewrite typed_names. intros Hin. cbn [map] in Hnd. apply NoDup_remove_2 in Hnd.
      apply Hnd, in_or_app. now left.
Qed.

(** One turn of the loop of [discover_columns] that comes to its end:
    the column is set in the map of the columns. *)
Lemma discover_columns_turn (t : string) (c : Pq.column) (m : Yaml.pairs)
      (x : option Yaml.node) (w w' : world E) (d : DB E) :
  c_ w = Some d ->
  resolves E (Pq.column_type c) (typname (Pq.column_type c)) ->
  Yaml.get ["tables_details"; t; "columns"] (Some (db_config_ w)) = inr x ->
  Yaml.children x = Some m ->
  (typname' <- get_typname_from_oid (Pq.column_type c) ;;
   config_assign ["tables_details"; t; "columns"; Pq.column_name c]
                 (Yaml.Scalar typname')) w = Ret tt w' ->
  Yaml.get ["tables_details"; t; "columns"] (Some (db_config_ w'))
  = inr (Some (Yaml.Map (set_columns typname [c] m)))
  /\ exists d', c_ w' = Some d'.
Proof.
  intros Hc Hres Hget Hm Hrun.
  destruct (@typname_resolves E _ _ w d Hres Hc)
    as (w1 & Hty & Hcfg1 & _ & _ & _ & Hc1 & _).
  unfold bind in Hrun. rewrite Hty in Hrun. unfold config_assign in Hrun.
  rewrite Hcfg1 in Hrun.
  destruct (Yaml.assign ["tables_details"; t; "columns"; Pq.column_name c]
                        (Yaml.Scalar (typname (Pq.column_type c)))
                        (Some (db_config_ w))) as [e|cfg2] eqn:Hassign; [discriminate|].
  injection Hrun as <-. cbn [db_config_ c_]. split; [|exact Hc1].
  exact (@get_assign_parent ["tables_details"; t; "columns"] (Pq.column_name c) _
                            _ x m cfg2 Hget Hm Hassign).
Qed.

(** The loop of [discover_columns], when it comes to its end. *)
Lemma discover_columns_order (t : string) (todo : list Pq.column) :
  forall (m : Yaml.pairs) (w w' : world E) (d : DB E),
    c_ w = Some d ->
    (forall c, In c todo -> resolves E (Pq.column_type c) (typname (Pq.column_type c))) ->
    Yaml.get ["tables_details"; t; "columns"] (Some (db_config_ w))
    = inr (Some (Yaml.Map m)) ->
    for_each todo
             (fun c =>
                typname' <- get_typname_from_oid (Pq.column_type c) ;;
                config_assign ["tables_details"; t; "columns"; Pq.column_name c]
                              (Yaml.Scalar typname')) w
    = Ret tt w' ->
    Yaml.get ["tables_details"; t; "columns"] (Some (db_config_ w'))
    = inr (Some (Yaml.Map (set_columns typname todo m))).
Proof.
  induction todo as [|c todo IH]; intros m w w' d Hc Hres Hget Hrun.
  - cbn in Hrun. injection Hrun as <-. exact Hget.
  - cbn [for_each] in Hrun. unfold bind at 1 in Hrun.
    destruct ((typname' <- get_typname_from_oid (Pq.column_type c) ;;
               config_assign ["tables_details"; t; "columns"; Pq.column_name c]
                             (Yaml.Scalar typname')) w) as [[] w1|e w1|u] eqn:Hturn;
      try discriminate.
    destruct (@discover_columns_turn t c m _ w w1 d Hc (Hres c (or_introl eq_refl))
                                     Hget eq_refl Hturn) as (Hget1 & d1 & Hc1).
    exact (IH _ w1 w' d1 Hc1 (fun c' Hin => Hres c' (or_intror Hin)) Hget1 Hrun).
Qed.

(** [get_column_details] on a server that answers: what becomes of the
    columns of the entry. *)
Lemma get_column_details_columns (t : string) (w : world E) (d : DB E)
      (x : option Yaml.node) (m : Yaml.pairs) :
  c_ w = Some d ->
  well_formed t (db_config_ w) ->
  Yaml.get ["tables_details"; t; "columns"] (Some (db_config_ w)) = inr x ->
  Yaml.children x = Some m ->
  discoverable E cols typname key t ->
  exists w',
    get_column_details t w = Ret tt w'
    /\ Yaml.get ["tables_details"; t; "columns"] (Some (db_config_ w'))
       = inr (match cols t with
              | [] => x
              | _ => Some (Yaml.Map (set_columns typname (cols t) m))
              end)
    /\ Yaml.get ["tables_details"; t; "primary_key"] (Some (db_config_ w'))
       = inr (Some (Yaml.Scalar (key t))).
Proof.
  intros Hc Hwf Hx Hm ([rc [Hrc Hcols]] & Hnd & Hres & [rk [Hrk Hkey]]).
  unfold primary_key_statement, schema_of, table_of in Hrk.
  unfold get_column_details.
  destruct (IStream.getline (IStream.of_string t) "" ".") as [schema ss1].
  destruct (IStream.getline ss1 schema ".") as [table ss2].
  cbn [fst] in *.
  (* the schema *)
  destruct (@config_assign_reachable E ["tables_details"; t; "schema"] (Yaml.Scalar schema) w
                                     (well_formed_key "schema" Hwf))
    as (cfg1 & Hassign1 & Hrun1).
  change (assigned_under t "schema" [] (Yaml.Scalar schema) (db_config_ w) cfg1) in Hassign1.
  set (w1 := mk_world cfg1 (c_ w) (log w) (cout w) (cerr w) (files w)) in *.
  assert (Hwf1 : well_formed t (db_config_ w1)).
  { apply (assigned_well_formed_key (k := "schema") (v := Yaml.Scalar schema)
                                    (cfg := db_config_ w)); [discriminate | exact Hassign1 | exact Hwf]. }
  (* the table *)
  destruct (@config_assign_reachable E ["tables_details"; t; "table"] (Yaml.Scalar table) w1
                                     (well_formed_key "table" Hwf1))
    as (cfg2 & Hassign2 & Hrun2).
  change (assigned_under t "table" [] (Yaml.Scalar table) cfg1 cfg2) in Hassign2.
  set (w2 := mk_world cfg2 (c_ w1) (log w1) (cout w1) (cerr w1) (files w1)) in *.
  assert (Hwf2 : well_formed t (db_config_ w2)).
  { apply (assigned_well_formed_key (k := "table") (v := Yaml.Scalar table)
                                    (cfg := cfg1)); [discriminate | exact Hassign2 | exact Hwf1]. }
  (* the columns *)
  destruct (@execute_answers E _ _ w2 d Hrc Hc)
    as (w3 & Hexec3 & Hcfg3 & _ & _ & _ & [d3 Hc3] & _).
  assert (Hwf3 : well_formed t (db_config_ w3)) by (now rewrite Hcfg3).
  assert (Hx3 : Yaml.get ["tables_details"; t; "columns"] (Some (db_config_ w3)) = inr x).
  { rewrite Hcfg3. cbn [db_config_ w2].
    rewrite (@assigned_other_key t "table" "columns" [] [] _ _ _ Hassign2) by discriminate.
    rewrite (@assigned_other_key t "schema" "columns" [] [] _ _ _ Hassign1) by discriminate.
    exact Hx. }
  destruct (@discover_columns_loop E cols typname key t (cols t) w3 d3 Hc3 Hwf3 Hnd Hres)
    as (w4 & Hloop & _ & Hkeys4 & _ & _ & Hwf4 & _ & _ & _ & [d4 Hc4] & _).
  assert (Hcols4 : Yaml.get ["tables_details"; t; "columns"] (Some (db_config_ w4))
                   = inr (match cols t with
                          | [] => x
                          | _ => Some (Yaml.Map (set_columns typname (cols t) m))
                          end)).
  { clear Hcols Hnd. destruct (cols t) as [|c rest] eqn:Hct.
    - cbn in Hloop. injection Hloop as <-. exact Hx3.
    - pose proof Hloop as Hrun. cbn [for_each] in Hrun. unfold bind at 1 in Hrun.
      destruct ((typname' <- get_typname_from_oid (Pq.column_type c) ;;
                 config_assign ["tables_details"; t; "columns"; Pq.column_name c]
                               (Yaml.Scalar typname')) w3) as [[] wa|e wa|u] eqn:Hturn;
        try discriminate.
      destruct (@discover_columns_turn t c m x w3 wa d3 Hc3 (Hres c (or_introl eq_refl))
                                       Hx3 Hm Hturn) as (Hgeta & da & Hca).
      exact (@discover_columns_order t rest _ wa w4 da Hca
                                     (fun c' Hin => Hres c' (or_intror Hin)) Hgeta Hrun). }
  (* the primary key *)
  assert (Hschema4 : Yaml.get ["tables_details"; t; "schema"] (Some (db_config_ w4))
                     = inr (Some (Yaml.Scalar schema))).
  { rewrite Hkeys4 by discriminate. rewrite Hcfg3. cbn [db_config_ w2].
    rewrite (@assigned_other_key t "table" "schema" [] [] _ _ _ Hassign2) by discriminate.
    exact (assigned_read Hassign1). }
  assert (Htable4 : Yaml.get ["tables_details"; t; "table"] (Some (db_config_ w4))
                    = inr (Some (Yaml.Scalar table))).
  { rewrite Hkeys4 by discriminate. rewrite Hcfg3. cbn [db_config_ w2].
    exact (assigned_read Hassign2). }
  destruct (@lookup_primary_key_assigns E t schema table (key t) w4 d4 rk Hc4 Hwf4
                                        Hschema4 Htable4 Hrk Hkey)
    as (w5 & Hrun5 & Hassign5 & _).
  exists w5. split.
  { apply try_catch_returns.
    unfold bind at 1. rewrite Hrun1.
    unfold bind at 1. rewrite Hrun2.
    unfold bind at 1. unfold discover_columns. unfold bind at 1.
    fold (columns_statement E t). rewrite Hexec3, Hcols, Hloop. exact Hrun5. }
  split.
  - rewrite (@assigned_other_key t "primary_key" "columns" [] [] _ _ _ Hassign5) by discriminate.
    exact Hcols4.
  - exact (assigned_read Hassign5).
Qed.

End ColumnOrder.

(** X25. The columns of an entry stand in the order of the result of
    [SELECT * FROM <table> LIMIT 0]: [get_column_details] on a table of
    which no column is recorded yet, on a server that answers with at
    least one column, leaves under [columns] the map of the columns of
    that result to the names of their types, in that order; and the first
    part of an INSERT statement then names the kept columns in the order
    of the table. *)
Theorem discovery_keeps_column_order (E : environment) (cols : string -> list Pq.column)
        (typname : Z -> string) (key : string -> string)
        (t : string) (w : world E) (d : DB E) :
  c_ w = Some d ->
  well_formed t (db_config_ w) ->
  Yaml.get ["tables_details"; t; "columns"] (Some (db_config_ w)) = inr None ->
  discoverable E cols typname key t ->
  cols t <> [] ->
  exists w',
    get_column_details t w = Ret tt w'
    /\ Yaml.get ["tables_details"; t; "columns"] (Some (db_config_ w'))
       = inr (Some (Yaml.Map (typed (typed_columns typname (cols t)))))
    /\ (kept_columns (key t) (typed_columns typname (cols t)) <> [] ->
        insert_statement_first_part t w'
        = Ret ("INSERT INTO " ++ t ++ "("
                 ++ String.concat ", " (kept_columns (key t) (typed_columns typname (cols t)))
                 ++ ") VALUES(") w').
Proof.
  intros Hc Hwf Hnone Hdisc Hsome.
  destruct (@get_column_details_columns E cols typname key t w d None [] Hc Hwf Hnone
                                        eq_refl Hdisc) as (w' & Hrun & Hcols & Hkey).
  assert (Hmap : Yaml.get ["tables_details"; t; "columns"] (Some (db_config_ w'))
                 = inr (Some (Yaml.Map (typed (typed_columns typname (cols t)))))).
  { rewrite Hcols. destruct Hdisc as (_ & Hnd & _).
    pose proof (@set_columns_fresh typname (cols t) [] Hnd) as Hfresh.
    change ([] ++ typed_columns typname (cols t))%list
      with (typed_columns typname (cols t)) in Hfresh.
    rewrite <- Hfresh.
    destruct (cols t); [congruence | reflexivity]. }
  exists w'. split; [exact Hrun|]. split; [exact Hmap|].
  intros Hkept. exact (@first_part_text E w' t (key t) Hkey _ Hmap Hkept).
Qed.

Lemma discovery_keeps_column_order_witness :
  exists w',
    get_column_details "public.t" (@mk_world Toy.env (Yaml.Map []) (Some 0) [] "" "" [])
    = Ret tt w'
    /\ Yaml.get ["tables_details"; "public.t"; "columns"] (Some (db_config_ w'))
       = inr (Some (Yaml.Map [("id", Yaml.Scalar "int4"); ("name", Yaml.Scalar "text");
                              ("created_at", Yaml.Scalar "timestamp")]))
    /\ insert_statement_first_part "public.t" w'
       = Ret "INSERT INTO public.t(name, created_at) VALUES(" w'.
Proof.
  destruct (@discovery_keeps_column_order
              Toy.env (fun _ => Toy.t_columns) toy_typname (fun _ => "id") "public.t"
              (@mk_world Toy.env (Yaml.Map []) (Some 0) [] "" "" []) (0 : DB Toy.env)
              eq_refl (ex_intro _ _ eq_refl) eq_refl
              (toy_discoverable (or_introl eq_refl)) ltac:(discriminate))
    as (w' & Hrun & Hcols & Hfirst).
  exists w'. split; [exact Hrun|]. split; [exact Hcols|].
  apply Hfirst. discriminate.
Defined.

(** X26. Discovering a table again never takes a column out of its entry:
    on a server that answers, [get_column_details] on a table whose entry
    has a map of columns sets in that map, one after the other, the
    columns the server reports now.  The names that were recorded keep
    their places, new names come after them, and a name the server no
    longer reports keeps the type name it had. *)
Theorem rediscovery_keeps_recorded_columns (E : environment)
        (cols : string -> list Pq.column) (typname : Z -> string) (key : string -> string)
        (t : string) (w : world E) (d : DB E) (m : Yaml.pairs) :
  c_ w = Some d ->
  well_formed t (db_config_ w) ->
  Yaml.get ["tables_details"; t; "columns"] (Some (db_config_ w))
  = inr (Some (Yaml.Map m)) ->
  discoverable E cols typname key t ->
  exists w',
    get_column_details t w = Ret tt w'
    /\ Yaml.get ["tables_details"; t; "columns"] (Some (db_config_ w'))
       = inr (Some (Yaml.Map (set_columns typname (cols t) m)))
    /\ (exists added,
          map fst (set_columns typname (cols t) m) = (map fst m ++ added)%list)
    /\ (forall k, ~ In k (map Pq.column_name (cols t)) ->
                  Yaml.get ["tables_details"; t; "columns"; k] (Some (db_config_ w'))
                  = Yaml.get ["tables_details"; t; "columns"; k] (Some (db_config_ w))).
Proof.
  intros Hc Hwf Hmap Hdisc.
  destruct (@get_column_details_columns E cols typname key t w d (Some (Yaml.Map m)) m
                                        Hc Hwf Hmap eq_refl Hdisc) as (w' & Hrun & Hcols & _).
  assert (Hmap' : Yaml.get ["tables_details"; t; "columns"] (Some (db_config_ w'))
                  = inr (Some (Yaml.Map (set_columns typname (cols t) m)))).
  { rewrite Hcols. destruct (cols t); reflexivity. }
  exists w'. split; [exact Hrun|]. split; [exact Hmap'|].
  split; [apply set_columns_names|].
  intros k Hk.
  change ["tables_details"; t; "columns"; k]
    with (["tables_details"; t; "columns"] ++ [k])%list.
  rewrite (@get_below ["tables_details"; t; "columns"] [k] _ _ Hmap'),
          (@get_below ["tables_details"; t; "columns"] [k] _ _ Hmap).
  cbn. unfold Yaml.subscript. cbn.
  rewrite set_columns_other by exact Hk. reflexivity.
Qed.

Lemma rediscovery_keeps_recorded_columns_witness :
  exists w',
    get_column_details
      "public.t"
      (@mk_world Toy.env
                 (Yaml.Map [("tables_details",
                             Yaml.Map [("public.t",
                                        Yaml.Map [("columns",
                                                   Yaml.Map [("dropped", Yaml.Scalar "text");
                                                             ("name", Yaml.Scalar "int4")])])])])
                 (Some 0) [] "" "" [])
    = Ret tt w'
    /\ Yaml.get ["tables_details"; "public.t"; "columns"] (Some (db_config_ w'))
       = inr (Some (Yaml.Map [("dropped", Yaml.Scalar "text"); ("name", Yaml.Scalar "text");
                              ("id", Yaml.Scalar "int4");
                              ("created_at", Yaml.Scalar "timestamp")])).
Proof.
  destruct (@rediscovery_keeps_recorded_columns
              Toy.env (fun _ => Toy.t_columns) toy_typname (fun _ => "id") "public.t"
              (@mk_world Toy.env
                 (Yaml.Map [("tables_details",
                             Yaml.Map [("public.t",
                                        Yaml.Map [("columns",
                                                   Yaml.Map [("dropped", Yaml.Scalar "text");
                                                             ("name", Yaml.Scalar "int4")])])])])
                 (Some 0) [] "" "" [])
              (0 : DB Toy.env) _
              eq_refl (ex_intro _ _ eq_refl) eq_refl
              (toy_discoverable (or_introl eq_refl)))
    as (w' & Hrun & Hcols & _).
  exists w'. split; [exact Hrun | exact Hcols].
Defined.
